(** * HybridDeviceOptimizer: a shallow embedding of
      megatron/core/optimizer/cpu_offloading/hybrid_optimizer.py

    The optimizer splits the trainable parameters between a device
    (CUDA) sub-optimizer and one or several host (CPU) sub-optimizers.
    Tensors are modelled by immutable handles carrying their identity
    and the attributes the code reads ([numel], [is_cuda]); the mutable
    attributes ([requires_grad], [grad]) live in a heap keyed by the
    identity.  Python dictionaries keyed by tensors hash and compare by
    identity, so they are finite maps keyed by [tid].  Tensor contents
    are not tracked: a [copy_] only has its control-flow effect. *)

From Stdlib Require Import ZArith List Bool Lia SpecFloat Zpower.
From stdpp Require Import base option list gmap strings.

#[local] Set Warnings "-clear-no-such-hyp".

Open Scope Z_scope.

(** ** Python floats: IEEE 754 binary64 *)

Module PyFloat.

Definition prec : Z := 53.
Definition emax : Z := 1024.

Definition mul (x y : spec_float) : spec_float := SFmul prec emax x y.

(** [float(z)] for a Python [int]: correctly rounded (ties to even);
    [None] stands for [OverflowError]. *)
Definition of_int (z : Z) : option spec_float :=
  match binary_normalize prec emax z 0 false with
  | S754_zero s => Some (S754_zero s)
  | S754_finite s m e => Some (S754_finite s m e)
  | S754_infinity _ | S754_nan => None
  end.

(** [z <= x] for an [int] [z] and a [float] [x]: Python compares the
    two exactly, without converting the integer. *)
Definition int_le (z : Z) (x : spec_float) : bool :=
  match x with
  | S754_nan => false
  | S754_infinity s => negb s
  | S754_zero _ => z <=? 0
  | S754_finite s m e =>
      let v := if s then Zneg m else Zpos m in
      match e with
      | Zneg k => z * 2 ^ Zpos k <=? v
      | _ => z <=? v * 2 ^ e
      end
  end.

Definition zero : spec_float := S754_zero false.
Definition one : spec_float := S754_finite false 4503599627370496 (-52).
(** The doubles written [0.3] and [0.5] in Python. *)
Definition f0_3 : spec_float := S754_finite false 5404319552844595 (-54).
Definition f0_5 : spec_float := S754_finite false 4503599627370496 (-53).

Definition in_unit_interval (x : spec_float) : bool :=
  SFleb zero x && SFleb x one.

End PyFloat.

(** ** Exceptions *)

Inductive Exn :=
| AssertionError (msg : string)
| OverflowError
| KeyError
| IndexError
| AttributeError
| TypeError
| ValueError (msg : string).

Definition overlap_assert_msg : string :=
  "Overlap CPU optimizers must be used with multi CUDA streams!".
Definition empty_group_msg : string := "param_groups should not be empty".
Definition empty_params_msg : string := "optimizer got an empty parameter list".
Definition shared_params_msg : string :=
  "some parameters appear in more than one parameter group".

(** ** Tensors, parameter groups and the heap *)

Record Tensor := {
  tid : positive;      (* identity of the object *)
  numel : N;           (* number of elements *)
  is_cuda : bool;      (* device-resident *)
  pinned : bool        (* page-locked host memory *)
}.

Global Instance Tensor_eq_dec : EqDecision Tensor.
Proof. solve_decision. Defined.

(** Values of hyperparameters and of state fields are opaque to the
    optimizer. *)
Inductive PyVal :=
| VInt (z : Z)
| VFloat (x : spec_float)
| VBool (b : bool)
| VStr (s : string)
| VTensor (t : Tensor).

(** A parameter group [{"params": [...], name: value, ...}]; [g_hypers]
    holds every key other than ["params"]. *)
Record ParamGroup := {
  g_params : list Tensor;
  g_hypers : gmap string PyVal
}.

(** [ParamsT]: a list of tensors or a list of groups.  The empty Python
    list is [Flat []]; [Grouped []] denotes the same list. *)
Inductive ParamsT :=
| Flat (ps : list Tensor)
| Grouped (gs : list ParamGroup).

Definition params_len (params : ParamsT) : nat :=
  match params with
  | Flat ps => length ps
  | Grouped gs => length gs
  end.

(** The parameters of a list of groups in order
    ([params.extend(group["params"])] for each group in turn). *)
Definition group_params (gs : list ParamGroup) : list Tensor :=
  foldl (fun acc g => acc ++ g_params g) [] gs.

Definition flatten_params (params : ParamsT) : list Tensor :=
  match params with
  | Flat ps => ps
  | Grouped gs => group_params gs
  end.

(** The mutable part of the world: the allocator of tensor identities,
    the attributes [requires_grad] and [grad] of the tensors (an absent
    key of [grad] is [grad is None]) and the number of optimizer
    instances constructed so far. *)
Record Heap := {
  next_tid : positive;
  requires_grad : gmap positive bool;
  grad : gmap positive Tensor;
  n_optimizers : nat
}.

(** ** State and exceptions

    A computation reads and writes the heap and either returns a value
    or raises; the heap at the point of the [raise] is kept. *)
Definition M (A : Type) : Type := Heap -> (Exn + A) * Heap.

Definition ret {A} (a : A) : M A := fun h => (inr a, h).
Definition raise {A} (e : Exn) : M A := fun h => (inl e, h).
Definition bind {A B} (m : M A) (k : A -> M B) : M B :=
  fun h =>
    match m h with
    | (inl e, h') => (inl e, h')
    | (inr a, h') => k a h'
    end.

Notation "'let*' x ':=' c1 'in' c2" := (bind c1 (fun x => c2))
  (at level 10, x binder, c1 at level 100, c2 at level 200, only parsing).

Definition get_heap : M Heap := fun h => (inr h, h).
Definition put_heap (h' : Heap) : M unit := fun _ => (inr tt, h').

Definition lift {A} (r : Exn + A) : M A :=
  match r with
  | inl e => raise e
  | inr a => ret a
  end.

(** [assert b, msg] *)
Definition assert_ (b : bool) (msg : string) : M unit :=
  if b then ret tt else raise (AssertionError msg).

(** [d[k]] on a dictionary: [KeyError] when the key is absent. *)
Definition getitem {A} (o : option A) : M A :=
  match o with
  | Some a => ret a
  | None => raise KeyError
  end.

(** A [for] loop with the loop-carried variables [b]. *)
Fixpoint foldM {A B} (f : B -> A -> M B) (b : B) (l : list A) : M B :=
  match l with
  | [] => ret b
  | a :: l' => let* b' := f b a in foldM f b' l'
  end.

Definition alloc : M positive :=
  fun h =>
    (inr (next_tid h),
     {| next_tid := Pos.succ (next_tid h);
        requires_grad := requires_grad h;
        grad := grad h;
        n_optimizers := n_optimizers h |}).

Definition set_requires_grad (t : Tensor) (b : bool) : M unit :=
  fun h =>
    (inr tt,
     {| next_tid := next_tid h;
        requires_grad := <[tid t := b]> (requires_grad h);
        grad := grad h;
        n_optimizers := n_optimizers h |}).

(** [t.grad = g] *)
Definition set_grad (t : Tensor) (g : option Tensor) : M unit :=
  fun h =>
    (inr tt,
     {| next_tid := next_tid h;
        requires_grad := requires_grad h;
        grad := match g with
                | Some g' => <[tid t := g']> (grad h)
                | None => delete (tid t) (grad h)
                end;
        n_optimizers := n_optimizers h |}).

(** [t.grad] *)
Definition get_grad (t : Tensor) : M (option Tensor) :=
  fun h => (inr (grad h !! tid t), h).

(** A new tensor object; it does not require gradient. *)
Definition new_tensor (n : N) (cuda pin : bool) : M Tensor :=
  let* i := alloc in
  let t := {| tid := i; numel := n; is_cuda := cuda; pinned := pin |} in
  let* _ := set_requires_grad t false in
  ret t.

(** [t.detach()]: a new tensor object over the same storage. *)
Definition detach (t : Tensor) : M Tensor :=
  new_tensor (numel t) (is_cuda t) (pinned t).

(** [t.cpu()]: a host copy, or [t] itself when it is already on the host. *)
Definition to_cpu (t : Tensor) : M Tensor :=
  if is_cuda t then new_tensor (numel t) false false else ret t.

(** [t.pin_memory()] of a host tensor: a page-locked copy, or [t] itself
    when it is already pinned. *)
Definition pin_memory (t : Tensor) : M Tensor :=
  if pinned t then ret t else new_tensor (numel t) (is_cuda t) true.

(** [torch.randn_like(t)] *)
Definition randn_like (t : Tensor) : M Tensor :=
  new_tensor (numel t) (is_cuda t) false.

(** [torch.empty(g.shape, dtype=g.dtype, pin_memory=pin)]: a host tensor. *)
Definition empty_like_on_host (g : Tensor) (pin : bool) : M Tensor :=
  new_tensor (numel g) false pin.

(** [hasattr(t, "grad")]: [grad] is an attribute of every tensor (its
    value is [None] when there is no gradient), so this is always true. *)
Definition hasattr_grad (t : Tensor) : bool := true.

(** ** The parameter partitioner:
       [_split_parameters_updated_on_the_cpu_and_gpu] *)

(** [sum([param.numel() for param in params])] *)
Definition total_numel (ps : list Tensor) : Z :=
  foldl (fun acc p => acc + Z.of_N (numel p)) 0 ps.

(** [total_params_numel * offload_fraction] *)
Definition offload_threshold (total : Z) (offload_fraction : spec_float)
  : Exn + spec_float :=
  match PyFloat.of_int total with
  | Some x => inr (PyFloat.mul x offload_fraction)
  | None => inl OverflowError
  end.

(** The local variables of the walk over the parameters. *)
Record Walk := {
  w_cpu_params : list Tensor;
  w_gpu_params : list Tensor;
  w_gpu_params_map_cpu_copy : gmap positive Tensor;
  w_cpu_copys_map_gpu_param : gmap positive Tensor;
  w_offloaded_params_numel : Z
}.

Definition walk_init : Walk :=
  {| w_cpu_params := []; w_gpu_params := [];
     w_gpu_params_map_cpu_copy := ∅; w_cpu_copys_map_gpu_param := ∅;
     w_offloaded_params_numel := 0 |}.

(** The host shadow of [param]: [param.detach().cpu()], pinned when
    [pin_cpu_params], with [requires_grad = True]. *)
Definition make_cpu_copy (pin_cpu_params : bool) (param : Tensor) : M Tensor :=
  let* d := detach param in
  let* c := to_cpu d in
  let* c' := (if pin_cpu_params then pin_memory c else ret c) in
  let* _ := set_requires_grad c' true in
  ret c'.

(** One iteration of [for param in params]. *)
Definition visit (pin_cpu_params : bool) (threshold : spec_float)
    (w : Walk) (param : Tensor) : M Walk :=
  if PyFloat.int_le (w_offloaded_params_numel w + Z.of_N (numel param)) threshold
  then
    let* _ := assert_ (is_cuda param) "" in
    let* param_cpu_copy := make_cpu_copy pin_cpu_params param in
    ret {| w_cpu_params := w_cpu_params w ++ [param_cpu_copy];
           w_gpu_params := w_gpu_params w;
           w_gpu_params_map_cpu_copy :=
             <[tid param := param_cpu_copy]> (w_gpu_params_map_cpu_copy w);
           w_cpu_copys_map_gpu_param :=
             <[tid param_cpu_copy := param]> (w_cpu_copys_map_gpu_param w);
           w_offloaded_params_numel :=
             w_offloaded_params_numel w + Z.of_N (numel param) |}
  else
    ret {| w_cpu_params := w_cpu_params w;
           w_gpu_params := w_gpu_params w ++ [param];
           w_gpu_params_map_cpu_copy := w_gpu_params_map_cpu_copy w;
           w_cpu_copys_map_gpu_param := w_cpu_copys_map_gpu_param w;
           w_offloaded_params_numel :=
             w_offloaded_params_numel w + Z.of_N (numel param) |}.

Definition walk (pin_cpu_params : bool) (threshold : spec_float)
    (params : list Tensor) : M Walk :=
  foldM (visit pin_cpu_params threshold) walk_init params.

(** The key ["_param_sub_optimizer_attrs"] is never handed to a
    sub-optimizer group. *)
Definition sub_optimizer_attrs_key : string := "_param_sub_optimizer_attrs".

(** The inner loop [for param in group["params"]] of the regrouping. *)
Definition regroup_params (g2c : gmap positive Tensor) (ps : list Tensor)
  : list Tensor * list Tensor :=
  foldl (fun acc param =>
           match g2c !! tid param with
           | Some c => (fst acc ++ [c], snd acc)
           | None => (fst acc, snd acc ++ [param])
           end) ([], []) ps.

(** One iteration of the outer loop [for group in param_groups]. *)
Definition regroup_step (g2c : gmap positive Tensor)
    (acc : list ParamGroup * list ParamGroup) (group : ParamGroup)
  : list ParamGroup * list ParamGroup :=
  let group_defaults := delete sub_optimizer_attrs_key (g_hypers group) in
  let _params := regroup_params g2c (g_params group) in
  (if (0 <? length (fst _params))%nat
   then fst acc ++ [{| g_params := fst _params; g_hypers := group_defaults |}]
   else fst acc,
   if (0 <? length (snd _params))%nat
   then snd acc ++ [{| g_params := snd _params; g_hypers := group_defaults |}]
   else snd acc).

Definition regroup (g2c : gmap positive Tensor) (gs : list ParamGroup)
  : list ParamGroup * list ParamGroup :=
  foldl (regroup_step g2c) ([], []) gs.

Record SplitResult := {
  r_cpu_params : ParamsT;
  r_gpu_params : ParamsT;
  r_gpu_params_map_cpu_copy : gmap positive Tensor;
  r_cpu_copys_map_gpu_param : gmap positive Tensor
}.

Definition _split_parameters_updated_on_the_cpu_and_gpu
    (pin_cpu_params : bool) (params : ParamsT) (offload_fraction : spec_float)
  : M SplitResult :=
  if (params_len params =? 0)%nat then
    ret {| r_cpu_params := Flat []; r_gpu_params := Flat [];
           r_gpu_params_map_cpu_copy := ∅; r_cpu_copys_map_gpu_param := ∅ |}
  else
    let ps := flatten_params params in
    let* threshold := lift (offload_threshold (total_numel ps) offload_fraction) in
    let* w := walk pin_cpu_params threshold ps in
    match params with
    | Grouped param_groups =>
        let groups := regroup (w_gpu_params_map_cpu_copy w) param_groups in
        ret {| r_cpu_params := Grouped (fst groups);
               r_gpu_params := Grouped (snd groups);
               r_gpu_params_map_cpu_copy := w_gpu_params_map_cpu_copy w;
               r_cpu_copys_map_gpu_param := w_cpu_copys_map_gpu_param w |}
    | Flat _ =>
        ret {| r_cpu_params := Flat (w_cpu_params w);
               r_gpu_params := Flat (w_gpu_params w);
               r_gpu_params_map_cpu_copy := w_gpu_params_map_cpu_copy w;
               r_cpu_copys_map_gpu_param := w_cpu_copys_map_gpu_param w |}
    end.

(** ** The base class [torch.optim.Optimizer] and the sub-optimizers

    An optimizer class is known by its name and by the defaults of its
    constructor.  The update rule of the classes is opaque, and a
    parameter of the model: a [StepRule] gives the new [state]
    dictionary of an instance from its class, its groups, the gradients
    and its old [state]. *)

Record OptimizerCls := {
  cls_name : string;
  cls_defaults : gmap string PyVal
}.

Definition StepRule : Type :=
  OptimizerCls -> list ParamGroup -> gmap positive Tensor ->
  list (positive * gmap string PyVal) -> list (positive * gmap string PyVal).

(** [Optimizer.add_param_group] for each group in turn: every default
    is set in the group unless the group has the key, and a parameter
    of an earlier group is refused.  A parameter repeated inside one
    group only triggers a warning. *)
Fixpoint add_param_groups (defaults : gmap string PyVal) (seen : gset positive)
    (gs : list ParamGroup) : Exn + list ParamGroup :=
  match gs with
  | [] => inr []
  | g :: gs' =>
      if forallb (fun p => bool_decide (tid p ∉ seen)) (g_params g) then
        match add_param_groups defaults
                (seen ∪ list_to_set (tid <$> g_params g)) gs' with
        | inl e => inl e
        | inr gs'' =>
            inr ({| g_params := g_params g;
                    g_hypers := g_hypers g ∪ defaults |} :: gs'')
        end
      else inl (ValueError shared_params_msg)
  end.

(** [Optimizer.__init__(params, defaults)]: the [param_groups] of the
    new optimizer. *)
Definition Optimizer_init (params : ParamsT) (defaults : gmap string PyVal)
  : Exn + list ParamGroup :=
  if (params_len params =? 0)%nat then inl (ValueError empty_params_msg)
  else
    match params with
    | Flat ps => add_param_groups defaults ∅ [{| g_params := ps; g_hypers := ∅ |}]
    | Grouped gs => add_param_groups defaults ∅ gs
    end.

Record SubOptimizer := {
  opt_id : nat;                                     (* identity of the instance *)
  opt_cls : OptimizerCls;
  opt_param_groups : list ParamGroup;
  opt_state : list (positive * gmap string PyVal)   (* in insertion order *)
}.

Definition fresh_optimizer_id : M nat :=
  fun h =>
    (inr (n_optimizers h),
     {| next_tid := next_tid h;
        requires_grad := requires_grad h;
        grad := grad h;
        n_optimizers := S (n_optimizers h) |}).

(** [cls(params, **kwargs)] *)
Definition new_optimizer (cls : OptimizerCls) (params : ParamsT)
    (kwargs : gmap string PyVal) : M SubOptimizer :=
  let* groups := lift (Optimizer_init params (kwargs ∪ cls_defaults cls)) in
  let* i := fresh_optimizer_id in
  ret {| opt_id := i; opt_cls := cls; opt_param_groups := groups; opt_state := [] |}.

Definition set_opt_param_groups (o : SubOptimizer) (gs : list ParamGroup)
  : SubOptimizer :=
  {| opt_id := opt_id o; opt_cls := opt_cls o;
     opt_param_groups := gs; opt_state := opt_state o |}.

Definition set_opt_state (o : SubOptimizer)
    (st : list (positive * gmap string PyVal)) : SubOptimizer :=
  {| opt_id := opt_id o; opt_cls := opt_cls o;
     opt_param_groups := opt_param_groups o; opt_state := st |}.

(** [optimizer.step()]: only the [state] of the instance is tracked. *)
Definition opt_step (rule : StepRule) (o : SubOptimizer) : M SubOptimizer :=
  let* h := get_heap in
  ret (set_opt_state o
         (rule (opt_cls o) (opt_param_groups o) (grad h) (opt_state o))).

(** [optimizer.zero_grad(set_to_none)] of the base class. *)
Definition opt_zero_grad (set_to_none : bool) (o : SubOptimizer) : M unit :=
  foldM (fun _ p =>
           let* g := get_grad p in
           match g with
           | None => ret tt
           | Some g' =>
               if set_to_none then set_grad p None
               else set_requires_grad g' false
           end) tt (group_params (opt_param_groups o)).

(** ** The hybrid device optimizer *)

Inductive Stream := CurrentStream | OwnStream (name : string).
Record Event := { ev_stream : Stream }.
Definition record_event (s : Stream) : Event := {| ev_stream := s |}.

(** [param_optimizer_mapping]: [lambda _: 0] or a dictionary. *)
Inductive Routing :=
| RouteZero
| RouteDict (m : gmap positive nat).

Definition route (r : Routing) (p : Tensor) : option nat :=
  match r with
  | RouteZero => Some 0%nat
  | RouteDict m => m !! tid p
  end.

(** The arguments of [__init__], kept in [self.defaults]. *)
Record Defaults := {
  cpu_optimizer_cls : OptimizerCls;
  gpu_optimizer_cls : OptimizerCls;
  offload_fraction : spec_float;
  pin_cpu_grads : bool;
  pin_cpu_params : bool;
  overlap : bool;
  multi_streams : bool;
  kwargs : gmap string PyVal
}.

Definition defaults_dict (d : Defaults) : gmap string PyVal :=
  kwargs d ∪
  <["cpu_optimizer_cls" := VStr (cls_name (cpu_optimizer_cls d))]>
  (<["gpu_optimizer_cls" := VStr (cls_name (gpu_optimizer_cls d))]>
  (<["offload_fraction" := VFloat (offload_fraction d)]>
  (<["pin_cpu_grads" := VBool (pin_cpu_grads d)]>
  (<["pin_cpu_params" := VBool (pin_cpu_params d)]>
  (<["overlap" := VBool (overlap d)]>
  (<["multi_streams" := VBool (multi_streams d)]> ∅)))))).

(** The attributes of a [HybridDeviceOptimizer]; [pin_cpu_params],
    [pin_cpu_grads] and [sub_optimizer_kwargs] are read from
    [defaults], which holds the same values. *)
Record HDO := {
  defaults : Defaults;
  param_groups : list ParamGroup;
  state : gmap positive (gmap string PyVal);
  cpu_params : ParamsT;
  gpu_params : ParamsT;
  gpu_params_map_cpu_copy : gmap positive Tensor;
  cpu_copys_map_gpu_param : gmap positive Tensor;
  cpu_optimizers : list SubOptimizer;
  param_optimizer_mapping : Routing;
  n_params : list nat;
  gpu_optimizer : option SubOptimizer;
  cpu_copy_map_grad : gmap positive Tensor;
  _d2h_stream : Stream;
  _h2d_stream : Stream;
  _step_stream : Stream;
  _cpu_optimizer_map_data_event : gmap nat Event
}.

(** The property [sub_optimizers]. *)
Definition sub_optimizers (s : HDO) : list SubOptimizer :=
  match gpu_optimizer s with
  | Some o => cpu_optimizers s ++ [o]
  | None => cpu_optimizers s
  end.

(** *** [build_cpu_optimizer_list] *)

Definition BuildAcc : Type :=
  list SubOptimizer * gmap positive nat * list nat.

(** The body shared by the two loops: [param] is routed to the index of
    the optimizer about to be appended, built from [arg]. *)
Definition build_one (cls : OptimizerCls) (kwargs : gmap string PyVal)
    (arg : Tensor -> ParamsT) (acc : BuildAcc) (param : Tensor) : M BuildAcc :=
  let param_optimizer_mapping := <[tid param := length acc.1.1]> acc.1.2 in
  let* o := new_optimizer cls (arg param) kwargs in
  ret (acc.1.1 ++ [o], param_optimizer_mapping, acc.2 ++ [1%nat]).

Definition build_cpu_optimizer_list (cls : OptimizerCls) (cpu_params : ParamsT)
    (kwargs : gmap string PyVal) : M BuildAcc :=
  if (params_len cpu_params =? 0)%nat then ret ([], ∅, [])
  else
    match cpu_params with
    | Grouped gs =>
        foldM (fun acc group =>
                 let group_defaults := g_hypers group in
                 foldM (build_one cls kwargs
                          (fun param =>
                             Grouped [{| g_params := [param];
                                         g_hypers := group_defaults |}]))
                       acc (g_params group))
              ([], ∅, []) gs
    | Flat ps =>
        foldM (build_one cls kwargs (fun param => Flat [param])) ([], ∅, []) ps
    end.

(** *** [_init_sub_optimizers] *)

Definition _init_sub_optimizers (d : Defaults) (groups : list ParamGroup)
    (st : gmap positive (gmap string PyVal)) (params : ParamsT) : M HDO :=
  let* r := _split_parameters_updated_on_the_cpu_and_gpu
              (pin_cpu_params d) params (offload_fraction d) in
  let* cpu :=
    if overlap d && (0 <? params_len (r_cpu_params r))%nat then
      let* b := build_cpu_optimizer_list (cpu_optimizer_cls d) (r_cpu_params r)
                  (kwargs d) in
      ret (b.1.1, RouteDict b.1.2, b.2)
    else
      let* os :=
        (if (0 <? params_len (r_cpu_params r))%nat then
           let* o := new_optimizer (cpu_optimizer_cls d) (r_cpu_params r) (kwargs d) in
           ret [o]
         else ret []) in
      ret (os, RouteZero, [params_len (r_cpu_params r)]) in
  let* gpu :=
    (if (0 <? params_len (r_gpu_params r))%nat then
       let* o := new_optimizer (gpu_optimizer_cls d) (r_gpu_params r) (kwargs d) in
       ret (Some o)
     else ret None) in
  ret {| defaults := d;
         param_groups := groups;
         state := st;
         cpu_params := r_cpu_params r;
         gpu_params := r_gpu_params r;
         gpu_params_map_cpu_copy := r_gpu_params_map_cpu_copy r;
         cpu_copys_map_gpu_param := r_cpu_copys_map_gpu_param r;
         cpu_optimizers := cpu.1.1;
         param_optimizer_mapping := cpu.1.2;
         n_params := cpu.2;
         gpu_optimizer := gpu;
         cpu_copy_map_grad := ∅;
         _d2h_stream := if multi_streams d then OwnStream "d2h" else CurrentStream;
         _h2d_stream := if overlap d then OwnStream "h2d" else CurrentStream;
         _step_stream := if multi_streams d then OwnStream "step" else CurrentStream;
         _cpu_optimizer_map_data_event := ∅ |}.

(** *** [__init__]

    The base class sets the defaults in the caller's group dictionaries
    in place, so for grouped input the [params] handed on to
    [_init_sub_optimizers] are the groups of [self.param_groups].  The
    hooks registered at the end carry no state of their own: they are
    the phases of [step_with_hooks] below. *)
Definition HybridDeviceOptimizer_init (params : ParamsT) (d : Defaults) : M HDO :=
  let* groups := lift (Optimizer_init params (defaults_dict d)) in
  let* _ := assert_ (negb (overlap d) || multi_streams d) overlap_assert_msg in
  _init_sub_optimizers d groups ∅
    (match params with
     | Flat ps => Flat ps
     | Grouped _ => Grouped groups
     end).

(** *** [_sync_sub_optimizers_state_to_hdo] *)

(** [cpu_copys_map_gpu_param.get(param, param)] on identities. *)
Definition remap_to_gpu_param (c2g : gmap positive Tensor) (k : positive) : positive :=
  match c2g !! k with
  | Some p => tid p
  | None => k
  end.

Definition collect_state (c2g : gmap positive Tensor)
    (new_state : gmap positive (gmap string PyVal)) (o : SubOptimizer)
  : gmap positive (gmap string PyVal) :=
  foldl (fun ns kv => <[remap_to_gpu_param c2g kv.1 := kv.2]> ns)
        new_state (opt_state o).

Definition set_state (s : HDO) (st : gmap positive (gmap string PyVal)) : HDO :=
  {| defaults := defaults s;
     param_groups := param_groups s;
     state := st;
     cpu_params := cpu_params s;
     gpu_params := gpu_params s;
     gpu_params_map_cpu_copy := gpu_params_map_cpu_copy s;
     cpu_copys_map_gpu_param := cpu_copys_map_gpu_param s;
     cpu_optimizers := cpu_optimizers s;
     param_optimizer_mapping := param_optimizer_mapping s;
     n_params := n_params s;
     gpu_optimizer := gpu_optimizer s;
     cpu_copy_map_grad := cpu_copy_map_grad s;
     _d2h_stream := _d2h_stream s;
     _h2d_stream := _h2d_stream s;
     _step_stream := _step_stream s;
     _cpu_optimizer_map_data_event := _cpu_optimizer_map_data_event s |}.

Definition _sync_sub_optimizers_state_to_hdo (s : HDO) : HDO :=
  set_state s
    (foldl (collect_state (cpu_copys_map_gpu_param s)) ∅ (sub_optimizers s)).

(** *** [_sync_hdo_param_groups_to_sub_optimizers] *)

(** [gpu_params_map_cpu_copy.get(param, param)] *)
Definition remap_to_cpu_copy (g2c : gmap positive Tensor) (param : Tensor) : Tensor :=
  default param (g2c !! tid param).

(** [param_in_param_group_index]: remapped parameter -> (group, position). *)
Definition build_param_index (g2c : gmap positive Tensor) (gs : list ParamGroup)
  : gmap positive (nat * nat) :=
  foldl (fun idx ig =>
           foldl (fun idx' ip =>
                    <[tid (remap_to_cpu_copy g2c ip.2) := (ig.1, ip.1)]> idx')
                 idx (imap pair (g_params ig.2)))
        ∅ (imap pair gs).

(** The body of [for group in optimizer.param_groups]. *)
Definition sync_group (unified : list ParamGroup) (index : gmap positive (nat * nat))
    (new_param_groups : list ParamGroup) (group : ParamGroup)
  : M (list ParamGroup) :=
  let* _ := assert_ (0 <? length (g_params group))%nat empty_group_msg in
  let* first :=
    match g_params group with
    | p :: _ => ret p
    | [] => raise IndexError
    end in
  let* gp := getitem (index !! tid first) in
  let* ug :=
    match unified !! gp.1 with
    | Some g => ret g
    | None => raise IndexError
    end in
  let update_group_attrs := delete sub_optimizer_attrs_key (g_hypers ug) in
  ret (new_param_groups ++
       [{| g_params := g_params group;
           g_hypers := update_group_attrs ∪ g_hypers group |}]).

(** The body of [for param in _param_generator(optimizer)]: gradient
    staging for one host parameter; [bufs] is [cpu_copy_map_grad]. *)
Definition stage_param (c2g : gmap positive Tensor) (pin_cpu_grads : bool)
    (bufs : gmap positive Tensor) (param : Tensor) : M (gmap positive Tensor) :=
  let* gpu_param := getitem (c2g !! tid param) in
  let* bufs' :=
    match bufs !! tid param with
    | Some _ => ret bufs
    | None =>
        let* g := get_grad gpu_param in
        match g with
        | None => raise AttributeError        (* [None.shape] *)
        | Some g' =>
            let* buf := empty_like_on_host g' pin_cpu_grads in
            ret (<[tid param := buf]> bufs)
        end
    end in
  if hasattr_grad gpu_param then
    let* g := get_grad gpu_param in
    match g with
    | None => raise TypeError                 (* [copy_(None)] *)
    | Some _ =>
        let* buf := getitem (bufs' !! tid param) in
        let* _ := set_grad param (Some buf) in
        let* _ := set_requires_grad param true in
        ret bufs'
    end
  else
    let* _ := set_requires_grad param false in
    ret bufs'.

Definition SyncAcc : Type :=
  list SubOptimizer * gmap positive Tensor * gmap nat Event.

(** The body of [for optimizer in self.sub_optimizers] for a host
    optimizer. *)
Definition sync_cpu_optimizer (s : HDO) (index : gmap positive (nat * nat))
    (acc : SyncAcc) (o : SubOptimizer) : M SyncAcc :=
  let* new_param_groups :=
    foldM (sync_group (param_groups s) index) [] (opt_param_groups o) in
  let* bufs :=
    foldM (stage_param (cpu_copys_map_gpu_param s) (pin_cpu_grads (defaults s)))
          acc.1.2 (group_params (opt_param_groups o)) in
  ret (acc.1.1 ++ [set_opt_param_groups o new_param_groups],
       bufs,
       <[opt_id o := record_event (_d2h_stream s)]> acc.2).

(** The same body for the device optimizer: no staging. *)
Definition sync_gpu_optimizer (s : HDO) (index : gmap positive (nat * nat))
    (o : SubOptimizer) : M SubOptimizer :=
  let* new_param_groups :=
    foldM (sync_group (param_groups s) index) [] (opt_param_groups o) in
  ret (set_opt_param_groups o new_param_groups).

Definition set_sub_optimizers (s : HDO) (cpus : list SubOptimizer)
    (gpu : option SubOptimizer) (bufs : gmap positive Tensor)
    (evs : gmap nat Event) : HDO :=
  {| defaults := defaults s;
     param_groups := param_groups s;
     state := state s;
     cpu_params := cpu_params s;
     gpu_params := gpu_params s;
     gpu_params_map_cpu_copy := gpu_params_map_cpu_copy s;
     cpu_copys_map_gpu_param := cpu_copys_map_gpu_param s;
     cpu_optimizers := cpus;
     param_optimizer_mapping := param_optimizer_mapping s;
     n_params := n_params s;
     gpu_optimizer := gpu;
     cpu_copy_map_grad := bufs;
     _d2h_stream := _d2h_stream s;
     _h2d_stream := _h2d_stream s;
     _step_stream := _step_stream s;
     _cpu_optimizer_map_data_event := evs |}.

Definition _sync_hdo_param_groups_to_sub_optimizers (s : HDO) : M HDO :=
  let index := build_param_index (gpu_params_map_cpu_copy s) (param_groups s) in
  let* acc :=
    foldM (sync_cpu_optimizer s index)
          ([], cpu_copy_map_grad s, _cpu_optimizer_map_data_event s)
          (cpu_optimizers s) in
  let* gpu :=
    match gpu_optimizer s with
    | Some o => let* o' := sync_gpu_optimizer s index o in ret (Some o')
    | None => ret None
    end in
  ret (set_sub_optimizers s acc.1.1 gpu acc.1.2 acc.2).

(** *** [step], its hooks, [zero_grad] and [dummy_step] *)

Definition step (rule : StepRule) (s : HDO) : M HDO :=
  let* gpu :=
    match gpu_optimizer s with
    | Some o => let* o' := opt_step rule o in ret (Some o')
    | None => ret None
    end in
  let* acc :=
    foldM (fun (acc : list SubOptimizer * gmap nat Event) cpu_optimizer =>
             let evs := delete (opt_id cpu_optimizer) acc.2 in
             let* o' := opt_step rule cpu_optimizer in
             ret (acc.1 ++ [o'], evs))
          ([], _cpu_optimizer_map_data_event s) (cpu_optimizers s) in
  ret (set_sub_optimizers s acc.1 gpu (cpu_copy_map_grad s) acc.2).

Definition pre_step_hook (s : HDO) : M HDO :=
  _sync_hdo_param_groups_to_sub_optimizers s.

Definition post_step_hook (s : HDO) : M HDO :=
  ret (_sync_sub_optimizers_state_to_hdo s).

(** [self.step()] as the base class wraps it: pre hook, step, post hook. *)
Definition step_with_hooks (rule : StepRule) (s : HDO) : M HDO :=
  let* s1 := pre_step_hook s in
  let* s2 := step rule s1 in
  post_step_hook s2.

Definition zero_grad (set_to_none : bool) (s : HDO) : M unit :=
  foldM (fun _ optimizer => opt_zero_grad set_to_none optimizer) tt
        (sub_optimizers s).

(** The loop of [dummy_step]: [param.grad = torch.randn_like(param)] for
    every parameter of the unified groups. *)
Definition assign_dummy_grads (s : HDO) : M unit :=
  foldM (fun _ param =>
           let* g := randn_like param in
           set_grad param (Some g))
        tt (group_params (param_groups s)).

Definition dummy_step (rule : StepRule) (s : HDO) : M HDO :=
  let* _ := assign_dummy_grads s in
  let* s' := step_with_hooks rule s in
  let* _ := zero_grad true s' in
  ret s'.

(** ** Vocabulary of the statements *)


(** The prefix-sum rule: the parameter at position [i] of [ps] goes to
    the host when the element count of the first [i + 1] parameters
    does not exceed the threshold. *)
Definition host_at (threshold : spec_float) (ps : list Tensor) (i : nat) : bool :=
  PyFloat.int_le (total_numel (take (S i) ps)) threshold.

(** The parameters of [ps] the rule sends to the host ([side = true])
    or leaves on the device ([side = false]), in input order. *)
Definition assigned (side : bool) (threshold : spec_float) (ps : list Tensor)
  : list Tensor :=
  (fun ip : nat * Tensor => ip.2)
    <$> filter (fun ip : nat * Tensor => host_at threshold ps ip.1 = side)
               (imap pair ps).

(** The device parameters of which the host tensors [cs] are shadows,
    read from the host-to-device table. *)
Definition origins (c2g : gmap positive Tensor) (cs : list Tensor)
  : list (option Tensor) :=
  (fun c => c2g !! tid c) <$> cs.

(** The loop invariant of the walk: [w] and [h'] are the local
    variables and the heap after the parameters [l] have been visited
    from the heap [h]. *)
Definition walk_inv (threshold : spec_float) (l : list Tensor) (h : Heap)
    (w : Walk) (h' : Heap) : Prop :=
  (next_tid h <= next_tid h')%positive /\
  grad h' = grad h /\
  n_optimizers h' = n_optimizers h /\
  Forall (fun c => (next_tid h <= tid c < next_tid h')%positive) (w_cpu_params w) /\
  NoDup (tid <$> w_cpu_params w) /\
  origins (w_cpu_copys_map_gpu_param w) (w_cpu_params w)
    = Some <$> assigned true threshold l /\
  w_gpu_params w = assigned false threshold l /\
  w_offloaded_params_numel w = total_numel l /\
  (forall k p, w_cpu_copys_map_gpu_param w !! k = Some p ->
     exists c, c ∈ w_cpu_params w /\ tid c = k) /\
  (forall k c, w_gpu_params_map_cpu_copy w !! k = Some c ->
     c ∈ w_cpu_params w /\
     exists p, p ∈ l /\ w_cpu_copys_map_gpu_param w !! tid c = Some p /\ tid p = k) /\
  (forall p, p ∈ assigned true threshold l ->
     is_Some (w_gpu_params_map_cpu_copy w !! tid p)) /\
  (NoDup (tid <$> l) ->
   forall c p, c ∈ w_cpu_params w ->
     w_cpu_copys_map_gpu_param w !! tid c = Some p ->
     w_gpu_params_map_cpu_copy w !! tid p = Some c).

(** The two outputs of the partitioner as lists of tensors, and the
    device parameter behind each host tensor. *)
Definition host_set (r : SplitResult) : list Tensor :=
  flatten_params (r_cpu_params r).

Definition device_set (r : SplitResult) : list Tensor :=
  flatten_params (r_gpu_params r).

Definition host_origins (r : SplitResult) : list (option Tensor) :=
  origins (r_cpu_copys_map_gpu_param r) (host_set r).

(** [p] is offloaded: one of the host tensors is its shadow. *)
Definition offloaded (r : SplitResult) (p : Tensor) : Prop :=
  Some p ∈ host_origins r.

(** Every input parameter is on exactly one side. *)
Definition exactly_one_side (params : ParamsT) (r : SplitResult) : Prop :=
  forall p, p ∈ flatten_params params ->
    (offloaded r p /\ p ∉ device_set r) \/ (~ offloaded r p /\ p ∈ device_set r).


(** The parameters for which some sub-optimizer holds state, remapped
    to the identity of their device parameter. *)
Definition tracked_keys (s : HDO) : list positive :=
  remap_to_gpu_param (cpu_copys_map_gpu_param s)
    <$> concat ((fun o => fst <$> opt_state o) <$> sub_optimizers s).

(** Every exception [m] can raise satisfies [P]. *)
Definition raises_only {A} (P : Exn -> Prop) (m : M A) : Prop :=
  forall h e h', m h = (inl e, h') -> P e.

(** Not the configuration error of [__init__]. *)
Definition not_overlap_error (e : Exn) : Prop :=
  e <> AssertionError overlap_assert_msg.

(** The host parameters in order, each with the hyperparameters of its
    group (none for a flat list). *)
Definition host_entries (cpu_params : ParamsT)
  : list (Tensor * gmap string PyVal) :=
  match cpu_params with
  | Flat ps => (fun p => (p, ∅)) <$> ps
  | Grouped gs =>
      concat ((fun g => (fun p => (p, g_hypers g)) <$> g_params g) <$> gs)
  end.

(** The body of the loops of [build_cpu_optimizer_list] on one entry. *)
Definition build_entry (cls : OptimizerCls) (kwargs : gmap string PyVal)
    (acc : BuildAcc) (entry : Tensor * gmap string PyVal) : M BuildAcc :=
  build_one cls kwargs
    (fun param => Grouped [{| g_params := [param]; g_hypers := entry.2 |}])
    acc entry.1.

(** The instance built for the single parameter [c] of a group with the
    hyperparameters [hy], as the [i]-th optimizer constructed. *)
Definition single_param_optimizer (cls : OptimizerCls)
    (kwargs : gmap string PyVal) (i : nat) (c : Tensor)
    (hy : gmap string PyVal) : SubOptimizer :=
  {| opt_id := i; opt_cls := cls;
     opt_param_groups :=
       [{| g_params := [c]; g_hypers := hy ∪ (kwargs ∪ cls_defaults cls) |}];
     opt_state := [] |}.

(** The heap after one more optimizer instance has been constructed. *)
Definition bump_optimizers (h : Heap) : Heap :=
  {| next_tid := next_tid h;
     requires_grad := requires_grad h;
     grad := grad h;
     n_optimizers := S (n_optimizers h) |}.

(** [m] returns from the heap [h], and its value and final heap pass
    [check]. *)
Definition returns_with {A} (m : M A) (h : Heap) (check : A -> Heap -> bool)
  : bool :=
  match m h with
  | (inr a, h') => check a h'
  | (inl _, _) => false
  end.

(** [m] raises [e] from the heap [h]. *)
Definition raises_with {A} (m : M A) (h : Heap) (check : Exn -> Heap -> bool)
  : bool :=
  match m h with
  | (inl e, h') => check e h'
  | (inr _, _) => false
  end.

(** The sub-optimizer group [group] after the hyperparameters of the
    unified group [ug] have been written over its own. *)
Definition synced_group (ug group : ParamGroup) : ParamGroup :=
  {| g_params := g_params group;
     g_hypers := delete sub_optimizer_attrs_key (g_hypers ug) ∪ g_hypers group |}.

(** The unified group that governs [group]: the one holding the first
    parameter of [group]. *)
Definition governing_group (unified : list ParamGroup)
    (index : gmap positive (nat * nat)) (group : ParamGroup)
  : option ParamGroup :=
  p ← head (g_params group);
  gp ← index !! tid p;
  unified !! gp.1.

(** Syncing the groups [gs] changes nothing. *)
Definition sync_fixed (unified : list ParamGroup)
    (index : gmap positive (nat * nat)) (gs : list ParamGroup) : Prop :=
  forall acc h,
    foldM (sync_group unified index) acc gs h = (inr (acc ++ gs), h).

(** The host parameter [p] has been staged: its device parameter has a
    gradient and its host gradient buffer exists. *)
Definition staged (c2g : gmap positive Tensor) (bufs : gmap positive Tensor)
    (h : Heap) (p : Tensor) : Prop :=
  exists gpu, c2g !! tid p = Some gpu /\
    is_Some (grad h !! tid gpu) /\ is_Some (bufs !! tid p).

(** No gradient is lost from [h] to [h']. *)
Definition grads_kept (h h' : Heap) : Prop :=
  forall k, is_Some (grad h !! k) -> is_Some (grad h' !! k).

Definition is_AttributeError (e : Exn) : bool :=
  match e with
  | AttributeError => true
  | _ => false
  end.

(** The first host sub-optimizer, its first parameter, and the device
    parameter of which that one is the shadow. *)
Definition first_host_param (s : HDO)
  : option (SubOptimizer * Tensor * Tensor) :=
  o ← head (cpu_optimizers s);
  p ← head (group_params (opt_param_groups o));
  gpu ← cpu_copys_map_gpu_param s !! tid p;
  Some (o, p, gpu).

(** [gpu] has no gradient in [h] and is no shadow. *)
Definition without_grad (s : HDO) (h : Heap) (gpu : Tensor) : bool :=
  bool_decide (grad h !! tid gpu = None)
  && bool_decide (cpu_copys_map_gpu_param s !! tid gpu = None).

(** The parameters held by the sub-optimizers. *)
Definition sub_optimizer_params (s : HDO) : list Tensor :=
  concat ((fun o => group_params (opt_param_groups o)) <$> sub_optimizers s).

(** The device parameter a sub-optimizer parameter stands for: the
    parameter behind a shadow, or the parameter itself. *)
Definition device_identity (c2g : gmap positive Tensor) (q : Tensor) : Tensor :=
  default q (c2g !! tid q).

(** ** Concrete inputs *)

Definition cuda_param (i : positive) (n : N) : Tensor :=
  {| tid := i; numel := n; is_cuda := true; pinned := false |}.

(** A heap in which the identities below 100 are taken by the model. *)
Definition heap0 : Heap :=
  {| next_tid := 100; requires_grad := ∅; grad := ∅; n_optimizers := 0 |}.

(** Four device parameters of 100, 50, 200 and 50 elements. *)
Definition scenario_params : list Tensor :=
  [cuda_param 1 100; cuda_param 2 50; cuda_param 3 200; cuda_param 4 50].


(** An update rule that keeps a momentum buffer for every parameter
    with a gradient, whatever the class. *)
Definition momentum_step (cls : OptimizerCls) (gs : list ParamGroup)
    (gr : gmap positive Tensor) (st : list (positive * gmap string PyVal))
  : list (positive * gmap string PyVal) :=
  foldl (fun acc p =>
           match gr !! tid p with
           | Some g =>
               if bool_decide (tid p ∈ (fst <$> acc)) then acc
               else acc ++ [(tid p, {["momentum_buffer" := VTensor g]})]
           | None => acc
           end) st (group_params gs).

Definition momentum_cls : OptimizerCls :=
  {| cls_name := "SGD";
     cls_defaults := {["lr" := VFloat PyFloat.f0_3]} |}.

Definition scenario_defaults (fraction : spec_float) (overlap multi_streams : bool)
  : Defaults :=
  {| cpu_optimizer_cls := momentum_cls;
     gpu_optimizer_cls := momentum_cls;
     offload_fraction := fraction;
     pin_cpu_grads := true;
     pin_cpu_params := true;
     overlap := overlap;
     multi_streams := multi_streams;
     kwargs := {["lr" := VFloat PyFloat.f0_5]} |}.

(** The scenario constructed, every parameter with a gradient (as after
    a backward pass). *)
Definition scenario_with_grads (d : Defaults) : M HDO :=
  let* s := HybridDeviceOptimizer_init (Flat scenario_params) d in
  let* _ := assign_dummy_grads s in
  ret s.

(** After a [dummy_step] from [s] to [s'] on the scenario: the unified
    state holds a momentum buffer for each of the four parameters; the
    first parameter is in the unified groups and no sub-optimizer holds
    it. *)
Definition dummy_step_check (s s' : HDO) : bool :=
  forallb (fun p =>
             match state s' !! tid p with
             | Some m => bool_decide (is_Some (m !! "momentum_buffer"))
             | None => false
             end) scenario_params
  && bool_decide (cuda_param 1 100 ∈ group_params (param_groups s))
  && bool_decide (tid (cuda_param 1 100) ∉ tid <$> sub_optimizer_params s).

(** The scenario as two parameter groups with a learning rate each. *)
Definition scenario_groups : list ParamGroup :=
  [ {| g_params := [cuda_param 1 100; cuda_param 2 50];
       g_hypers := {["lr" := VFloat PyFloat.f0_3]} |};
    {| g_params := [cuda_param 3 200; cuda_param 4 50];
       g_hypers := {["lr" := VFloat PyFloat.f0_5]} |} ].

(** ** The hooks that are not part of a step *)

(** [param_copy_back_gpu_hook], the post-step hook of every host
    sub-optimizer: the data of each of its parameters is copied to the
    device parameter.  The copy itself changes no attribute that is
    tracked here; the lookup of the device parameter can raise. *)
Definition param_copy_back_gpu_hook (s : HDO) (optimizer : SubOptimizer)
  : M unit :=
  foldM (fun _ param =>
           let* gpu_param := getitem (cpu_copys_map_gpu_param s !! tid param) in
           ret tt)
        tt (group_params (opt_param_groups optimizer)).

(** [d[k] = v] on a dictionary kept in insertion order: the value of an
    existing key is replaced in place, a new key goes to the end. *)
Definition dict_set {V} (d : list (positive * V)) (k : positive) (v : V)
  : list (positive * V) :=
  if bool_decide (k ∈ d.*1)
  then (fun kv : positive * V => if bool_decide (kv.1 = k) then (k, v) else kv) <$> d
  else d ++ [(k, v)].

(** [_sync_hdo_state_to_sub_optimizers]: the loop body for one
    sub-optimizer.  [self.state] is a [defaultdict(dict)], so reading
    the state of a parameter that has none stores an empty dictionary
    for it.  The sub-optimizer and the unified state share the
    dictionaries; their contents at the time of the call are what is
    recorded here. *)
Definition state_to_sub_optimizer (c2g : gmap positive Tensor)
    (acc : gmap positive (gmap string PyVal) * list SubOptimizer)
    (optimizer : SubOptimizer)
  : gmap positive (gmap string PyVal) * list SubOptimizer :=
  let r :=
    foldl (fun (a : gmap positive (gmap string PyVal)
                    * list (positive * gmap string PyVal)) param =>
             let gpu_param := remap_to_gpu_param c2g (tid param) in
             let v := default ∅ (a.1 !! gpu_param) in
             (<[gpu_param := v]> a.1, dict_set a.2 (tid param) v))
          (acc.1, []) (group_params (opt_param_groups optimizer)) in
  (r.1, acc.2 ++ [set_opt_state optimizer r.2]).

Definition _sync_hdo_state_to_sub_optimizers (s : HDO) : HDO :=
  let r := foldl (state_to_sub_optimizer (cpu_copys_map_gpu_param s))
                 (state s, []) (sub_optimizers s) in
  let n := length (cpu_optimizers s) in
  set_state
    (set_sub_optimizers s (take n r.2)
       (match gpu_optimizer s with
        | Some _ => last r.2
        | None => None
        end)
       (cpu_copy_map_grad s) (_cpu_optimizer_map_data_event s))
    r.1.

(** [post_load_state_dict_hook]: the sub-optimizers are built anew from
    the unified groups, then synced. *)
Definition post_load_state_dict_hook (s : HDO) : M HDO :=
  let* s1 := _init_sub_optimizers (defaults s) (param_groups s) (state s)
               (Grouped (param_groups s)) in
  let* s2 := _sync_hdo_param_groups_to_sub_optimizers s1 in
  ret (_sync_hdo_state_to_sub_optimizers s2).

(** ** Vocabulary of the further statements *)

(** The parameters held by the host sub-optimizers. *)
Definition host_optimizer_params (s : HDO) : list Tensor :=
  concat ((fun o => group_params (opt_param_groups o)) <$> cpu_optimizers s).

(** No group is without parameters. *)
Definition nonempty_groups (p : ParamsT) : Prop :=
  match p with
  | Flat _ => True
  | Grouped gs => Forall (fun g => g_params g <> []) gs
  end.

(** What the hyperparameter sync needs of the optimizer: no
    sub-optimizer group is empty; every parameter of a sub-optimizer
    is a unified parameter or the shadow of one, by the
    device-to-host table; every host parameter has its device
    parameter, a unified parameter, in the host-to-device table. *)
Definition sync_ready (s : HDO) : Prop :=
  (forall o, o ∈ sub_optimizers s ->
     Forall (fun g => g_params g <> []) (opt_param_groups o)) /\
  (forall q, q ∈ sub_optimizer_params s ->
     exists p, p ∈ group_params (param_groups s) /\
       tid (remap_to_cpu_copy (gpu_params_map_cpu_copy s) p) = tid q) /\
  (forall c, c ∈ host_optimizer_params s ->
     exists gpu, cpu_copys_map_gpu_param s !! tid c = Some gpu /\
                 gpu ∈ group_params (param_groups s)).

(** The list of the parameter lists of the groups of each
    sub-optimizer. *)
Definition group_shapes (os : list SubOptimizer) : list (list (list Tensor)) :=
  (fun o => g_params <$> opt_param_groups o) <$> os.

(** [cpu_optimizer.step()] with its registered post-step hook. *)
Definition cpu_optimizer_step (rule : StepRule) (s : HDO) (o : SubOptimizer)
  : M SubOptimizer :=
  let* o' := opt_step rule o in
  let* _ := param_copy_back_gpu_hook s o' in
  ret o'.

(** [step] with the post-step hooks of the host sub-optimizers. *)
Definition step_with_copy_back (rule : StepRule) (s : HDO) : M HDO :=
  let* gpu :=
    match gpu_optimizer s with
    | Some o => let* o' := opt_step rule o in ret (Some o')
    | None => ret None
    end in
  let* acc :=
    foldM (fun (acc : list SubOptimizer * gmap nat Event) cpu_optimizer =>
             let evs := delete (opt_id cpu_optimizer) acc.2 in
             let* o' := cpu_optimizer_step rule s cpu_optimizer in
             ret (acc.1 ++ [o'], evs))
          ([], _cpu_optimizer_map_data_event s) (cpu_optimizers s) in
  ret (set_sub_optimizers s acc.1 gpu (cpu_copy_map_grad s) acc.2).

(** Every device parameter behind a host parameter has a gradient. *)
Definition grads_present (s : HDO) (h : Heap) : Prop :=
  forall c gpu, c ∈ host_optimizer_params s ->
    cpu_copys_map_gpu_param s !! tid c = Some gpu ->
    is_Some (grad h !! tid gpu).

(** No device parameter is itself a shadow. *)
Definition shadows_apart (s : HDO) : Prop :=
  forall k gpu, cpu_copys_map_gpu_param s !! k = Some gpu ->
    cpu_copys_map_gpu_param s !! tid gpu = None.

(** Every sub-optimizer group has a governing unified group. *)
Definition governed (s : HDO) : Prop :=
  forall o, o ∈ sub_optimizers s ->
    Forall (fun g =>
              is_Some (governing_group (param_groups s)
                         (build_param_index (gpu_params_map_cpu_copy s)
                            (param_groups s)) g))
           (opt_param_groups o).

(** Whether no parameter of a host sub-optimizer is the tensor [k]. *)
Definition outside_host_optimizers (k : positive) (s : HDO) : bool :=
  bool_decide (k ∉ tid <$> host_optimizer_params s).




(** The unified parameters of [s] are all different, were allocated
    before and have no gradient in [h]; and building the sub-optimizers
    anew from the unified groups gives a host sub-optimizer a
    parameter. *)
Definition post_load_check (s : HDO) (h : Heap) : bool :=
  bool_decide (NoDup (tid <$> group_params (param_groups s)))
  && forallb (fun p => bool_decide (tid p < next_tid h)%positive
                       && bool_decide (grad h !! tid p = None))
             (group_params (param_groups s))
  && match _init_sub_optimizers (defaults s) (param_groups s) (state s)
             (Grouped (param_groups s)) h with
     | (inr s1, _) => negb (Nat.eqb (length (host_optimizer_params s1)) 0)
     | (inl _, _) => false
     end.

(** * Properties *)

(** ** Floating point: the integers below [2^53] are exact *)

Section float_lemmas.
Import PyFloat.











Lemma mul_zero_r (x : spec_float) (s : bool) :
  (exists s', x = S754_zero s') \/ (exists s' m e, x = S754_finite s' m e) ->
  exists s'', mul x (S754_zero s) = S754_zero s''.
Proof.
  intros [[s' ->]|(s' & m & e & ->)]; simpl; eauto.
Qed.

End float_lemmas.

(** ** The state-and-exception monad *)

Lemma returns_with_spec {A} (m : M A) (h : Heap) (check : A -> Heap -> bool) :
  returns_with m h check = true ->
  exists a h', m h = (inr a, h') /\ check a h' = true.
Proof.
  unfold returns_with. destruct (m h) as [[e|a] h']; [done|]. eauto.
Qed.

Lemma raises_with_spec {A} (m : M A) (h : Heap) (check : Exn -> Heap -> bool) :
  raises_with m h check = true ->
  exists e h', m h = (inl e, h') /\ check e h' = true.
Proof.
  unfold raises_with. destruct (m h) as [[e|a] h']; [|done]. eauto.
Qed.

Lemma bind_inr {A B} (m : M A) (k : A -> M B) (h h' : Heap) (b : B) :
  bind m k h = (inr b, h') ->
  exists a h1, m h = (inr a, h1) /\ k a h1 = (inr b, h').
Proof.
  unfold bind. destruct (m h) as [[e|a] h1]; [done|]. eauto.
Qed.

Lemma bind_run {A B} (m : M A) (k : A -> M B) (h h1 : Heap) (a : A) :
  m h = (inr a, h1) -> bind m k h = k a h1.
Proof. unfold bind. by intros ->. Qed.

Lemma bind_raise {A B} (m : M A) (k : A -> M B) (h h1 : Heap) (e : Exn) :
  m h = (inl e, h1) -> bind m k h = (inl e, h1).
Proof. unfold bind. by intros ->. Qed.

Lemma foldM_app {A B} (f : B -> A -> M B) (b : B) (l1 l2 : list A) (h : Heap) :
  foldM f b (l1 ++ l2) h = bind (foldM f b l1) (fun b' => foldM f b' l2) h.
Proof.
  revert b h. induction l1 as [|a l1 IH]; intros b h; simpl.
  - done.
  - unfold bind. simpl. destruct (f b a h) as [[e|b'] h1]; [done|].
    rewrite IH. done.
Qed.

Lemma foldM_snoc_inr {A B} (f : B -> A -> M B) (b b' : B) (l : list A) (a : A)
    (h h' : Heap) :
  foldM f b (l ++ [a]) h = (inr b', h') ->
  exists b1 h1, foldM f b l h = (inr b1, h1) /\ f b1 a h1 = (inr b', h').
Proof.
  rewrite foldM_app. intros (b1 & h1 & H1 & H2)%bind_inr.
  exists b1, h1. split; [done|].
  simpl in H2. apply bind_inr in H2 as (b2 & h2 & H2 & [= -> ->]). done.
Qed.

(** Peel the binds of a successful run. *)
Ltac inv_bind H :=
  repeat match type of H with
    | bind _ _ _ = (inr _, _) =>
        let a := fresh "a" in
        let h := fresh "h" in
        let H1 := fresh "Hrun" in
        apply bind_inr in H as (a & h & H1 & H)
    end.

(** ** The prefix-sum rule *)

Lemma filter_ext_in {A} (P Q : A -> Prop) `{!forall x, Decision (P x)}
    `{!forall x, Decision (Q x)} (l : list A) :
  (forall x, x ∈ l -> (P x <-> Q x)) -> filter P l = filter Q l.
Proof.
  induction l as [|a l IH]; intros Hext; [done|].
  rewrite !filter_cons.
  rewrite IH by (intros x Hx; apply Hext; by right).
  pose proof (Hext a ltac:(left)) as Ha.
  destruct (decide (P a)), (decide (Q a)); tauto || done.
Qed.

Lemma total_numel_snoc (l : list Tensor) (p : Tensor) :
  total_numel (l ++ [p]) = total_numel l + Z.of_N (numel p).
Proof. unfold total_numel. by rewrite foldl_app. Qed.




Lemma host_at_app (thr : spec_float) (l l' : list Tensor) (i : nat) :
  (i < length l)%nat -> host_at thr (l ++ l') i = host_at thr l i.
Proof. intros Hi. unfold host_at. rewrite take_app_le by lia. done. Qed.

Lemma host_at_last (thr : spec_float) (l : list Tensor) (p : Tensor) :
  host_at thr (l ++ [p]) (length l)
  = PyFloat.int_le (total_numel l + Z.of_N (numel p)) thr.
Proof.
  unfold host_at. rewrite take_ge by (rewrite length_app; simpl; lia).
  by rewrite total_numel_snoc.
Qed.

Lemma assigned_snoc (side : bool) (thr : spec_float) (l : list Tensor) (p : Tensor) :
  assigned side thr (l ++ [p])
  = assigned side thr l
    ++ (if bool_decide (PyFloat.int_le (total_numel l + Z.of_N (numel p)) thr = side)
        then [p] else []).
Proof.
  unfold assigned. rewrite imap_app, filter_app, fmap_app. f_equal.
  - f_equal. apply filter_ext_in.
    intros [i q] Hin. simpl.
    apply elem_of_lookup_imap in Hin as (j & y & [= -> ->] & Hj).
    apply lookup_lt_Some in Hj. rewrite host_at_app by done. done.
  - simpl. rewrite Nat.add_0_r. rewrite filter_cons, filter_nil. simpl.
    rewrite host_at_last.
    case_bool_decide; case_decide; done.
Qed.

Lemma assigned_nil (side : bool) (thr : spec_float) : assigned side thr [] = [].
Proof. done. Qed.

Lemma assigned_subseteq (side : bool) (thr : spec_float) (l : list Tensor) (p : Tensor) :
  p ∈ assigned side thr l -> p ∈ l.
Proof.
  unfold assigned. intros ([i q] & -> & Hin)%list_elem_of_fmap.
  apply list_elem_of_filter in Hin as [_ Hin].
  apply elem_of_lookup_imap in Hin as (j & y & [= -> ->] & Hj).
  simpl. by eapply list_elem_of_lookup_2.
Qed.

(** The two sides together are the input, rearranged. *)
Lemma assigned_perm (thr : spec_float) (l : list Tensor) :
  assigned true thr l ++ assigned false thr l ≡ₚ l.
Proof.
  induction l as [|p l IH] using rev_ind; [done|].
  rewrite !assigned_snoc.
  destruct (PyFloat.int_le _ _); simpl; rewrite ?app_nil_r.
  - rewrite <- IH at 3. rewrite <- !app_assoc. f_equiv. apply Permutation_app_comm.
  - rewrite <- IH at 3. by rewrite <- !app_assoc.
Qed.

Lemma assigned_snoc_same (side : bool) (thr : spec_float) (l : list Tensor) (p : Tensor) :
  PyFloat.int_le (total_numel l + Z.of_N (numel p)) thr = side ->
  assigned side thr (l ++ [p]) = assigned side thr l ++ [p].
Proof. intros H. rewrite assigned_snoc. by rewrite bool_decide_eq_true_2. Qed.

Lemma assigned_snoc_other (side : bool) (thr : spec_float) (l : list Tensor) (p : Tensor) :
  PyFloat.int_le (total_numel l + Z.of_N (numel p)) thr = negb side ->
  assigned side thr (l ++ [p]) = assigned side thr l.
Proof.
  intros H. rewrite assigned_snoc, bool_decide_eq_false_2, app_nil_r; [done|].
  rewrite H. by destruct side.
Qed.

(** ** The walk over the parameters *)

(** A shadow is a new object: its identity is above every identity
    handed out before. *)
Lemma make_cpu_copy_run (pin : bool) (p : Tensor) (h : Heap) :
  exists c h',
    make_cpu_copy pin p h = (inr c, h') /\
    (next_tid h <= tid c)%positive /\ (tid c < next_tid h')%positive /\
    numel c = numel p /\
    grad h' = grad h /\ n_optimizers h' = n_optimizers h /\
    requires_grad h' !! tid c = Some true.
Proof.
  unfold make_cpu_copy, detach, to_cpu, pin_memory, new_tensor, bind, alloc,
    set_requires_grad, ret.
  destruct p as [i n cuda pn]; simpl.
  destruct cuda, pin, pn; simpl; eexists _, _; (split; [reflexivity|]); simpl;
    rewrite ?lookup_insert_eq; repeat split; lia.
Qed.

Lemma visit_inr (pin : bool) (thr : spec_float) (w w' : Walk) (p : Tensor)
    (h h' : Heap) :
  visit pin thr w p h = (inr w', h') ->
  (PyFloat.int_le (w_offloaded_params_numel w + Z.of_N (numel p)) thr = true /\
   is_cuda p = true /\
   exists c, make_cpu_copy pin p h = (inr c, h') /\
     w' = {| w_cpu_params := w_cpu_params w ++ [c];
             w_gpu_params := w_gpu_params w;
             w_gpu_params_map_cpu_copy := <[tid p := c]> (w_gpu_params_map_cpu_copy w);
             w_cpu_copys_map_gpu_param := <[tid c := p]> (w_cpu_copys_map_gpu_param w);
             w_offloaded_params_numel :=
               w_offloaded_params_numel w + Z.of_N (numel p) |}) \/
  (PyFloat.int_le (w_offloaded_params_numel w + Z.of_N (numel p)) thr = false /\
   h' = h /\
   w' = {| w_cpu_params := w_cpu_params w;
           w_gpu_params := w_gpu_params w ++ [p];
           w_gpu_params_map_cpu_copy := w_gpu_params_map_cpu_copy w;
           w_cpu_copys_map_gpu_param := w_cpu_copys_map_gpu_param w;
           w_offloaded_params_numel :=
             w_offloaded_params_numel w + Z.of_N (numel p) |}).
Proof.
  unfold visit. destruct (PyFloat.int_le _ _) eqn:Hle.
  - intros H. left. split; [done|].
    destruct (is_cuda p) eqn:Hc; [|done]. split; [done|].
    simpl in H. inv_bind H. injection H as <- <-.
    injection Hrun as <- <-. eauto.
  - intros [= <- <-]. right. done.
Qed.

Lemma NoDup_tid_snoc (l : list Tensor) (p : Tensor) :
  NoDup (tid <$> l ++ [p]) ->
  NoDup (tid <$> l) /\ forall q, q ∈ l -> tid q <> tid p.
Proof.
  rewrite fmap_app. intros (Hl & Hdisj & _)%NoDup_app. split; [done|].
  intros q Hq Heq. apply (Hdisj (tid q)).
  - apply list_elem_of_fmap. eauto.
  - rewrite Heq. simpl. left.
Qed.

Lemma walk_nil (pin : bool) (thr : spec_float) (h : Heap) :
  walk pin thr [] h = (inr walk_init, h).
Proof. done. Qed.

Lemma walk_snoc_inr (pin : bool) (thr : spec_float) (l : list Tensor) (p : Tensor)
    (h h' : Heap) (w : Walk) :
  walk pin thr (l ++ [p]) h = (inr w, h') ->
  exists w1 h1, walk pin thr l h = (inr w1, h1) /\ visit pin thr w1 p h1 = (inr w, h').
Proof. apply foldM_snoc_inr. Qed.

(** The invariant holds after any successful walk. *)
Lemma walk_spec (pin : bool) (thr : spec_float) (l : list Tensor) (h h' : Heap)
    (w : Walk) :
  walk pin thr l h = (inr w, h') -> walk_inv thr l h w h'.
Proof.
  revert w h'. induction l as [|p l IH] using rev_ind; intros w h' H.
  - rewrite walk_nil in H. injection H as <- <-.
    unfold walk_inv; simpl. split_and!; try done.
    + constructor.
    + intros p Hp. by apply elem_of_nil in Hp.
  - apply walk_snoc_inr in H as (w1 & h1 & H1 & Hv).
    destruct (IH _ _ H1) as (I1 & I2 & I3 & I4 & I5 & I6 & I7 & I8 & I9 & I10 & I11 & I12).
    apply visit_inr in Hv as [(Hle & Hcuda & c & Hcopy & ->)|(Hle & -> & ->)];
      rewrite I8 in Hle; unfold walk_inv; simpl.

    + destruct (make_cpu_copy_run pin p h1)
        as (c' & h'' & Hrun & Hlo & Hhi & Hnum & Hgrad & Hopt & _).
      rewrite Hrun in Hcopy. injection Hcopy as -> ->.
      assert (Hold : forall c0, c0 ∈ w_cpu_params w1 -> tid c0 <> tid c).
      { intros c0 Hc0. rewrite Forall_forall in I4. specialize (I4 _ Hc0). lia. }
      split_and!.
      * lia.
      * congruence.
      * congruence.
      * apply Forall_app. split.
        -- eapply Forall_impl; [exact I4|]. simpl. intros; lia.
        -- apply Forall_singleton. lia.
      * rewrite fmap_app. apply NoDup_app. repeat split; [done| |].
        -- intros k (c0 & -> & Hc0)%list_elem_of_fmap Hk.
           apply list_elem_of_singleton in Hk. by apply (Hold c0).
        -- apply NoDup_singleton.
      * rewrite assigned_snoc_same by done.
        unfold origins in *. rewrite !fmap_app. simpl. rewrite lookup_insert_eq.
        f_equal. rewrite <- I6. apply list_fmap_ext.
        intros i c0 Hi. apply lookup_insert_ne. symmetry. apply Hold.
        by eapply list_elem_of_lookup_2.
      * rewrite assigned_snoc_other by done. done.
      * rewrite total_numel_snoc. lia.
      * intros k p0 Hk. destruct (decide (tid c = k)) as [<-|Hne].
        -- exists c. split; [|done]. apply elem_of_app. right. left.
        -- rewrite lookup_insert_ne in Hk by done.
           destruct (I9 _ _ Hk) as (c0 & Hc0 & <-). exists c0.
           split; [|done]. apply elem_of_app. by left.
      * intros k c0 H. destruct (decide (tid p = k)) as [<-|Hne].
        -- rewrite lookup_insert_eq in H. injection H as <-. split.
           { apply elem_of_app. right. left. }
           exists p. rewrite lookup_insert_eq. split_and!; [|done|done].
           apply elem_of_app. right. left.
        -- rewrite lookup_insert_ne in H by done.
           destruct (I10 _ _ H) as (Hc0 & p0 & Hp0 & Hlk & Htid). split.
           { apply elem_of_app. by left. }
           exists p0. rewrite lookup_insert_ne by (symmetry; by apply Hold).
           split_and!; [|done|done]. apply elem_of_app. by left.
      * intros p0 Hp0. rewrite assigned_snoc_same in Hp0 by done.
        destruct (decide (tid p = tid p0)) as [Heq|Hne].
        -- rewrite Heq, lookup_insert_eq. eauto.
        -- rewrite lookup_insert_ne by done. apply I11.
           apply elem_of_app in Hp0 as [Hp0|Hp0]; [done|].
           apply list_elem_of_singleton in Hp0. congruence.
      * intros [Hnd Hfresh]%NoDup_tid_snoc c0 p0 Hc0 Hlk.
        destruct (decide (tid c = tid c0)) as [Heq|Hne].
        -- apply elem_of_app in Hc0 as [Hc0|Hc0].
           { exfalso. by apply (Hold c0). }
           apply list_elem_of_singleton in Hc0 as ->.
           rewrite lookup_insert_eq in Hlk. injection Hlk as <-.
           by rewrite lookup_insert_eq.
        -- rewrite lookup_insert_ne in Hlk by done.
           apply elem_of_app in Hc0 as [Hc0|Hc0];
             [|apply list_elem_of_singleton in Hc0; congruence].
           pose proof (I12 Hnd _ _ Hc0 Hlk) as Hg.
           destruct (I10 _ _ Hg) as (_ & p1 & Hp1 & Hlk1 & Htid).
           assert (p1 = p0) as -> by congruence.
           rewrite lookup_insert_ne; [done|].
           intros Heq. by apply (Hfresh p0).
    + split_and!; try done.
      * rewrite assigned_snoc_other by done. done.
      * rewrite assigned_snoc_same by done. by f_equal.
      * rewrite total_numel_snoc. lia.
      * intros k c0 H. destruct (I10 _ _ H) as (Hc0 & p0 & Hp0 & Hlk & Htid).
        split; [done|].
        exists p0. split_and!; [|done|done]. apply elem_of_app. by left.
      * intros p0 Hp0. rewrite assigned_snoc_other in Hp0 by done. by apply I11.
      * intros [Hnd _]%NoDup_tid_snoc. by apply I12.
Qed.

(** ** Regrouping *)

Lemma group_params_snoc (gs : list ParamGroup) (g : ParamGroup) :
  group_params (gs ++ [g]) = group_params gs ++ g_params g.
Proof. unfold group_params. by rewrite foldl_app. Qed.

Lemma group_params_cons (g : ParamGroup) (gs : list ParamGroup) :
  group_params (g :: gs) = g_params g ++ group_params gs.
Proof.
  revert g. induction gs as [|g' gs IH] using rev_ind; intros g.
  - unfold group_params. simpl. by rewrite app_nil_r.
  - rewrite app_comm_cons, !group_params_snoc, IH. by rewrite app_assoc.
Qed.

Lemma group_params_singleton (g : ParamGroup) : group_params [g] = g_params g.
Proof. done. Qed.

Lemma regroup_params_spec (g2c : gmap positive Tensor) (ps : list Tensor) :
  regroup_params g2c ps
  = (omap (fun p => g2c !! tid p) ps, filter (fun p => g2c !! tid p = None) ps).
Proof.
  unfold regroup_params.
  induction ps as [|p ps IH] using rev_ind; [done|].
  rewrite foldl_app, IH. simpl. rewrite omap_app, filter_app. simpl.
  rewrite filter_cons, filter_nil.
  destruct (g2c !! tid p) eqn:Hp; simpl.
  - by rewrite app_nil_r.
  - by rewrite app_nil_r.
Qed.

Lemma regroup_snoc (g2c : gmap positive Tensor) (gs : list ParamGroup) (g : ParamGroup) :
  regroup g2c (gs ++ [g]) = regroup_step g2c (regroup g2c gs) g.
Proof. unfold regroup. by rewrite foldl_app. Qed.

(** Regrouping keeps the order of the parameters: the host groups hold
    the shadows of the mapped parameters, the device groups the others. *)
Lemma regroup_spec (g2c : gmap positive Tensor) (gs : list ParamGroup) :
  group_params (regroup g2c gs).1 = omap (fun p => g2c !! tid p) (group_params gs) /\
  group_params (regroup g2c gs).2
  = filter (fun p => g2c !! tid p = None) (group_params gs).
Proof.
  induction gs as [|g gs [IH1 IH2]] using rev_ind; [done|].
  rewrite regroup_snoc, group_params_snoc, omap_app, filter_app.
  unfold regroup_step. rewrite regroup_params_spec. simpl.
  split.
  - destruct (omap _ (g_params g)) as [|c cs] eqn:Hc; simpl.
    + by rewrite IH1, app_nil_r.
    + by rewrite group_params_snoc, IH1.
  - destruct (filter _ (g_params g)) as [|c cs] eqn:Hc; simpl.
    + by rewrite IH2, app_nil_r.
    + by rewrite group_params_snoc, IH2.
Qed.

(** Every group handed to a sub-optimizer has a parameter. *)
Lemma regroup_nonempty (g2c : gmap positive Tensor) (gs : list ParamGroup) :
  Forall (fun g => g_params g <> []) (regroup g2c gs).1 /\
  Forall (fun g => g_params g <> []) (regroup g2c gs).2.
Proof.
  induction gs as [|g gs [IH1 IH2]] using rev_ind; [by split; constructor|].
  rewrite regroup_snoc. unfold regroup_step. simpl. split.
  - destruct (Nat.ltb_spec 0 (length (regroup_params g2c (g_params g)).1)); [|done].
    apply Forall_app. split; [done|]. apply Forall_singleton. simpl.
    intros Heq. rewrite Heq in H. simpl in H. lia.
  - destruct (Nat.ltb_spec 0 (length (regroup_params g2c (g_params g)).2)); [|done].
    apply Forall_app. split; [done|]. apply Forall_singleton. simpl.
    intros Heq. rewrite Heq in H. simpl in H. lia.
Qed.

(** ** The partitioner as a whole *)

Lemma split_inr (pin : bool) (params : ParamsT) (f : spec_float) (h h' : Heap)
    (r : SplitResult) :
  _split_parameters_updated_on_the_cpu_and_gpu pin params f h = (inr r, h') ->
  (params_len params = 0%nat /\ h' = h /\
   r = {| r_cpu_params := Flat []; r_gpu_params := Flat [];
          r_gpu_params_map_cpu_copy := ∅; r_cpu_copys_map_gpu_param := ∅ |}) \/
  (params_len params <> 0%nat /\
   exists thr w,
     offload_threshold (total_numel (flatten_params params)) f = inr thr /\
     walk pin thr (flatten_params params) h = (inr w, h') /\
     r_gpu_params_map_cpu_copy r = w_gpu_params_map_cpu_copy w /\
     r_cpu_copys_map_gpu_param r = w_cpu_copys_map_gpu_param w /\
     match params with
     | Flat _ =>
         r_cpu_params r = Flat (w_cpu_params w) /\
         r_gpu_params r = Flat (w_gpu_params w)
     | Grouped gs =>
         r_cpu_params r = Grouped (regroup (w_gpu_params_map_cpu_copy w) gs).1 /\
         r_gpu_params r = Grouped (regroup (w_gpu_params_map_cpu_copy w) gs).2
     end).
Proof.
  unfold _split_parameters_updated_on_the_cpu_and_gpu.
  destruct (Nat.eqb_spec (params_len params) 0) as [Hlen|Hlen].
  - intros [= <- <-]. by left.
  - intros H. right. split; [done|].
    inv_bind H.
    destruct (offload_threshold _ f) as [e|thr] eqn:Hthr; [done|].
    injection Hrun as <- <-.
    exists thr, a0. split; [done|].
    destruct params as [ps|gs]; injection H as <- <-; simpl; done.
Qed.

Lemma NoDup_tid (l : list Tensor) : NoDup (tid <$> l) -> NoDup l.
Proof. apply NoDup_fmap_1. Qed.

Lemma NoDup_tid_inj (l : list Tensor) (p q : Tensor) :
  NoDup (tid <$> l) -> p ∈ l -> q ∈ l -> tid p = tid q -> p = q.
Proof.
  intros Hnd (i & Hi)%list_elem_of_lookup_1 (j & Hj)%list_elem_of_lookup_1 Heq.
  assert (i = j) as ->; [|congruence].
  eapply NoDup_lookup; [exact Hnd| |]; rewrite list_lookup_fmap.
  - by rewrite Hi.
  - rewrite Hj. simpl. by rewrite Heq.
Qed.

(** Consequences of the invariant. *)
Lemma walk_inv_origin (thr : spec_float) (l : list Tensor) (h h' : Heap) (w : Walk)
    (c p : Tensor) :
  walk_inv thr l h w h' ->
  c ∈ w_cpu_params w -> w_cpu_copys_map_gpu_param w !! tid c = Some p ->
  p ∈ assigned true thr l.
Proof.
  intros (_ & _ & _ & _ & _ & I6 & _) (i & Hi)%list_elem_of_lookup_1 Hlk.
  assert (Hi' : origins (w_cpu_copys_map_gpu_param w) (w_cpu_params w) !! i
                = Some (Some p)).
  { unfold origins. rewrite list_lookup_fmap, Hi. simpl. by rewrite Hlk. }
  rewrite I6, list_lookup_fmap in Hi'.
  destruct (assigned true thr l !! i) as [q|] eqn:Hq; [|done].
  injection Hi' as ->. by eapply list_elem_of_lookup_2.
Qed.

Lemma walk_inv_mapped (thr : spec_float) (l : list Tensor) (h h' : Heap) (w : Walk)
    (p c : Tensor) :
  walk_inv thr l h w h' -> NoDup (tid <$> l) -> p ∈ l ->
  w_gpu_params_map_cpu_copy w !! tid p = Some c ->
  w_cpu_copys_map_gpu_param w !! tid c = Some p /\ p ∈ assigned true thr l.
Proof.
  intros Hinv Hnd Hp Hg.
  pose proof Hinv as (_ & _ & _ & _ & _ & _ & _ & _ & _ & I10 & _).
  destruct (I10 _ _ Hg) as (Hc & p1 & Hp1 & Hlk & Htid).
  assert (p1 = p) as -> by (by eapply NoDup_tid_inj).
  split; [done|]. by eapply walk_inv_origin.
Qed.

Lemma assigned_disjoint (thr : spec_float) (l : list Tensor) (p : Tensor) :
  NoDup l -> p ∈ assigned true thr l -> p ∈ assigned false thr l -> False.
Proof.
  intros Hnd Ht Hf.
  rewrite <- (assigned_perm thr l) in Hnd.
  apply NoDup_app in Hnd as (_ & Hdisj & _). by apply (Hdisj p).
Qed.

Lemma filter_assigned (side : bool) (thr : spec_float) (l : list Tensor) :
  NoDup l ->
  filter (fun p => p ∈ assigned side thr l) l = assigned side thr l.
Proof.
  induction l as [|p l IH] using rev_ind; intros Hnd; [done|].
  apply NoDup_app in Hnd as (Hl & Hdisj & _).
  assert (Hp : p ∉ l).
  { intros Hin. apply (Hdisj p Hin). left. }
  rewrite filter_app.
  rewrite assigned_snoc.
  set (X := if bool_decide _ then [p] else []).
  assert (HX : forall x, x ∈ X -> x = p).
  { intros x. unfold X. case_bool_decide.
    - by intros ->%list_elem_of_singleton.
    - by intros ?%elem_of_nil. }
  f_equal.
  - transitivity (filter (fun p => p ∈ assigned side thr l) l); [|by apply IH].
    apply filter_ext_in. intros x Hx.
    rewrite elem_of_app. split; [|by left].
    intros [?|HxX]; [done|]. apply HX in HxX as ->. done.
  - rewrite filter_cons, filter_nil.
    destruct (decide (p ∈ assigned side thr l ++ X)) as [Hin|Hnin].
    + apply elem_of_app in Hin as [Hin|Hin].
      * by apply assigned_subseteq in Hin.
      * unfold X in *. case_bool_decide; [done|]. by apply elem_of_nil in Hin.
    + unfold X in *. case_bool_decide; [|done].
      exfalso. apply Hnin. apply elem_of_app. right. left.
Qed.

Lemma origins_omap_filter (c2g g2c : gmap positive Tensor) (P : Tensor -> Prop)
    `{!forall p, Decision (P p)} (l : list Tensor) :
  (forall p, p ∈ l ->
     match g2c !! tid p with
     | Some c => c2g !! tid c = Some p /\ P p
     | None => ~ P p
     end) ->
  origins c2g (omap (fun p => g2c !! tid p) l) = Some <$> filter P l.
Proof.
  induction l as [|p l IH]; intros Hl; [done|].
  rewrite filter_cons. simpl.
  pose proof (Hl p ltac:(left)) as Hp.
  assert (IH' := IH (fun q Hq => Hl q ltac:(by right))).
  destruct (g2c !! tid p) as [c|] eqn:Hg.
  - destruct Hp as [Hc HP]. rewrite decide_True by done.
    unfold origins in *. rewrite !fmap_cons, Hc. f_equal. exact IH'.
  - rewrite decide_False by done. exact IH'.
Qed.

Lemma offload_threshold_zero (f : spec_float) :
  offload_threshold 0 f = inr (PyFloat.mul (S754_zero false) f).
Proof. done. Qed.

(** The outputs of the partitioner follow the prefix-sum rule. *)
Lemma split_sides (pin : bool) (params : ParamsT) (f : spec_float) (h h' : Heap)
    (r : SplitResult) :
  _split_parameters_updated_on_the_cpu_and_gpu pin params f h = (inr r, h') ->
  (forall gs, params = Grouped gs -> NoDup (tid <$> group_params gs)) ->
  exists thr,
    offload_threshold (total_numel (flatten_params params)) f = inr thr /\
    host_origins r = Some <$> assigned true thr (flatten_params params) /\
    device_set r = assigned false thr (flatten_params params).
Proof.
  intros [(Hlen & -> & ->)|(Hlen & thr & w & Hthr & Hwalk & Hg & Hc & Hr)]%split_inr Hnd.
  - assert (flatten_params params = []) as ->.
    { destruct params as [[|? ?]|[|? ?]]; done. }
    eexists. split; [apply offload_threshold_zero|]. done.
  - exists thr. split; [done|].
    pose proof (walk_spec _ _ _ _ _ _ Hwalk) as Hinv.
    pose proof Hinv as (_ & _ & _ & _ & _ & I6 & I7 & _ & _ & _ & I11 & _).
    unfold host_origins, device_set, host_set. rewrite Hc.
    destruct params as [ps|gs]; destruct Hr as [-> ->]; simpl in *; [done|].
    specialize (Hnd gs eq_refl).
    destruct (regroup_spec (w_gpu_params_map_cpu_copy w) gs) as [-> ->].
    split.
    + rewrite <- (filter_assigned true thr (group_params gs)) by by apply NoDup_tid.
      apply origins_omap_filter. intros p Hp.
      destruct (w_gpu_params_map_cpu_copy w !! tid p) as [c|] eqn:Hgp.
      * by eapply walk_inv_mapped.
      * intros Hin. apply I11 in Hin. rewrite Hgp in Hin. by destruct Hin.
    + rewrite <- (filter_assigned false thr (group_params gs)) by by apply NoDup_tid.
      apply filter_ext_in. intros p Hp. split.
      * intros Hnone.
        pose proof (assigned_perm thr (group_params gs)) as Hperm.
        rewrite <- Hperm in Hp. apply elem_of_app in Hp as [Hp|Hp]; [|done].
        apply I11 in Hp. rewrite Hnone in Hp. by destruct Hp.
      * intros Hf.
        destruct (w_gpu_params_map_cpu_copy w !! tid p) as [c|] eqn:Hgp; [|done].
        exfalso. eapply assigned_disjoint; [by apply NoDup_tid| |exact Hf].
        by eapply walk_inv_mapped.
Qed.





(** The walk completes when every parameter the rule sends to the host
    is device-resident. *)
Lemma walk_total (pin : bool) (thr : spec_float) (l : list Tensor) (h : Heap) :
  (forall i p, l !! i = Some p -> host_at thr l i = true -> is_cuda p = true) ->
  exists w h', walk pin thr l h = (inr w, h').
Proof.
  induction l as [|p l IH] using rev_ind; intros Hcuda.
  - eexists _, _. apply walk_nil.
  - destruct IH as (w & h1 & Hw).
    { intros i q Hi Hat. apply (Hcuda i q).
      - by apply lookup_app_l_Some.
      - rewrite host_at_app; [done|]. by eapply lookup_lt_Some. }
    pose proof (walk_spec _ _ _ _ _ _ Hw) as (_ & _ & _ & _ & _ & _ & _ & I8 & _).
    unfold walk. rewrite foldM_app. erewrite bind_run by exact Hw.
    simpl. unfold visit. rewrite I8.
    destruct (PyFloat.int_le _ _) eqn:Hle.
    + rewrite (Hcuda (length l) p); cycle 1.
      { by rewrite lookup_app_r, Nat.sub_diag. }
      { by rewrite host_at_last. }
      destruct (make_cpu_copy_run pin p h1) as (c & h2 & Hrun & _).
      simpl. unfold bind at 1. unfold bind at 1. simpl.
      unfold bind at 1. rewrite Hrun. simpl. eauto.
    + simpl. eauto.
Qed.

(** ** Claims on the partitioner *)

(** C1.  Whenever the partitioning of an input without
    repeated parameters completes, the device parameters behind the
    host shadows together with the device set are a rearrangement of
    the input: every input parameter is on exactly one side, none is
    dropped, and neither side holds a parameter twice.  This holds for
    flat and for grouped input and for every offload fraction. *)
Theorem C1_partition_exactly_one (pin : bool) (params : ParamsT) (f : spec_float)
    (h h' : Heap) (r : SplitResult) :
  _split_parameters_updated_on_the_cpu_and_gpu pin params f h = (inr r, h') ->
  NoDup (tid <$> flatten_params params) ->
  (exists origs,
     host_origins r = Some <$> origs /\
     origs ++ device_set r ≡ₚ flatten_params params) /\
  exactly_one_side params r /\
  NoDup (tid <$> host_set r) /\
  NoDup (device_set r).
Proof.
  intros Hrun Hnd.
  destruct (split_sides _ _ _ _ _ _ Hrun) as (thr & _ & Hhost & Hdev).
  { by intros gs ->. }
  pose proof (assigned_perm thr (flatten_params params)) as Hperm.
  assert (Hnd' : NoDup (assigned true thr (flatten_params params)
                        ++ assigned false thr (flatten_params params))).
  { rewrite Hperm. by apply NoDup_tid. }
  apply NoDup_app in Hnd' as (Hnt & Hdisj & Hnf).
  split_and!.
  - exists (assigned true thr (flatten_params params)). by rewrite Hdev.
  - intros p Hp. unfold offloaded. rewrite Hhost, Hdev.
    rewrite <- Hperm in Hp. apply elem_of_app in Hp as [Hp|Hp].
    + left. split; [|by apply Hdisj].
      apply list_elem_of_fmap. eauto.
    + right. split; [|done].
      intros (q & [= <-] & Hq)%list_elem_of_fmap. by apply (Hdisj p).
  - unfold host_origins, origins in Hhost.
    assert (Hnd2 : NoDup ((fun c => r_cpu_copys_map_gpu_param r !! tid c)
                            <$> host_set r)).
    { rewrite Hhost. apply NoDup_fmap_2; [|done]. by intros ? ? [= ->]. }
    change ((fun c => r_cpu_copys_map_gpu_param r !! tid c) <$> host_set r)
      with (((fun k => r_cpu_copys_map_gpu_param r !! k) ∘ tid) <$> host_set r)
      in Hnd2.
    rewrite list_fmap_compose in Hnd2.
    by apply NoDup_fmap_1 in Hnd2.
  - by rewrite Hdev.
Qed.

(** A run of [C1_partition_exactly_one]: the scenario parameters at
    fraction 0.3. *)
Lemma C1_partition_exactly_one_witness :
  exists r h',
    _split_parameters_updated_on_the_cpu_and_gpu true (Flat scenario_params)
      PyFloat.f0_3 heap0 = (inr r, h') /\
    NoDup (tid <$> scenario_params) /\
    exactly_one_side (Flat scenario_params) r.
Proof.
  eexists _, _.
  assert (Hnd : NoDup (tid <$> scenario_params)).
  { apply (bool_decide_unpack _). vm_compute. exact I. }
  split_and!; [vm_compute; reflexivity|exact Hnd|].
  eapply (C1_partition_exactly_one true (Flat scenario_params) PyFloat.f0_3 heap0).
  - vm_compute. reflexivity.
  - exact Hnd.
Defined.

(** C1 as stated fails on a flat list that repeats a parameter: with
    [p] twice and fraction 0.5 the first occurrence is offloaded and the
    second stays on the device, so [p] is on both sides. *)
Lemma C1_counterexample :
  exists r h',
    PyFloat.in_unit_interval PyFloat.f0_5 = true /\
    _split_parameters_updated_on_the_cpu_and_gpu true
      (Flat [cuda_param 1 100; cuda_param 1 100]) PyFloat.f0_5 heap0 = (inr r, h') /\
    ~ exactly_one_side (Flat [cuda_param 1 100; cuda_param 1 100]) r.
Proof.
  eexists _, _. split_and!; [done|vm_compute; reflexivity|].
  intros Hone. destruct (Hone (cuda_param 1 100)) as [[_ Hdev]|[Hoff _]].
  - left.
  - apply Hdev. vm_compute. left.
  - apply Hoff. vm_compute. left.
Qed.












(** ** State synchronisation *)

Lemma collect_state_dom (c2g : gmap positive Tensor)
    (ns : gmap positive (gmap string PyVal)) (o : SubOptimizer) :
  dom (collect_state c2g ns o)
  =@{gset positive}
  dom ns ∪ list_to_set (remap_to_gpu_param c2g <$> (fst <$> opt_state o)).
Proof.
  unfold collect_state. generalize (opt_state o) as l. intros l. revert ns.
  induction l as [|[k v] l IH]; intros ns; simpl.
  - set_solver.
  - rewrite IH, dom_insert_L. set_solver.
Qed.

Lemma collect_states_dom (c2g : gmap positive Tensor)
    (ns : gmap positive (gmap string PyVal)) (os : list SubOptimizer) :
  dom (foldl (collect_state c2g) ns os)
  =@{gset positive}
  dom ns ∪ list_to_set
             (remap_to_gpu_param c2g <$> concat ((fun o => fst <$> opt_state o) <$> os)).
Proof.
  revert ns. induction os as [|o os IH]; intros ns; simpl.
  - set_solver.
  - rewrite IH, collect_state_dom, fmap_app, list_to_set_app_L. set_solver.
Qed.

Lemma state_sync_dom (s : HDO) :
  dom (state (_sync_sub_optimizers_state_to_hdo s))
    =@{gset positive} list_to_set (tracked_keys s).
Proof.
  unfold _sync_sub_optimizers_state_to_hdo, tracked_keys. simpl.
  rewrite collect_states_dom, dom_empty_L. set_solver.
Qed.


(** The sync is the last phase of every hooked step. *)
Lemma step_with_hooks_state (rule : StepRule) (s s' : HDO) (h h' : Heap) :
  step_with_hooks rule s h = (inr s', h') ->
  dom (state s') =@{gset positive} list_to_set (tracked_keys s').
Proof.
  unfold step_with_hooks, post_step_hook. intros H. inv_bind H.
  injection H as <- <-.
  rewrite state_sync_dom. unfold tracked_keys. simpl. done.
Qed.

(** ** Which exceptions a computation can raise *)

Lemma raises_only_ret {A} (P : Exn -> Prop) (a : A) : raises_only P (ret a).
Proof. intros h e h' [=]. Qed.

Lemma raises_only_raise {A} (P : Exn -> Prop) (e : Exn) :
  P e -> raises_only P (@raise A e).
Proof. intros HP h e' h' [= <- _]. done. Qed.

Lemma raises_only_bind {A B} (P : Exn -> Prop) (m : M A) (k : A -> M B) :
  raises_only P m -> (forall a, raises_only P (k a)) -> raises_only P (bind m k).
Proof.
  intros Hm Hk h e h'. unfold bind.
  destruct (m h) as [[e1|a] h1] eqn:Hrun.
  - intros [= <- <-]. by eapply Hm.
  - apply Hk.
Qed.

Lemma raises_only_foldM {A B} (P : Exn -> Prop) (f : B -> A -> M B) (l : list A) :
  (forall b a, raises_only P (f b a)) -> forall b, raises_only P (foldM f b l).
Proof.
  intros Hf. induction l as [|a l IH]; intros b; simpl.
  - apply raises_only_ret.
  - apply raises_only_bind; [apply Hf|apply IH].
Qed.

Lemma raises_only_total {A} (P : Exn -> Prop) (m : M A) :
  (forall h, exists a h', m h = (inr a, h')) -> raises_only P m.
Proof. intros Htot h e h' Hrun. destruct (Htot h) as (a & h1 & Hok). congruence. Qed.

Lemma new_tensor_total (n : N) (cuda pin : bool) (h : Heap) :
  exists t h', new_tensor n cuda pin h = (inr t, h').
Proof. unfold new_tensor, bind, alloc, set_requires_grad, ret. eauto. Qed.

(** ** The base-class constructor *)

Lemma add_param_groups_inr (df : gmap string PyVal) (seen : gset positive)
    (gs gs' : list ParamGroup) :
  add_param_groups df seen gs = inr gs' ->
  gs' = (fun g => {| g_params := g_params g; g_hypers := g_hypers g ∪ df |}) <$> gs.
Proof.
  revert seen gs'. induction gs as [|g gs IH]; intros seen gs'; simpl.
  - by intros [= <-].
  - destruct (forallb _ _); [|done].
    destruct (add_param_groups df _ gs) as [e|gs''] eqn:Hrec; [done|].
    intros [= <-]. f_equal. by eapply IH.
Qed.



Lemma Optimizer_init_inr (params : ParamsT) (df : gmap string PyVal)
    (gs : list ParamGroup) :
  Optimizer_init params df = inr gs ->
  params_len params <> 0%nat /\
  gs = match params with
       | Flat ps => [{| g_params := ps; g_hypers := ∅ ∪ df |}]
       | Grouped gs0 =>
           (fun g => {| g_params := g_params g; g_hypers := g_hypers g ∪ df |})
             <$> gs0
       end.
Proof.
  unfold Optimizer_init. destruct (Nat.eqb_spec (params_len params) 0); [done|].
  intros H. split; [done|].
  destruct params; by apply add_param_groups_inr in H.
Qed.

Lemma group_params_concat (gs : list ParamGroup) :
  group_params gs = concat (g_params <$> gs).
Proof.
  induction gs as [|g gs IH]; [done|].
  rewrite group_params_cons, IH. done.
Qed.

Lemma Optimizer_init_params (params : ParamsT) (df : gmap string PyVal)
    (gs : list ParamGroup) :
  Optimizer_init params df = inr gs -> group_params gs = flatten_params params.
Proof.
  intros [_ ->]%Optimizer_init_inr. destruct params as [ps|gs0]; simpl.
  - apply group_params_singleton.
  - rewrite !group_params_concat, <- list_fmap_compose. done.
Qed.

(** ** Construction: the exceptions *)

Lemma not_overlap_error_ValueError (msg : string) :
  not_overlap_error (ValueError msg).
Proof. done. Qed.

Lemma make_cpu_copy_raises (P : Exn -> Prop) (pin : bool) (p : Tensor) :
  raises_only P (make_cpu_copy pin p).
Proof.
  apply raises_only_total. intros h.
  destruct (make_cpu_copy_run pin p h) as (c & h' & Hrun & _). eauto.
Qed.







(** ** Construction: the host sub-optimizers *)

Lemma foldM_fmap {A B C} (f : B -> A -> M B) (g : C -> A) (b : B) (l : list C)
    (h : Heap) :
  foldM f b (g <$> l) h = foldM (fun b c => f b (g c)) b l h.
Proof.
  revert b h. induction l as [|c l IH]; intros b h; [done|].
  simpl. unfold bind. destruct (f b (g c) h) as [[e|b'] h1]; [done|]. apply IH.
Qed.

Lemma foldM_ext {A B} (f g : B -> A -> M B) (b : B) (l : list A) (h : Heap) :
  (forall b a h, f b a h = g b a h) -> foldM f b l h = foldM g b l h.
Proof.
  intros Hfg. revert b h. induction l as [|a l IH]; intros b h; [done|].
  simpl. unfold bind. rewrite Hfg.
  destruct (g b a h) as [[e|b'] h1]; [done|]. apply IH.
Qed.

Lemma foldM_concat {A B} (f : B -> A -> M B) (b : B) (ls : list (list A))
    (h : Heap) :
  foldM f b (concat ls) h = foldM (fun b l => foldM f b l) b ls h.
Proof.
  revert b h. induction ls as [|l ls IH]; intros b h; [done|].
  simpl. rewrite foldM_app. unfold bind.
  destruct (foldM f b l h) as [[e|b'] h1]; [done|]. apply IH.
Qed.

Lemma new_optimizer_single (cls : OptimizerCls) (kw hy : gmap string PyVal)
    (c : Tensor) (h : Heap) :
  new_optimizer cls (Grouped [{| g_params := [c]; g_hypers := hy |}]) kw h
  = (inr (single_param_optimizer cls kw (n_optimizers h) c hy), bump_optimizers h).
Proof.
  unfold new_optimizer, Optimizer_init, bind. simpl.
  rewrite bool_decide_eq_true_2 by set_solver. done.
Qed.

Lemma new_optimizer_single_flat (cls : OptimizerCls) (kw : gmap string PyVal)
    (c : Tensor) (h : Heap) :
  new_optimizer cls (Flat [c]) kw h
  = new_optimizer cls (Grouped [{| g_params := [c]; g_hypers := ∅ |}]) kw h.
Proof. done. Qed.

(** The two loops of [build_cpu_optimizer_list] are one loop over the
    host entries. *)
Lemma build_cpu_optimizer_list_entries (cls : OptimizerCls) (cpu_params : ParamsT)
    (kw : gmap string PyVal) (h : Heap) :
  build_cpu_optimizer_list cls cpu_params kw h
  = foldM (build_entry cls kw) ([], ∅, []) (host_entries cpu_params) h.
Proof.
  unfold build_cpu_optimizer_list.
  destruct (Nat.eqb_spec (params_len cpu_params) 0) as [Hlen|Hlen].
  - destruct cpu_params as [[|? ?]|[|? ?]]; done.
  - destruct cpu_params as [ps|gs]; simpl.
    + rewrite foldM_fmap. apply foldM_ext. intros acc p h0.
      unfold build_entry, build_one, bind. simpl.
      by rewrite new_optimizer_single_flat.
    + rewrite foldM_concat, foldM_fmap. apply foldM_ext. intros acc g h0.
      by rewrite foldM_fmap.
Qed.

Lemma build_entry_run (cls : OptimizerCls) (kw : gmap string PyVal)
    (acc : BuildAcc) (e : Tensor * gmap string PyVal) (h : Heap) :
  build_entry cls kw acc e h
  = (inr (acc.1.1 ++ [single_param_optimizer cls kw (n_optimizers h) e.1 e.2],
          <[tid e.1 := length acc.1.1]> acc.1.2,
          acc.2 ++ [1%nat]),
     bump_optimizers h).
Proof.
  unfold build_entry, build_one, bind. by rewrite new_optimizer_single.
Qed.

(** One instance per entry, in order; the routing table sends every
    host parameter to the index of an instance that holds it. *)
Lemma build_entries_spec (cls : OptimizerCls) (kw : gmap string PyVal)
    (E : list (Tensor * gmap string PyVal)) (h : Heap) :
  exists os m h',
    foldM (build_entry cls kw) ([], ∅, []) E h
    = (inr (os, m, replicate (length E) 1%nat), h') /\
    os = imap (fun i e => single_param_optimizer cls kw (n_optimizers h + i) e.1 e.2) E /\
    (forall k i, m !! k = Some i -> exists e, E !! i = Some e /\ tid e.1 = k) /\
    (forall e, e ∈ E -> is_Some (m !! tid e.1)) /\
    n_optimizers h' = (n_optimizers h + length E)%nat /\
    next_tid h' = next_tid h /\ grad h' = grad h /\
    requires_grad h' = requires_grad h.
Proof.
  induction E as [|e E IH] using rev_ind.
  - exists [], ∅, h. split_and!; try done; try (simpl; lia).
    intros e He. by apply elem_of_nil in He.
  - destruct IH as (os & m & h1 & Hrun & Hos & Hm & Hdom & Hn & Ht & Hg & Hr).
    rewrite foldM_app. erewrite bind_run by exact Hrun.
    simpl. unfold bind. rewrite build_entry_run. simpl.
    eexists _, _, _. split_and!.
    + rewrite length_app. simpl.
      replace (length E + 1)%nat with (S (length E)) by lia.
      rewrite replicate_S_end. reflexivity.
    + rewrite imap_app. simpl. rewrite <- Hos, Hn, Nat.add_0_r. done.
    + intros k i Hk. destruct (decide (tid e.1 = k)) as [<-|Hne].
      * rewrite lookup_insert_eq in Hk. injection Hk as <-.
        exists e. split; [|done].
        assert (length os = length E) as -> by (by rewrite Hos, length_imap).
        by rewrite lookup_app_r, Nat.sub_diag.
      * rewrite lookup_insert_ne in Hk by done.
        destruct (Hm _ _ Hk) as (e0 & He0 & Htid). exists e0.
        split; [|done]. by apply lookup_app_l_Some.
    + intros e0 [He0|He0]%elem_of_app.
      * destruct (decide (tid e.1 = tid e0.1)) as [Heq|Hne].
        -- rewrite <- Heq, lookup_insert_eq. eauto.
        -- rewrite lookup_insert_ne by done. by apply Hdom.
      * apply list_elem_of_singleton in He0 as ->.
        rewrite lookup_insert_eq. eauto.
    + simpl. rewrite Hn, length_app. simpl. lia.
    + done.
    + done.
    + done.
Qed.

Lemma host_entries_fst (cpu_params : ParamsT) :
  fst <$> host_entries cpu_params = flatten_params cpu_params.
Proof.
  destruct cpu_params as [ps|gs]; simpl.
  - rewrite <- list_fmap_compose. apply list_fmap_id.
  - induction gs as [|g gs IH]; [done|].
    rewrite fmap_cons, concat_cons, fmap_app, IH, group_params_cons. f_equal.
    rewrite <- list_fmap_compose. apply list_fmap_id.
Qed.

Lemma host_entries_length (cpu_params : ParamsT) :
  length (host_entries cpu_params) = length (flatten_params cpu_params).
Proof. by rewrite <- host_entries_fst, length_fmap. Qed.

Lemma flatten_params_nonempty (params : ParamsT) :
  flatten_params params <> [] -> (0 <? params_len params)%nat = true.
Proof.
  intros Hne. apply Nat.ltb_lt. destruct params as [[|? ?]|[|? ?]]; simpl; try lia; done.
Qed.

(** What [_init_sub_optimizers] leaves in the optimizer. *)
Lemma init_sub_optimizers_inr (d : Defaults) (groups : list ParamGroup)
    (st : gmap positive (gmap string PyVal)) (params : ParamsT) (h h' : Heap)
    (s : HDO) :
  _init_sub_optimizers d groups st params h = (inr s, h') ->
  exists r h1 h2,
    _split_parameters_updated_on_the_cpu_and_gpu (pin_cpu_params d) params
      (offload_fraction d) h = (inr r, h1) /\
    defaults s = d /\ param_groups s = groups /\ state s = st /\
    cpu_params s = r_cpu_params r /\ gpu_params s = r_gpu_params r /\
    gpu_params_map_cpu_copy s = r_gpu_params_map_cpu_copy r /\
    cpu_copys_map_gpu_param s = r_cpu_copys_map_gpu_param r /\
    cpu_copy_map_grad s = ∅ /\
    (if overlap d && (0 <? params_len (r_cpu_params r))%nat then
       exists b,
         build_cpu_optimizer_list (cpu_optimizer_cls d) (r_cpu_params r)
           (kwargs d) h1 = (inr b, h2) /\
         cpu_optimizers s = b.1.1 /\
         param_optimizer_mapping s = RouteDict b.1.2 /\ n_params s = b.2
     else
       param_optimizer_mapping s = RouteZero /\
       n_params s = [params_len (r_cpu_params r)] /\
       if (0 <? params_len (r_cpu_params r))%nat then
         exists o,
           new_optimizer (cpu_optimizer_cls d) (r_cpu_params r) (kwargs d) h1
           = (inr o, h2) /\
           cpu_optimizers s = [o]
       else cpu_optimizers s = [] /\ h2 = h1) /\
    (if (0 <? params_len (r_gpu_params r))%nat then
       exists o,
         new_optimizer (gpu_optimizer_cls d) (r_gpu_params r) (kwargs d) h2
         = (inr o, h') /\
         gpu_optimizer s = Some o
     else gpu_optimizer s = None /\ h' = h2).
Proof.
  unfold _init_sub_optimizers. intros H.
  apply bind_inr in H as (r & h1 & Hsplit & H).
  apply bind_inr in H as (cpu & h2 & Hcpu & H).
  apply bind_inr in H as (gpu & h3 & Hgpu & H).
  injection H as <- <-. exists r, h1, h2. simpl.
  split_and!; try done.
  - destruct (overlap d && _).
    + apply bind_inr in Hcpu as (b & h4 & Hb & [= <- <-]). eauto.
    + apply bind_inr in Hcpu as (os & h4 & Hos & [= <- <-]). simpl.
      split_and!; try done.
      destruct (0 <? params_len (r_cpu_params r))%nat.
      * apply bind_inr in Hos as (o & h5 & Ho & [= <- <-]). eauto.
      * by injection Hos as <- <-.
  - destruct (0 <? params_len (r_gpu_params r))%nat.
    + apply bind_inr in Hgpu as (o & h5 & Ho & [= <- <-]). eauto.
    + by injection Hgpu as <- <-.
Qed.

Lemma HybridDeviceOptimizer_init_inr (params : ParamsT) (d : Defaults)
    (h h' : Heap) (s : HDO) :
  HybridDeviceOptimizer_init params d h = (inr s, h') ->
  exists groups,
    Optimizer_init params (defaults_dict d) = inr groups /\
    negb (overlap d) || multi_streams d = true /\
    _init_sub_optimizers d groups ∅
      (match params with
       | Flat ps => Flat ps
       | Grouped _ => Grouped groups
       end) h = (inr s, h').
Proof.
  unfold HybridDeviceOptimizer_init. intros H.
  apply bind_inr in H as (groups & h1 & Hbase & H).
  apply bind_inr in H as ([] & h2 & Hassert & H).
  exists groups.
  destruct (Optimizer_init params (defaults_dict d)); [done|].
  injection Hbase as -> <-.
  unfold assert_ in Hassert. destruct (negb (overlap d) || multi_streams d); [|done].
  by injection Hassert as <-.
Qed.

(** C6.  After a construction with overlap (which needs multi-stream
    mode) over a non-empty host set, there is one host sub-optimizer
    per host parameter, in order, each over the single-parameter group
    that carries the hyperparameters of the parameter's group (the
    optimizer's defaults filling the keys the group lacks); the routing
    table sends every host parameter to the index of an instance
    holding it, and two parameters never share an index.  Without
    overlap there is at most one host sub-optimizer, it spans all the
    host parameters, and every parameter is routed to index 0. *)
Theorem C6_host_sub_optimizers (params : ParamsT) (d : Defaults) (h h' : Heap)
    (s : HDO) :
  HybridDeviceOptimizer_init params d h = (inr s, h') ->
  (overlap d = true -> flatten_params (cpu_params s) <> [] ->
   multi_streams d = true /\
   length (cpu_optimizers s) = length (flatten_params (cpu_params s)) /\
   (forall i c hy, host_entries (cpu_params s) !! i = Some (c, hy) ->
      exists o, cpu_optimizers s !! i = Some o /\
        opt_param_groups o
        = [{| g_params := [c];
              g_hypers := hy ∪ (kwargs d ∪ cls_defaults (cpu_optimizer_cls d)) |}] /\
        opt_state o = []) /\
   (forall c, c ∈ flatten_params (cpu_params s) ->
      is_Some (route (param_optimizer_mapping s) c)) /\
   (forall c i, route (param_optimizer_mapping s) c = Some i ->
      exists c', flatten_params (cpu_params s) !! i = Some c' /\ tid c' = tid c) /\
   (forall c1 c2 i,
      route (param_optimizer_mapping s) c1 = Some i ->
      route (param_optimizer_mapping s) c2 = Some i -> tid c1 = tid c2)) /\
  (overlap d = false ->
   (forall p, route (param_optimizer_mapping s) p = Some 0%nat) /\
   (length (cpu_optimizers s) <= 1)%nat /\
   (forall o, o ∈ cpu_optimizers s ->
      group_params (opt_param_groups o) = flatten_params (cpu_params s)) /\
   (cpu_optimizers s = [] <-> params_len (cpu_params s) = 0%nat)).
Proof.
  intros (groups & Hbase & Hflags & Hinit)%HybridDeviceOptimizer_init_inr.
  apply init_sub_optimizers_inr in Hinit
    as (r & h1 & h2 & Hsplit & _ & _ & _ & Hcpu & _ & _ & _ & _ & Hhost & _).
  rewrite Hcpu. split.
  - intros Ho Hne. rewrite Ho in Hflags, Hhost. simpl in Hflags, Hhost.
    rewrite (flatten_params_nonempty _ Hne) in Hhost.
    destruct Hhost as (b & Hb & Hos & Hroute & _).
    rewrite build_cpu_optimizer_list_entries in Hb.
    destruct (build_entries_spec (cpu_optimizer_cls d) (kwargs d)
                (host_entries (r_cpu_params r)) h1)
      as (os & m & h3 & Hrun & Hos' & Hm & Hdom & _).
    rewrite Hrun in Hb. injection Hb as <- <-.
    rewrite Hos, Hroute. simpl.
    assert (Hback : forall c i, m !! tid c = Some i ->
              exists c', flatten_params (r_cpu_params r) !! i = Some c'
                         /\ tid c' = tid c).
    { intros c i Hi. destruct (Hm _ _ Hi) as (e & He & Htid).
      exists e.1. split; [|done].
      by rewrite <- host_entries_fst, list_lookup_fmap, He. }
    split_and!.
    + done.
    + by rewrite Hos', length_imap, host_entries_length.
    + intros i c hy Hi. eexists. rewrite Hos', list_lookup_imap, Hi. simpl.
      split_and!; reflexivity.
    + intros c Hc. rewrite <- host_entries_fst in Hc.
      apply list_elem_of_fmap in Hc as (e & -> & He). by apply Hdom.
    + exact Hback.
    + intros c1 c2 i H1 H2.
      destruct (Hback _ _ H1) as (c1' & Hl1 & <-).
      destruct (Hback _ _ H2) as (c2' & Hl2 & <-). congruence.
  - intros Ho. rewrite Ho in Hhost. simpl in Hhost.
    destruct Hhost as (-> & _ & Hos). split; [done|].
    destruct (Nat.ltb_spec 0 (params_len (r_cpu_params r))) as [Hlen|Hlen].
    + destruct Hos as (o & Hnew & ->). split_and!.
      * simpl. lia.
      * intros o' ->%list_elem_of_singleton.
        unfold new_optimizer in Hnew.
        apply bind_inr in Hnew as (gs & h4 & Hgs & Hnew).
        apply bind_inr in Hnew as (i & h5 & _ & [= <- _]). simpl.
        destruct (Optimizer_init (r_cpu_params r) _) eqn:Hinit; [done|].
        injection Hgs as -> _. by eapply Optimizer_init_params.
      * split; [done|lia].
    + destruct Hos as [-> _]. split_and!.
      * simpl. lia.
      * intros o Ho'. by apply elem_of_nil in Ho'.
      * split; [lia|done].
Qed.

(** A run of [C6_host_sub_optimizers]: the scenario at fraction 0.5
    (two host parameters), with and without overlap. *)
Lemma C6_host_sub_optimizers_witness :
  (exists s h',
     HybridDeviceOptimizer_init (Flat scenario_params)
       (scenario_defaults PyFloat.f0_5 true true) heap0 = (inr s, h') /\
     overlap (scenario_defaults PyFloat.f0_5 true true) = true /\
     length (flatten_params (cpu_params s)) = 2%nat /\
     length (cpu_optimizers s) = 2%nat) /\
  (exists s h',
     HybridDeviceOptimizer_init (Flat scenario_params)
       (scenario_defaults PyFloat.f0_5 false true) heap0 = (inr s, h') /\
     overlap (scenario_defaults PyFloat.f0_5 false true) = false /\
     (length (cpu_optimizers s) <= 1)%nat).
Proof.
  split.
  - destruct (returns_with_spec
                (HybridDeviceOptimizer_init (Flat scenario_params)
                   (scenario_defaults PyFloat.f0_5 true true)) heap0
                (fun s _ => (length (flatten_params (cpu_params s)) =? 2)%nat)
                ltac:(vm_compute; reflexivity))
      as (s & h' & Hrun & Hlen%Nat.eqb_eq).
    exists s, h'. split; [exact Hrun|]. split; [reflexivity|].
    split; [exact Hlen|].
    destruct (C6_host_sub_optimizers _ _ _ _ _ Hrun) as [Hover _].
    assert (Hne : flatten_params (cpu_params s) <> []).
    { intros Hnil. rewrite Hnil in Hlen. discriminate. }
    destruct (Hover eq_refl Hne) as (_ & Hcount & _).
    by rewrite Hcount.
  - destruct (returns_with_spec
                (HybridDeviceOptimizer_init (Flat scenario_params)
                   (scenario_defaults PyFloat.f0_5 false true)) heap0
                (fun _ _ => true)
                ltac:(vm_compute; reflexivity))
      as (s & h' & Hrun & _).
    exists s, h'. split; [exact Hrun|]. split; [reflexivity|].
    destruct (C6_host_sub_optimizers _ _ _ _ _ Hrun) as [_ Hno].
    by destruct (Hno eq_refl) as (_ & Hle & _).
Defined.

(** ** The hyperparameter sync *)

Lemma sync_group_inr (U : list ParamGroup) (idx : gmap positive (nat * nat))
    (acc : list ParamGroup) (g : ParamGroup) (h h' : Heap) (r : list ParamGroup) :
  sync_group U idx acc g h = (inr r, h') ->
  h' = h /\
  exists ug, governing_group U idx g = Some ug /\ r = acc ++ [synced_group ug g].
Proof.
  unfold sync_group, governing_group, synced_group.
  destruct (g_params g) as [|p ps]; [done|]. simpl.
  unfold bind, getitem. simpl.
  destruct (idx !! tid p) as [gp|]; [|done]. simpl.
  destruct (U !! gp.1) as [ug|]; [|done]. simpl.
  intros [= <- <-]. eauto.
Qed.

Lemma sync_group_run (U : list ParamGroup) (idx : gmap positive (nat * nat))
    (acc : list ParamGroup) (g ug : ParamGroup) (h : Heap) :
  governing_group U idx g = Some ug ->
  sync_group U idx acc g h = (inr (acc ++ [synced_group ug g]), h).
Proof.
  unfold sync_group, governing_group, synced_group.
  destruct (g_params g) as [|p ps]; [done|]. simpl.
  unfold bind, getitem. simpl.
  destruct (idx !! tid p) as [gp|]; [|done]. simpl.
  destruct (U !! gp.1) as [ug'|]; [|done]. simpl.
  by intros [= ->].
Qed.

Lemma synced_group_idemp (ug g : ParamGroup) :
  synced_group ug (synced_group ug g) = synced_group ug g.
Proof.
  unfold synced_group. simpl. f_equal.
  by rewrite (assoc_L (∪)), (idemp_L (∪)).
Qed.

Lemma governing_group_synced (U : list ParamGroup)
    (idx : gmap positive (nat * nat)) (ug g : ParamGroup) :
  governing_group U idx (synced_group ug g) = governing_group U idx g.
Proof. done. Qed.

Lemma sync_groups_inr (U : list ParamGroup) (idx : gmap positive (nat * nat))
    (gs : list ParamGroup) :
  forall acc h r h',
    foldM (sync_group U idx) acc gs h = (inr r, h') ->
    h' = h /\
    exists gs', r = acc ++ gs' /\
      Forall2 (fun g g' => exists ug, governing_group U idx g = Some ug /\
                                      g' = synced_group ug g) gs gs'.
Proof.
  induction gs as [|g gs IH]; intros acc h r h' Hrun; simpl in Hrun.
  - injection Hrun as <- <-. split; [done|]. exists []. by rewrite app_nil_r.
  - apply bind_inr in Hrun as (r1 & h1 & Hg & Hrest).
    apply sync_group_inr in Hg as (-> & ug & Hug & ->).
    apply IH in Hrest as (-> & gs' & -> & Hall).
    split; [done|]. exists (synced_group ug g :: gs').
    rewrite <- (assoc_L (++)). split; [done|]. constructor; eauto.
Qed.

Lemma synced_groups_fixed (U : list ParamGroup) (idx : gmap positive (nat * nat))
    (gs gs' : list ParamGroup) :
  Forall2 (fun g g' => exists ug, governing_group U idx g = Some ug /\
                                  g' = synced_group ug g) gs gs' ->
  sync_fixed U idx gs'.
Proof.
  induction 1 as [|g g' gs gs' (ug & Hug & ->) _ IH]; intros acc h; simpl.
  - by rewrite app_nil_r.
  - erewrite bind_run;
      [|apply sync_group_run; rewrite governing_group_synced; exact Hug].
    rewrite synced_group_idemp, IH. by rewrite <- (assoc_L (++)).
Qed.

Lemma synced_groups_params (U : list ParamGroup) (idx : gmap positive (nat * nat))
    (gs gs' : list ParamGroup) :
  Forall2 (fun g g' => exists ug, governing_group U idx g = Some ug /\
                                  g' = synced_group ug g) gs gs' ->
  group_params gs' = group_params gs.
Proof.
  intros Hall. rewrite !group_params_concat. f_equal.
  induction Hall as [|g g' gs gs' (ug & _ & ->) _ IH]; [done|].
  by rewrite !fmap_cons, IH.
Qed.

(** ** Gradient staging *)

Lemma grads_kept_refl (h : Heap) : grads_kept h h.
Proof. by intros k. Qed.

Lemma grads_kept_trans (h1 h2 h3 : Heap) :
  grads_kept h1 h2 -> grads_kept h2 h3 -> grads_kept h1 h3.
Proof. intros H12 H23 k Hk. by apply H23, H12. Qed.

Lemma grads_kept_insert (h h' : Heap) (k : positive) (buf : Tensor) :
  grad h' = <[k := buf]> (grad h) -> grads_kept h h'.
Proof.
  intros Hg j Hj. rewrite Hg.
  destruct (decide (k = j)) as [->|Hne].
  - rewrite lookup_insert_eq. eauto.
  - by rewrite lookup_insert_ne.
Qed.

Lemma staged_mono (c2g bufs bufs' : gmap positive Tensor) (h h' : Heap)
    (p : Tensor) :
  bufs ⊆ bufs' -> grads_kept h h' ->
  staged c2g bufs h p -> staged c2g bufs' h' p.
Proof.
  intros Hb Hg (gpu & Hgpu & Hgrad & [buf Hbuf]).
  exists gpu. split_and!; [done|by apply Hg|].
  exists buf. by eapply lookup_weaken.
Qed.

(** What a staging step that returns has done. *)
Lemma stage_param_inr (c2g : gmap positive Tensor) (pin : bool)
    (bufs bufs' : gmap positive Tensor) (p : Tensor) (h h' : Heap) :
  stage_param c2g pin bufs p h = (inr bufs', h') ->
  exists gpu g buf,
    c2g !! tid p = Some gpu /\ grad h !! tid gpu = Some g /\
    bufs' !! tid p = Some buf /\ bufs ⊆ bufs' /\
    grad h' = <[tid p := buf]> (grad h).
Proof.
  unfold stage_param. intros Hrun.
  apply bind_inr in Hrun as (gpu & h1 & Hgpu & Hrun).
  destruct (c2g !! tid p) as [gpu'|] eqn:Hc2g; [|done].
  injection Hgpu as -> <-.
  apply bind_inr in Hrun as (bufs1 & h1 & Hbufs & Hrun).
  unfold hasattr_grad in Hrun.
  apply bind_inr in Hrun as (g & h2 & Hg & Hrun).
  injection Hg as <- <-.
  destruct (grad h1 !! tid gpu) as [g2|] eqn:Hg2; [|done].
  apply bind_inr in Hrun as (buf & h3 & Hbuf & Hrun).
  destruct (bufs1 !! tid p) as [buf'|] eqn:Hb1; [|done].
  injection Hbuf as -> <-.
  injection Hrun as <- <-. simpl.
  destruct (bufs !! tid p) as [buf0|] eqn:Hb0.
  - injection Hbufs as <- <-. exists gpu, g2, buf. by split_and!.
  - apply bind_inr in Hbufs as (g & h4 & Hg & Hbufs).
    injection Hg as <- <-.
    destruct (grad h !! tid gpu) as [g1|] eqn:Hg1; [|done].
    apply bind_inr in Hbufs as (nb & h5 & Hnb & [= <- <-]).
    unfold empty_like_on_host, new_tensor, bind, alloc, set_requires_grad, ret
      in Hnb. simpl in Hnb. injection Hnb as <- <-. simpl in *.
    exists gpu, g1, buf. split_and!; try done.
    by apply insert_subseteq.
Qed.

(** Staging a parameter that has been staged before. *)
Lemma stage_param_staged (c2g : gmap positive Tensor) (pin : bool)
    (bufs : gmap positive Tensor) (p : Tensor) (h : Heap) :
  staged c2g bufs h p ->
  exists h', stage_param c2g pin bufs p h = (inr bufs, h') /\ grads_kept h h'.
Proof.
  intros (gpu & Hgpu & [g Hg] & [buf Hbuf]).
  unfold stage_param, bind, getitem, get_grad, hasattr_grad, set_grad,
    set_requires_grad, ret.
  rewrite Hgpu. simpl. rewrite Hbuf. simpl. rewrite Hg, Hbuf. simpl.
  eexists. split; [done|]. by eapply grads_kept_insert.
Qed.

Lemma stage_params_inr (c2g : gmap positive Tensor) (pin : bool)
    (ps : list Tensor) :
  forall bufs h bufs' h',
    foldM (stage_param c2g pin) bufs ps h = (inr bufs', h') ->
    bufs ⊆ bufs' /\ grads_kept h h' /\ Forall (staged c2g bufs' h') ps.
Proof.
  induction ps as [|p ps IH]; intros bufs h bufs' h' Hrun; simpl in Hrun.
  - injection Hrun as <- <-. split_and!; [done|apply grads_kept_refl|done].
  - apply bind_inr in Hrun as (bufs1 & h1 & Hp & Hrest).
    apply stage_param_inr in Hp as (gpu & g & buf & Hgpu & Hg & Hbuf & Hsub & Hgr).
    apply IH in Hrest as (Hsub' & Hkept & Hall).
    assert (Hkept1 : grads_kept h h1) by by eapply grads_kept_insert.
    split_and!.
    + by etrans.
    + by eapply grads_kept_trans.
    + constructor; [|done].
      apply (staged_mono c2g bufs1 bufs' h1 h'); [done|done|].
      exists gpu. split_and!; [done| |by eauto].
      apply Hkept1. eauto.
Qed.

Lemma stage_params_staged (c2g : gmap positive Tensor) (pin : bool)
    (bufs : gmap positive Tensor) (ps : list Tensor) :
  forall h, Forall (staged c2g bufs h) ps ->
    exists h', foldM (stage_param c2g pin) bufs ps h = (inr bufs, h')
               /\ grads_kept h h'.
Proof.
  induction ps as [|p ps IH]; intros h Hall; simpl.
  - exists h. split; [done|apply grads_kept_refl].
  - apply Forall_cons in Hall as [Hp Hps].
    destruct (stage_param_staged c2g pin bufs p h Hp) as (h1 & Hrun & Hkept).
    destruct (IH h1) as (h2 & Hrest & Hkept').
    { eapply Forall_impl; [exact Hps|]. intros q. by apply staged_mono. }
    exists h2. split; [|by eapply grads_kept_trans].
    by erewrite bind_run.
Qed.

(** ** The sync of one host optimizer, and of all of them *)

Lemma set_opt_param_groups_id (o : SubOptimizer) :
  set_opt_param_groups o (opt_param_groups o) = o.
Proof. by destruct o. Qed.

Lemma sync_cpu_optimizer_inr (s : HDO) (idx : gmap positive (nat * nat))
    (acc acc' : SyncAcc) (o : SubOptimizer) (h h' : Heap) :
  sync_cpu_optimizer s idx acc o h = (inr acc', h') ->
  exists gs',
    foldM (sync_group (param_groups s) idx) [] (opt_param_groups o) h
      = (inr gs', h) /\
    sync_fixed (param_groups s) idx gs' /\
    group_params gs' = group_params (opt_param_groups o) /\
    acc'.1.1 = acc.1.1 ++ [set_opt_param_groups o gs'] /\
    acc.1.2 ⊆ acc'.1.2 /\ grads_kept h h' /\
    Forall (staged (cpu_copys_map_gpu_param s) acc'.1.2 h')
           (group_params (opt_param_groups o)).
Proof.
  unfold sync_cpu_optimizer. intros Hrun.
  apply bind_inr in Hrun as (gs' & h1 & Hgs & Hrun).
  apply bind_inr in Hrun as (bufs & h2 & Hst & [= <- <-]).
  pose proof Hgs as Hgs'.
  apply sync_groups_inr in Hgs' as (-> & gs'' & Heq & Hall).
  simpl in Heq. subst gs''.
  apply stage_params_inr in Hst as (Hsub & Hkept & Hstaged).
  exists gs'. split_and!; try done.
  - by eapply synced_groups_fixed.
  - by eapply synced_groups_params.
Qed.

(** The sync of a host optimizer whose groups are fixed leaves the
    optimizer as it is, if it returns. *)
Lemma sync_cpu_optimizer_fixed (s : HDO) (idx : gmap positive (nat * nat))
    (acc acc' : SyncAcc) (o : SubOptimizer) (h h' : Heap) :
  sync_fixed (param_groups s) idx (opt_param_groups o) ->
  sync_cpu_optimizer s idx acc o h = (inr acc', h') ->
  acc'.1.1 = acc.1.1 ++ [o].
Proof.
  intros Hfix Hrun. unfold sync_cpu_optimizer in Hrun.
  rewrite (bind_run _ _ _ _ _ (Hfix [] h)) in Hrun.
  apply bind_inr in Hrun as (bufs & h2 & _ & [= <- _]). simpl.
  by rewrite set_opt_param_groups_id.
Qed.

(** It returns when the parameters of the optimizer have been staged. *)
Lemma sync_cpu_optimizer_staged (s : HDO) (idx : gmap positive (nat * nat))
    (acc : SyncAcc) (o : SubOptimizer) (h : Heap) :
  sync_fixed (param_groups s) idx (opt_param_groups o) ->
  Forall (staged (cpu_copys_map_gpu_param s) acc.1.2 h)
         (group_params (opt_param_groups o)) ->
  exists acc' h',
    sync_cpu_optimizer s idx acc o h = (inr acc', h') /\
    acc'.1.2 = acc.1.2 /\ grads_kept h h'.
Proof.
  intros Hfix Hst. unfold sync_cpu_optimizer.
  rewrite (bind_run _ _ _ _ _ (Hfix [] h)).
  destruct (stage_params_staged _ (pin_cpu_grads (defaults s)) _ _ h Hst)
    as (h' & Hrun & Hkept).
  rewrite (bind_run _ _ _ _ _ Hrun). by eexists _, _.
Qed.

Lemma sync_cpu_optimizers_inr (s : HDO) (idx : gmap positive (nat * nat))
    (os : list SubOptimizer) :
  forall acc h acc' h',
    foldM (sync_cpu_optimizer s idx) acc os h = (inr acc', h') ->
    exists os',
      acc'.1.1 = acc.1.1 ++ os' /\
      Forall (fun o => sync_fixed (param_groups s) idx (opt_param_groups o)) os' /\
      acc.1.2 ⊆ acc'.1.2 /\ grads_kept h h' /\
      Forall (fun o => Forall (staged (cpu_copys_map_gpu_param s) acc'.1.2 h')
                              (group_params (opt_param_groups o))) os'.
Proof.
  induction os as [|o os IH]; intros acc h acc' h' Hrun; simpl in Hrun.
  - injection Hrun as <- <-. exists []. rewrite app_nil_r.
    split_and!; [done|done|done|apply grads_kept_refl|done].
  - apply bind_inr in Hrun as (acc1 & h1 & Ho & Hrest).
    apply sync_cpu_optimizer_inr in Ho
      as (gs' & _ & Hfix & Hparams & Hos & Hsub & Hkept & Hst).
    apply IH in Hrest as (os' & Hos' & Hfix' & Hsub' & Hkept' & Hst').
    exists (set_opt_param_groups o gs' :: os').
    rewrite Hos', Hos, <- (assoc_L (++)).
    split_and!; try done.
    + by constructor.
    + by etrans.
    + by eapply grads_kept_trans.
    + constructor; [|done]. simpl. rewrite Hparams.
      eapply Forall_impl; [exact Hst|]. intros p. by apply staged_mono.
Qed.

Lemma sync_cpu_optimizers_fixed (s : HDO) (idx : gmap positive (nat * nat))
    (os : list SubOptimizer) :
  Forall (fun o => sync_fixed (param_groups s) idx (opt_param_groups o)) os ->
  forall acc h acc' h',
    foldM (sync_cpu_optimizer s idx) acc os h = (inr acc', h') ->
    acc'.1.1 = acc.1.1 ++ os.
Proof.
  induction 1 as [|o os Hfix _ IH]; intros acc h acc' h' Hrun; simpl in Hrun.
  - injection Hrun as <- <-. by rewrite app_nil_r.
  - apply bind_inr in Hrun as (acc1 & h1 & Ho & Hrest).
    apply (sync_cpu_optimizer_fixed _ _ _ _ _ _ _ Hfix) in Ho.
    apply IH in Hrest. by rewrite Hrest, Ho, <- (assoc_L (++)).
Qed.

Lemma sync_cpu_optimizers_staged (s : HDO) (idx : gmap positive (nat * nat))
    (os : list SubOptimizer) :
  Forall (fun o => sync_fixed (param_groups s) idx (opt_param_groups o)) os ->
  forall acc h,
    Forall (fun o => Forall (staged (cpu_copys_map_gpu_param s) acc.1.2 h)
                            (group_params (opt_param_groups o))) os ->
    exists acc' h', foldM (sync_cpu_optimizer s idx) acc os h = (inr acc', h').
Proof.
  induction 1 as [|o os Hfix _ IH]; intros acc h Hst; simpl.
  - by eexists _, _.
  - apply Forall_cons in Hst as [Ho Hos].
    destruct (sync_cpu_optimizer_staged s idx acc o h Hfix Ho)
      as (acc1 & h1 & Hrun & Hbufs & Hkept).
    destruct (IH acc1 h1) as (acc' & h' & Hrest).
    { rewrite Hbufs. eapply Forall_impl; [exact Hos|]. intros o' Ho'.
      eapply Forall_impl; [exact Ho'|]. intros p. by apply staged_mono. }
    exists acc', h'. by erewrite bind_run.
Qed.

Lemma sync_gpu_optimizer_inr (s : HDO) (idx : gmap positive (nat * nat))
    (o o' : SubOptimizer) (h h' : Heap) :
  sync_gpu_optimizer s idx o h = (inr o', h') ->
  h' = h /\ sync_fixed (param_groups s) idx (opt_param_groups o').
Proof.
  unfold sync_gpu_optimizer. intros Hrun.
  apply bind_inr in Hrun as (gs' & h1 & Hgs & [= <- <-]).
  apply sync_groups_inr in Hgs as (-> & gs'' & Heq & Hall).
  simpl in Heq. subst gs''. split; [done|]. simpl.
  by eapply synced_groups_fixed.
Qed.

Lemma sync_gpu_optimizer_fixed (s : HDO) (idx : gmap positive (nat * nat))
    (o : SubOptimizer) (h : Heap) :
  sync_fixed (param_groups s) idx (opt_param_groups o) ->
  sync_gpu_optimizer s idx o h = (inr o, h).
Proof.
  intros Hfix. unfold sync_gpu_optimizer.
  rewrite (bind_run _ _ _ _ _ (Hfix [] h)). unfold ret.
  by rewrite set_opt_param_groups_id.
Qed.

Lemma sync_frame (s : HDO) (cpus : list SubOptimizer) (gpu : option SubOptimizer)
    (bufs : gmap positive Tensor) (evs : gmap nat Event) :
  sync_cpu_optimizer (set_sub_optimizers s cpus gpu bufs evs)
    = sync_cpu_optimizer s /\
  sync_gpu_optimizer (set_sub_optimizers s cpus gpu bufs evs)
    = sync_gpu_optimizer s.
Proof. done. Qed.

(** What a sync that returns leaves behind: the unified groups are
    untouched, the groups of every sub-optimizer are fixed under a
    further sync, and every host parameter has been staged. *)
Lemma sync_inr (s s1 : HDO) (h h1 : Heap) :
  _sync_hdo_param_groups_to_sub_optimizers s h = (inr s1, h1) ->
  exists cpus gpu bufs evs,
    s1 = set_sub_optimizers s cpus gpu bufs evs /\
    Forall (fun o =>
              sync_fixed (param_groups s)
                (build_param_index (gpu_params_map_cpu_copy s) (param_groups s))
                (opt_param_groups o)) cpus /\
    (forall o, gpu = Some o ->
       sync_fixed (param_groups s)
         (build_param_index (gpu_params_map_cpu_copy s) (param_groups s))
         (opt_param_groups o)) /\
    Forall (fun o => Forall (staged (cpu_copys_map_gpu_param s) bufs h1)
                            (group_params (opt_param_groups o))) cpus.
Proof.
  unfold _sync_hdo_param_groups_to_sub_optimizers. intros Hrun.
  set (idx := build_param_index _ _) in *.
  apply bind_inr in Hrun as (acc & h2 & Hcpus & Hrun).
  apply bind_inr in Hrun as (gpu & h3 & Hgpu & [= <- <-]).
  apply sync_cpu_optimizers_inr in Hcpus
    as (os' & Hos & Hfix & _ & _ & Hst). simpl in Hos.
  exists acc.1.1, gpu, acc.1.2, acc.2. rewrite Hos.
  assert (Hg : h3 = h2 /\ forall o, gpu = Some o ->
            sync_fixed (param_groups s) idx (opt_param_groups o)).
  { destruct (gpu_optimizer s) as [o|].
    - apply bind_inr in Hgpu as (o' & h4 & Ho & [= <- <-]).
      apply sync_gpu_optimizer_inr in Ho as [-> Hfix'].
      split; [done|]. by intros ? [= <-].
    - injection Hgpu as <- <-. split; [done|]. by intros ? [=]. }
  destruct Hg as [-> Hgfix]. by split_and!.
Qed.

(** C8.  After a hyperparameter sync that returned, a second sync
    right away returns too; and a second sync, from whatever heap,
    with the unified groups as the first one left them (which is as it
    found them), leaves every sub-optimizer as the first sync left it:
    the same instances with the same groups, so in particular every
    hyperparameter of every group of every sub-optimizer has the value
    it had after the first call. *)
Theorem C8_hyperparameter_sync_idempotent (s s1 : HDO) (h h1 : Heap) :
  _sync_hdo_param_groups_to_sub_optimizers s h = (inr s1, h1) ->
  param_groups s1 = param_groups s /\
  (exists s2 h2,
     _sync_hdo_param_groups_to_sub_optimizers s1 h1 = (inr s2, h2)) /\
  (forall h' s2 h2,
     _sync_hdo_param_groups_to_sub_optimizers s1 h' = (inr s2, h2) ->
     param_groups s2 = param_groups s1 /\
     cpu_optimizers s2 = cpu_optimizers s1 /\
     gpu_optimizer s2 = gpu_optimizer s1 /\
     (fun o => g_hypers <$> opt_param_groups o) <$> sub_optimizers s2
     = (fun o => g_hypers <$> opt_param_groups o) <$> sub_optimizers s1).
Proof.
  intros Hrun.
  apply sync_inr in Hrun as (cpus & gpu & bufs & evs & -> & Hfix & Hgfix & Hst).
  split; [done|]. split.
  - unfold _sync_hdo_param_groups_to_sub_optimizers. simpl.
    destruct (sync_cpu_optimizers_staged s _ cpus Hfix ([], bufs, evs) h1 Hst)
      as (acc' & h2 & Hcpus).
    erewrite bind_run; [|exact Hcpus].
    destruct gpu as [o|].
    + erewrite bind_run;
        [|erewrite bind_run; [|by apply sync_gpu_optimizer_fixed, Hgfix]; done].
      by eexists _, _.
    + by eexists _, _.
  - intros h' s2 h2 Hrun2.
    unfold _sync_hdo_param_groups_to_sub_optimizers in Hrun2. simpl in Hrun2.
    apply bind_inr in Hrun2 as (acc & h3 & Hcpus & Hrun2).
    apply bind_inr in Hrun2 as (gpu2 & h4 & Hgpu & [= <- <-]).
    apply (sync_cpu_optimizers_fixed s _ cpus Hfix) in Hcpus. simpl in Hcpus.
    assert (Hg : gpu2 = gpu).
    { destruct gpu as [o|].
      - rewrite (bind_run _ _ _ _ _
                   (sync_gpu_optimizer_fixed s _ o h3 (Hgfix o eq_refl))) in Hgpu.
        by injection Hgpu as <- _.
      - by injection Hgpu as <- _. }
    unfold sub_optimizers. simpl. by rewrite Hcpus, Hg.
Qed.

(** A run of [C8_hyperparameter_sync_idempotent]: the scenario at
    fraction 0.5 with overlap, every parameter with a gradient, synced
    twice. *)
Lemma C8_hyperparameter_sync_idempotent_witness :
  exists s h s1 h1 s2 h2,
    scenario_with_grads (scenario_defaults PyFloat.f0_5 true true) heap0
      = (inr s, h) /\
    _sync_hdo_param_groups_to_sub_optimizers s h = (inr s1, h1) /\
    _sync_hdo_param_groups_to_sub_optimizers s1 h1 = (inr s2, h2) /\
    cpu_optimizers s2 = cpu_optimizers s1 /\
    gpu_optimizer s2 = gpu_optimizer s1.
Proof.
  destruct (returns_with_spec
              (let* s := scenario_with_grads
                           (scenario_defaults PyFloat.f0_5 true true) in
               _sync_hdo_param_groups_to_sub_optimizers s)
              heap0 (fun _ _ => true) ltac:(vm_compute; reflexivity))
    as (s1 & h1 & Hrun & _).
  apply bind_inr in Hrun as (s & h & Hprep & Hsync).
  destruct (C8_hyperparameter_sync_idempotent s s1 h h1 Hsync)
    as (_ & (s2 & h2 & Hrun2) & Hsame).
  exists s, h, s1, h1, s2, h2.
  destruct (Hsame _ _ _ Hrun2) as (_ & Hcpus & Hgpu & _).
  split; [exact Hprep|]. split; [exact Hsync|]. split; [exact Hrun2|].
  split; [exact Hcpus|exact Hgpu].
Defined.

(** ** Gradient staging when the device parameter has no gradient *)

Lemma stage_param_with_grad (c2g : gmap positive Tensor) (pin : bool)
    (bufs : gmap positive Tensor) (p gpu g : Tensor) (h : Heap) :
  c2g !! tid p = Some gpu -> grad h !! tid gpu = Some g ->
  exists bufs' h' buf,
    stage_param c2g pin bufs p h = (inr bufs', h') /\
    match bufs !! tid p with
    | Some b => buf = b /\ bufs' = bufs
    | None =>
        buf = {| tid := next_tid h; numel := numel g;
                 is_cuda := false; pinned := pin |} /\
        bufs' = <[tid p := buf]> bufs
    end /\
    grad h' !! tid p = Some buf /\
    requires_grad h' !! tid p = Some true.
Proof.
  intros Hgpu Hg.
  unfold stage_param, bind, getitem, get_grad, hasattr_grad, set_grad,
    set_requires_grad, ret.
  rewrite Hgpu. simpl.
  destruct (bufs !! tid p) as [b|] eqn:Hb; simpl.
  - rewrite Hg, Hb. simpl. eexists _, _, b. split; [done|]. simpl.
    by rewrite !lookup_insert_eq.
  - rewrite Hg. simpl. rewrite Hg, lookup_insert_eq. simpl.
    eexists _, _, _. split; [done|]. simpl.
    by rewrite !lookup_insert_eq.
Qed.

Lemma stage_param_without_grad (c2g : gmap positive Tensor) (pin : bool)
    (bufs : gmap positive Tensor) (p gpu : Tensor) (h : Heap) :
  c2g !! tid p = Some gpu -> grad h !! tid gpu = None ->
  stage_param c2g pin bufs p h
  = (inl match bufs !! tid p with
         | Some _ => TypeError
         | None => AttributeError
         end, h).
Proof.
  intros Hgpu Hg.
  unfold stage_param, bind, getitem, get_grad, hasattr_grad, ret, raise.
  rewrite Hgpu. simpl.
  destruct (bufs !! tid p) as [b|]; simpl; by rewrite Hg.
Qed.

(** A staging loop that returns never sets the gradient of a tensor
    that is not a host shadow. *)
Lemma stage_params_keep_none (c2g : gmap positive Tensor) (pin : bool)
    (k : positive) (ps : list Tensor) :
  c2g !! k = None ->
  forall bufs h bufs' h',
    grad h !! k = None ->
    foldM (stage_param c2g pin) bufs ps h = (inr bufs', h') ->
    grad h' !! k = None.
Proof.
  intros Hk. induction ps as [|q ps IH]; intros bufs h bufs' h' Hg Hrun;
    simpl in Hrun.
  - by injection Hrun as <- <-.
  - apply bind_inr in Hrun as (bufs1 & h1 & Hq & Hrest).
    apply stage_param_inr in Hq as (gq & g & buf & Hgq & _ & _ & _ & Hgr).
    eapply IH; [|exact Hrest].
    rewrite Hgr, lookup_insert_ne; [done|]. intros Heq. congruence.
Qed.

Lemma stage_params_without_grad (c2g : gmap positive Tensor) (pin : bool)
    (p gpu : Tensor) (ps : list Tensor) :
  p ∈ ps -> c2g !! tid p = Some gpu -> c2g !! tid gpu = None ->
  forall bufs h bufs' h',
    grad h !! tid gpu = None ->
    foldM (stage_param c2g pin) bufs ps h <> (inr bufs', h').
Proof.
  intros Hp Hgpu Hnot.
  induction ps as [|q ps IH]; intros bufs h bufs' h' Hg Hrun.
  - by apply elem_of_nil in Hp.
  - simpl in Hrun. apply bind_inr in Hrun as (bufs1 & h1 & Hq & Hrest).
    apply elem_of_cons in Hp as [<-|Hp].
    + by rewrite (stage_param_without_grad _ _ _ _ _ _ Hgpu Hg) in Hq.
    + apply (IH Hp bufs1 h1 bufs' h'); [|done].
      apply stage_param_inr in Hq as (gq & g & buf & Hgq & _ & _ & _ & Hgr).
      rewrite Hgr, lookup_insert_ne; [done|]. intros Heq. congruence.
Qed.

Lemma sync_cpu_optimizers_without_grad (s : HDO)
    (idx : gmap positive (nat * nat)) (o : SubOptimizer) (p gpu : Tensor)
    (os : list SubOptimizer) :
  o ∈ os -> p ∈ group_params (opt_param_groups o) ->
  cpu_copys_map_gpu_param s !! tid p = Some gpu ->
  cpu_copys_map_gpu_param s !! tid gpu = None ->
  forall acc h acc' h',
    grad h !! tid gpu = None ->
    foldM (sync_cpu_optimizer s idx) acc os h <> (inr acc', h').
Proof.
  intros Ho Hp Hgpu Hnot.
  induction os as [|o' os IH]; intros acc h acc' h' Hg Hrun.
  - by apply elem_of_nil in Ho.
  - simpl in Hrun. apply bind_inr in Hrun as (acc1 & h1 & Hsync & Hrest).
    unfold sync_cpu_optimizer in Hsync.
    apply bind_inr in Hsync as (gs' & h2 & Hgs & Hsync).
    apply bind_inr in Hsync as (bufs & h3 & Hst & [= <- <-]).
    apply sync_groups_inr in Hgs as (-> & _).
    apply elem_of_cons in Ho as [<-|Ho].
    + by eapply stage_params_without_grad in Hst.
    + eapply (IH Ho _ h3 acc' h'); [|exact Hrest].
      by eapply stage_params_keep_none in Hst.
Qed.

(** C5.  The staging step for a host parameter [p] of a host
    sub-optimizer, shadow of the device parameter [gpu].  When [gpu]
    has a gradient, the step returns: the host gradient buffer of [p]
    is the one already there, or else a new host tensor of the shape of
    the gradient; it becomes the gradient of [p], and [p] requires
    gradient.  When [gpu] has no gradient, the step raises and leaves
    the heap as it was, so [p] is not marked: [AttributeError] when
    [p] has no buffer yet, [TypeError] when it has one.  Hence the
    pre-step hook raises whenever such a [gpu], not itself a shadow,
    has no gradient. *)
Theorem C5_gradient_staging (s : HDO) (o : SubOptimizer) (p gpu : Tensor) :
  o ∈ cpu_optimizers s ->
  p ∈ group_params (opt_param_groups o) ->
  cpu_copys_map_gpu_param s !! tid p = Some gpu ->
  (forall bufs h,
     match grad h !! tid gpu with
     | Some g =>
         exists bufs' h' buf,
           stage_param (cpu_copys_map_gpu_param s) (pin_cpu_grads (defaults s))
             bufs p h = (inr bufs', h') /\
           match bufs !! tid p with
           | Some b => buf = b /\ bufs' = bufs
           | None =>
               buf = {| tid := next_tid h; numel := numel g;
                        is_cuda := false;
                        pinned := pin_cpu_grads (defaults s) |} /\
               bufs' = <[tid p := buf]> bufs
           end /\
           grad h' !! tid p = Some buf /\
           requires_grad h' !! tid p = Some true
     | None =>
         stage_param (cpu_copys_map_gpu_param s) (pin_cpu_grads (defaults s))
           bufs p h
         = (inl match bufs !! tid p with
                | Some _ => TypeError
                | None => AttributeError
                end, h)
     end) /\
  (forall h,
     grad h !! tid gpu = None ->
     cpu_copys_map_gpu_param s !! tid gpu = None ->
     exists e h', pre_step_hook s h = (inl e, h')).
Proof.
  intros Ho Hp Hgpu. split.
  - intros bufs h. destruct (grad h !! tid gpu) as [g|] eqn:Hg.
    + by apply (stage_param_with_grad _ _ _ _ gpu).
    + by apply (stage_param_without_grad _ _ _ _ gpu).
  - intros h Hg Hnot.
    destruct (pre_step_hook s h) as [[e|s1] h1] eqn:Hrun; [by eauto|].
    unfold pre_step_hook, _sync_hdo_param_groups_to_sub_optimizers in Hrun.
    apply bind_inr in Hrun as (acc & h2 & Hcpus & _).
    by eapply sync_cpu_optimizers_without_grad in Hcpus.
Qed.

Lemma first_host_param_Some (s : HDO) (o : SubOptimizer) (p gpu : Tensor) :
  first_host_param s = Some (o, p, gpu) ->
  o ∈ cpu_optimizers s /\ p ∈ group_params (opt_param_groups o) /\
  cpu_copys_map_gpu_param s !! tid p = Some gpu.
Proof.
  unfold first_host_param. intros H.
  destruct (cpu_optimizers s) as [|o' os]; [done|]. simpl in H.
  destruct (group_params (opt_param_groups o')) as [|p' ps] eqn:Hps; [done|].
  simpl in H.
  destruct (cpu_copys_map_gpu_param s !! tid p') as [gpu'|] eqn:Hgpu; [|done].
  injection H as -> -> ->. rewrite Hps. split_and!; [left|left|done].
Qed.

(** A run of [C5_gradient_staging]: the scenario at fraction 0.5,
    freshly constructed, so that no parameter has a gradient; the
    staging of the first host parameter and the pre-step hook both
    raise [AttributeError]. *)
Lemma C5_gradient_staging_witness :
  exists s h o p gpu h',
    HybridDeviceOptimizer_init (Flat scenario_params)
      (scenario_defaults PyFloat.f0_5 false true) heap0 = (inr s, h) /\
    first_host_param s = Some (o, p, gpu) /\
    grad h !! tid gpu = None /\
    cpu_copys_map_gpu_param s !! tid gpu = None /\
    stage_param (cpu_copys_map_gpu_param s) (pin_cpu_grads (defaults s))
      ∅ p h = (inl AttributeError, h) /\
    pre_step_hook s h = (inl AttributeError, h').
Proof.
  destruct (returns_with_spec
              (HybridDeviceOptimizer_init (Flat scenario_params)
                 (scenario_defaults PyFloat.f0_5 false true)) heap0
              (fun s h =>
                 match first_host_param s with
                 | Some (o, p, gpu) =>
                     without_grad s h gpu
                     && raises_with (pre_step_hook s) h
                          (fun e _ => is_AttributeError e)
                 | None => false
                 end)
              ltac:(vm_compute; reflexivity))
    as (s & h & Hrun & Hcheck).
  destruct (first_host_param s) as [[[o p] gpu]|] eqn:Hfirst;
    [|discriminate Hcheck].
  apply andb_prop in Hcheck as [Hcheck Hraises].
  unfold without_grad in Hcheck.
  apply andb_prop in Hcheck as [Hg Hnot].
  apply bool_decide_eq_true_1 in Hg, Hnot.
  destruct (first_host_param_Some s o p gpu Hfirst) as (Ho & Hp & Hgpu).
  destruct (C5_gradient_staging s o p gpu Ho Hp Hgpu) as [Hstage Hhook].
  destruct (Hhook h Hg Hnot) as (e & h' & Hraise).
  exists s, h, o, p, gpu, h'.
  split; [exact Hrun|]. split; [exact Hfirst|].
  split; [exact Hg|]. split; [exact Hnot|]. split.
  - specialize (Hstage ∅ h). rewrite Hg in Hstage. exact Hstage.
  - unfold raises_with in Hraises. rewrite Hraise in Hraises.
    destruct e; try discriminate Hraises. exact Hraise.
Defined.

(** ** [dummy_step] *)

Lemma assign_grads_run (ps : list Tensor) :
  forall h,
  exists h',
    foldM (fun (_ : unit) param =>
             let* g := randn_like param in
             set_grad param (Some g)) tt ps h = (inr tt, h') /\
    grads_kept h h' /\
    forall p, p ∈ ps -> is_Some (grad h' !! tid p).
Proof.
  induction ps as [|q ps IH]; intros h; simpl.
  - exists h. split_and!; [done|apply grads_kept_refl|].
    intros p Hp. by apply elem_of_nil in Hp.
  - unfold bind at 1. unfold randn_like, new_tensor, bind, alloc,
      set_requires_grad, set_grad, ret. simpl.
    match goal with |- context [foldM _ tt ps ?h1] =>
      destruct (IH h1) as (h' & Hrun & Hkept & Hall); exists h'
    end.
    split_and!.
    + exact Hrun.
    + eapply grads_kept_trans; [|exact Hkept].
      by eapply grads_kept_insert.
    + intros p [->|Hp]%elem_of_cons; [|by apply Hall].
      apply Hkept. simpl. rewrite lookup_insert_eq. eauto.
Qed.

Lemma opt_step_run (rule : StepRule) (o : SubOptimizer) (h : Heap) :
  opt_step rule o h
  = (inr (set_opt_state o
            (rule (opt_cls o) (opt_param_groups o) (grad h) (opt_state o))), h).
Proof. done. Qed.

Lemma step_cpu_optimizers_run (rule : StepRule) (os : list SubOptimizer)
    (h : Heap) :
  forall acc : list SubOptimizer * gmap nat Event,
  exists acc',
    foldM (fun (acc : list SubOptimizer * gmap nat Event) cpu_optimizer =>
             let evs := delete (opt_id cpu_optimizer) acc.2 in
             let* o' := opt_step rule cpu_optimizer in
             ret (acc.1 ++ [o'], evs)) acc os h = (inr acc', h) /\
    exists os', acc'.1 = acc.1 ++ os' /\
      (fun o => group_params (opt_param_groups o)) <$> os'
      = (fun o => group_params (opt_param_groups o)) <$> os.
Proof.
  induction os as [|o os IH]; intros acc; simpl.
  - exists acc. split; [done|]. exists []. by rewrite app_nil_r.
  - unfold bind at 1. unfold bind at 1. rewrite opt_step_run. unfold ret at 1.
    match goal with |- context [foldM _ ?a os h] =>
      destruct (IH a) as (acc' & Hrun & os' & Hos & Hparams)
    end.
    exists acc'. split; [exact Hrun|]. simpl in Hos.
    eexists (_ :: os'). rewrite Hos, <- (assoc_L (++)). split; [done|].
    rewrite !fmap_cons, Hparams. done.
Qed.

Lemma step_run (rule : StepRule) (s : HDO) (h : Heap) :
  exists s', step rule s h = (inr s', h) /\
    sub_optimizer_params s' = sub_optimizer_params s.
Proof.
  unfold step.
  destruct (step_cpu_optimizers_run rule (cpu_optimizers s) h
              ([], _cpu_optimizer_map_data_event s))
    as (acc' & Hrun & os' & Hos & Hparams). simpl in Hos.
  destruct (gpu_optimizer s) as [o|] eqn:Hgpu.
  - unfold bind at 1. unfold bind at 1. rewrite opt_step_run. unfold ret at 1.
    erewrite bind_run; [|exact Hrun]. eexists. split; [done|].
    unfold sub_optimizer_params, sub_optimizers. simpl.
    rewrite Hgpu, Hos, !fmap_app, Hparams. done.
  - unfold bind at 1. unfold ret at 1.
    erewrite bind_run; [|exact Hrun]. eexists. split; [done|].
    unfold sub_optimizer_params, sub_optimizers. simpl.
    rewrite Hgpu, Hos, Hparams. done.
Qed.

Lemma sync_cpu_optimizers_params (s : HDO) (idx : gmap positive (nat * nat))
    (os : list SubOptimizer) :
  forall acc h acc' h',
    foldM (sync_cpu_optimizer s idx) acc os h = (inr acc', h') ->
    grads_kept h h' /\
    exists os', acc'.1.1 = acc.1.1 ++ os' /\
      (fun o => group_params (opt_param_groups o)) <$> os'
      = (fun o => group_params (opt_param_groups o)) <$> os.
Proof.
  induction os as [|o os IH]; intros acc h acc' h' Hrun; simpl in Hrun.
  - injection Hrun as <- <-. split; [apply grads_kept_refl|].
    exists []. by rewrite app_nil_r.
  - apply bind_inr in Hrun as (acc1 & h1 & Ho & Hrest).
    apply sync_cpu_optimizer_inr in Ho
      as (gs' & _ & _ & Hparams & Hos & _ & Hkept & _).
    apply IH in Hrest as (Hkept' & os' & Hos' & Hparams').
    split; [by eapply grads_kept_trans|].
    exists (set_opt_param_groups o gs' :: os').
    rewrite Hos', Hos, <- (assoc_L (++)). split; [done|].
    rewrite !fmap_cons, Hparams'. simpl. by rewrite Hparams.
Qed.

Lemma sync_gpu_optimizer_params (s : HDO) (idx : gmap positive (nat * nat))
    (o o' : SubOptimizer) (h h' : Heap) :
  sync_gpu_optimizer s idx o h = (inr o', h') ->
  h' = h /\
  group_params (opt_param_groups o') = group_params (opt_param_groups o).
Proof.
  unfold sync_gpu_optimizer. intros Hrun.
  apply bind_inr in Hrun as (gs' & h1 & Hgs & [= <- <-]).
  apply sync_groups_inr in Hgs as (-> & gs'' & Heq & Hall).
  simpl in Heq. subst gs''. split; [done|]. simpl.
  by eapply synced_groups_params.
Qed.

(** The sync loses no gradient and leaves every sub-optimizer its
    parameters. *)
Lemma sync_params (s s1 : HDO) (h h1 : Heap) :
  _sync_hdo_param_groups_to_sub_optimizers s h = (inr s1, h1) ->
  grads_kept h h1 /\ sub_optimizer_params s1 = sub_optimizer_params s.
Proof.
  unfold _sync_hdo_param_groups_to_sub_optimizers. intros Hrun.
  apply bind_inr in Hrun as (acc & h2 & Hcpus & Hrun).
  apply bind_inr in Hrun as (gpu & h3 & Hgpu & [= <- <-]).
  apply sync_cpu_optimizers_params in Hcpus as (Hkept & os' & Hos & Hparams).
  simpl in Hos. unfold sub_optimizer_params, sub_optimizers. simpl.
  destruct (gpu_optimizer s) as [o|].
  - apply bind_inr in Hgpu as (o' & h4 & Ho & [= <- <-]).
    apply sync_gpu_optimizer_params in Ho as [-> Ho].
    split; [done|]. rewrite Hos, !fmap_app, Hparams. simpl. by rewrite Ho.
  - injection Hgpu as <- <-. split; [done|]. by rewrite Hos, Hparams.
Qed.

(** [zero_grad] on the parameters [ps] of one sub-optimizer. *)
Lemma zero_params_run (ps : list Tensor) :
  forall h,
  exists h',
    foldM (fun (_ : unit) p =>
             let* g := get_grad p in
             match g with
             | None => ret tt
             | Some g' => set_grad p None
             end) tt ps h = (inr tt, h') /\
    (forall k, k ∈ tid <$> ps -> grad h' !! k = None) /\
    (forall k, k ∉ tid <$> ps -> grad h' !! k = grad h !! k).
Proof.
  induction ps as [|p ps IH]; intros h; simpl.
  - exists h. split_and!; [done| |done].
    intros k Hk. by apply elem_of_nil in Hk.
  - unfold bind at 1. unfold get_grad at 1. unfold bind at 1.
    set (h1 := (match grad h !! tid p with
                | Some _ => set_grad p None
                | None => ret tt
                end h).2).
    assert (Hstep : match grad h !! tid p with
                    | Some _ => set_grad p None
                    | None => ret tt
                    end h = (inr tt, h1)).
    { subst h1. by destruct (grad h !! tid p). }
    assert (Hh1 : forall k, grad h1 !! k
                  = if decide (k = tid p) then None else grad h !! k).
    { intros k. subst h1. destruct (grad h !! tid p) eqn:Hg; simpl.
      - destruct (decide (k = tid p)) as [->|Hne].
        + by rewrite lookup_delete_eq.
        + by rewrite lookup_delete_ne.
      - destruct (decide (k = tid p)) as [->|Hne]; done. }
    rewrite Hstep. destruct (IH h1) as (h' & Hrun & Hin & Hout).
    exists h'. split_and!; [exact Hrun| |].
    + intros k Hk. destruct (decide (k ∈ tid <$> ps)) as [Hk'|Hk'].
      * by apply Hin.
      * rewrite (Hout k Hk'), Hh1.
        apply elem_of_cons in Hk as [->|Hk]; [|done].
        by rewrite decide_True.
    + intros k Hk. apply not_elem_of_cons in Hk as [Hne Hk].
      rewrite (Hout k Hk), Hh1. by rewrite decide_False.
Qed.

(** [zero_grad(set_to_none=True)] returns; it clears the gradient of the
    parameters of the sub-optimizers and of no other tensor. *)
Lemma zero_grad_run (s : HDO) (h : Heap) :
  exists h',
    zero_grad true s h = (inr tt, h') /\
    (forall k, k ∈ tid <$> sub_optimizer_params s -> grad h' !! k = None) /\
    (forall k, k ∉ tid <$> sub_optimizer_params s ->
       grad h' !! k = grad h !! k).
Proof.
  unfold zero_grad, sub_optimizer_params.
  generalize (sub_optimizers s) as os. intros os. revert h.
  induction os as [|o os IH]; intros h; simpl.
  - exists h. split_and!; [done| |done].
    intros k Hk. by apply elem_of_nil in Hk.
  - destruct (zero_params_run (group_params (opt_param_groups o)) h)
      as (h1 & Hrun & Hin & Hout).
    unfold opt_zero_grad at 1. erewrite bind_run; [|exact Hrun].
    destruct (IH h1) as (h' & Hrest & Hin' & Hout').
    exists h'. rewrite fmap_app. split_and!; [exact Hrest| |].
    + intros k Hk.
      destruct (decide (k ∈ tid <$>
                  concat ((fun o => group_params (opt_param_groups o)) <$> os)))
        as [Hk'|Hk'].
      * by apply Hin'.
      * rewrite (Hout' k Hk'). apply Hin.
        apply elem_of_app in Hk as [Hk|Hk]; done.
    + intros k Hk. apply not_elem_of_app in Hk as [Hk1 Hk2].
      by rewrite (Hout' k Hk2), (Hout k Hk1).
Qed.

(** C9.  A [dummy_step] that returns leaves the
    sub-optimizers their parameters and clears the gradient of each of
    them, and of no other tensor: a parameter of the unified groups that
    no sub-optimizer holds (an offloaded device parameter, of which the
    host sub-optimizer holds the shadow) keeps the placeholder gradient
    it has been assigned. *)
Theorem C9_dummy_step_gradients (rule : StepRule) (s s' : HDO) (h h' : Heap) :
  dummy_step rule s h = (inr s', h') ->
  sub_optimizer_params s' = sub_optimizer_params s /\
  (forall p, p ∈ sub_optimizer_params s -> grad h' !! tid p = None) /\
  (forall p, p ∈ group_params (param_groups s) ->
     tid p ∉ tid <$> sub_optimizer_params s ->
     is_Some (grad h' !! tid p)).
Proof.
  unfold dummy_step. intros Hrun.
  apply bind_inr in Hrun as ([] & h1 & Hassign & Hrun).
  apply bind_inr in Hrun as (s3 & h2 & Hstep & Hrun).
  apply bind_inr in Hrun as ([] & h3 & Hzero & [= <- <-]).
  unfold step_with_hooks, pre_step_hook, post_step_hook in Hstep.
  apply bind_inr in Hstep as (s1 & h4 & Hsync & Hstep).
  apply bind_inr in Hstep as (s2 & h5 & Hstep & [= <- <-]).
  apply sync_params in Hsync as [Hkept Hp1].
  destruct (step_run rule s1 h4) as (s2' & Hstep' & Hp2).
  rewrite Hstep' in Hstep. injection Hstep as <- <-.
  destruct (assign_grads_run (group_params (param_groups s)) h)
    as (h1' & Hassign' & _ & Hgrads).
  unfold assign_dummy_grads in Hassign. rewrite Hassign' in Hassign.
  injection Hassign as <-.
  destruct (zero_grad_run (_sync_sub_optimizers_state_to_hdo s2') h4)
    as (h3' & Hzero' & Hin & Hout).
  rewrite Hzero' in Hzero. injection Hzero as <-.
  assert (Hp3 : sub_optimizer_params (_sync_sub_optimizers_state_to_hdo s2')
                = sub_optimizer_params s).
  { transitivity (sub_optimizer_params s2'); [done|]. by rewrite Hp2. }
  rewrite Hp3 in Hin, Hout. split_and!.
  - exact Hp3.
  - intros p Hp. apply Hin. by apply list_elem_of_fmap_2.
  - intros p Hp Hnot. rewrite (Hout _ Hnot). by apply Hkept, Hgrads.
Qed.
(** A run of [C9_dummy_step_gradients]: the scenario at fraction 0.5
    (the first two parameters offloaded), freshly constructed;
    [dummy_step] returns, the unified state holds an entry for each of
    the four parameters, and the first parameter still has the
    placeholder gradient. *)
Lemma C9_dummy_step_gradients_witness :
  exists s h s' h',
    HybridDeviceOptimizer_init (Flat scenario_params)
      (scenario_defaults PyFloat.f0_5 false true) heap0 = (inr s, h) /\
    dummy_step momentum_step s h = (inr s', h') /\
    dummy_step_check s s' = true /\
    is_Some (grad h' !! tid (cuda_param 1 100)).
Proof.
  destruct (returns_with_spec
              (let* s := HybridDeviceOptimizer_init (Flat scenario_params)
                           (scenario_defaults PyFloat.f0_5 false true) in
               let* s' := dummy_step momentum_step s in
               ret (s, s'))
              heap0 (fun ss _ => dummy_step_check ss.1 ss.2)
              ltac:(vm_compute; reflexivity))
    as ([s0 s0'] & h' & Hrun & Hcheck).
  apply bind_inr in Hrun as (s & h & Hinit & Hrun).
  apply bind_inr in Hrun as (s' & h1 & Hdummy & Hret).
  injection Hret as <- <- <-. simpl in Hcheck.
  exists s, h, s', h1.
  split; [exact Hinit|]. split; [exact Hdummy|]. split; [exact Hcheck|].
  unfold dummy_step_check in Hcheck.
  apply andb_prop in Hcheck as [Hcheck Hnot].
  apply andb_prop in Hcheck as [_ Hin].
  apply bool_decide_eq_true_1 in Hin, Hnot.
  destruct (C9_dummy_step_gradients momentum_step s s' h h1 Hdummy)
    as (_ & _ & Hkeeps).
  exact (Hkeeps _ Hin Hnot).
Defined.

(** ** More on the partitioner *)

Lemma elem_of_concat {A} (x : A) (ls : list (list A)) :
  x ∈ concat ls <-> exists l, l ∈ ls /\ x ∈ l.
Proof.
  induction ls as [|l ls IH]; simpl.
  - split; [by intros ?%elem_of_nil|]. intros (l & Hl & _).
    by apply elem_of_nil in Hl.
  - rewrite elem_of_app, IH. split.
    + intros [Hx|(l' & Hl' & Hx)]; [exists l|exists l']; set_solver.
    + intros (l' & [->|Hl']%elem_of_cons & Hx); [by left|right; eauto].
Qed.





(** ** When the partitioner returns *)

Lemma make_cpu_copy_cuda (pin : bool) (p : Tensor) (h : Heap) :
  is_cuda p = true ->
  exists c h',
    make_cpu_copy pin p h = (inr c, h') /\
    is_cuda c = false /\ pinned c = pin /\ numel c = numel p /\
    (next_tid h <= tid c)%positive /\ (tid c < next_tid h')%positive /\
    (next_tid h <= next_tid h')%positive /\
    requires_grad h' !! tid c = Some true /\
    (forall k, (k < next_tid h)%positive ->
       requires_grad h' !! k = requires_grad h !! k).
Proof.
  intros Hcuda.
  unfold make_cpu_copy, detach, to_cpu, pin_memory, new_tensor, bind, alloc,
    set_requires_grad, ret. simpl. rewrite Hcuda. simpl.
  destruct pin; simpl; eexists _, _; (split; [reflexivity|]); simpl;
    (split_and!; [done|done|done|lia|lia|lia|by rewrite lookup_insert_eq|]);
    intros k Hk; rewrite !lookup_insert_ne by lia; done.
Qed.

(** The second loop invariant of the walk: what the shadows are, and
    that the heap below the allocator's mark is left alone. *)
Lemma walk_shadows (pin : bool) (thr : spec_float) (l : list Tensor) :
  forall h h' w,
    walk pin thr l h = (inr w, h') ->
    (next_tid h <= next_tid h')%positive /\
    Forall (fun c =>
              is_cuda c = false /\ pinned c = pin /\
              (next_tid h <= tid c < next_tid h')%positive /\
              requires_grad h' !! tid c = Some true /\
              exists p, p ∈ l /\ w_cpu_copys_map_gpu_param w !! tid c = Some p /\
                        numel c = numel p /\ is_cuda p = true)
           (w_cpu_params w) /\
    (forall k, (k < next_tid h)%positive ->
       requires_grad h' !! k = requires_grad h !! k) /\
    (forall i p, l !! i = Some p -> host_at thr l i = true -> is_cuda p = true).
Proof.
  induction l as [|q l IH] using rev_ind; intros h h' w Hrun.
  - rewrite walk_nil in Hrun. injection Hrun as <- <-.
    split_and!; [lia|by constructor|done|done].
  - pose proof (walk_spec _ _ _ _ _ _ Hrun) as Hinv'.
    apply walk_snoc_inr in Hrun as (w1 & h1 & Hwalk & Hvisit).
    pose proof (walk_spec _ _ _ _ _ _ Hwalk)
      as (_ & _ & _ & Hrange & _ & _ & _ & Hnum & _).
    destruct (IH _ _ _ Hwalk) as (Hnext & Hall & Hframe & Hcuda).
    assert (Hhost : forall i p, (l ++ [q]) !! i = Some p ->
              host_at thr (l ++ [q]) i = true ->
              (i < length l)%nat \/
              (p = q /\ PyFloat.int_le
                          (w_offloaded_params_numel w1 + Z.of_N (numel q)) thr
                        = true)).
    { intros i p Hi Hat.
      destruct (decide (i < length l)%nat) as [Hlt|Hge]; [by left|right].
      apply lookup_lt_Some in Hi as Hlen. rewrite length_app in Hlen.
      simpl in Hlen. assert (i = length l) as -> by lia.
      rewrite list_lookup_middle in Hi by done. injection Hi as <-.
      rewrite host_at_last in Hat. by rewrite Hnum. }
    apply visit_inr in Hvisit
      as [(Hle & Hq & c & Hcopy & ->)|(Hle & -> & ->)]; simpl.
    + destruct (make_cpu_copy_cuda pin q h1 Hq)
        as (c' & h2 & Hcopy' & Hc1 & Hc2 & Hc3 & Hc4 & Hc5 & Hc6 & Hc7 & Hc8).
      rewrite Hcopy' in Hcopy. injection Hcopy as <- <-.
      split_and!.
      * lia.
      * apply Forall_app. split.
        -- eapply Forall_impl; [exact Hall|]. simpl.
           intros c (Hd1 & Hd2 & Hd3 & Hd4 & p & Hp & Hmap & Hd5 & Hd6).
           split_and!; [done|done|lia|lia| |].
           ++ rewrite Hc8 by lia. done.
           ++ exists p. split_and!; [set_solver| |done|done].
              rewrite lookup_insert_ne; [done|]. lia.
        -- constructor; [|done]. split_and!; [done|done|lia|lia|done|].
           exists q. split_and!; [set_solver| |done|done].
           by rewrite lookup_insert_eq.
      * intros k Hk. rewrite Hc8 by lia. by apply Hframe.
      * intros i p Hi Hat.
        destruct (Hhost i p Hi Hat) as [Hlt|[-> _]]; [|done].
        rewrite lookup_app_l in Hi by done.
        rewrite host_at_app in Hat by done. by eapply Hcuda.
    + split_and!; [done| |done|].
      * eapply Forall_impl; [exact Hall|]. simpl.
        intros c (Hd1 & Hd2 & Hd3 & Hd4 & p & Hp & Hmap & Hd5 & Hd6).
        split_and!; [done|done|lia|lia|done|].
        exists p. split_and!; [set_solver|done|done|done].
      * intros i p Hi Hat.
        destruct (Hhost i p Hi Hat) as [Hlt|[_ Hle']]; [|congruence].
        rewrite lookup_app_l in Hi by done.
        rewrite host_at_app in Hat by done. by eapply Hcuda.
Qed.

Lemma visit_raises (pin : bool) (thr : spec_float) (w : Walk) (p : Tensor) :
  raises_only (fun e => e = AssertionError "") (visit pin thr w p).
Proof.
  unfold visit. destruct (PyFloat.int_le _ thr).
  - apply raises_only_bind.
    + unfold assert_. destruct (is_cuda p).
      * apply raises_only_ret.
      * by apply raises_only_raise.
    + intros _. apply raises_only_bind; [apply make_cpu_copy_raises|].
      intros c. apply raises_only_ret.
  - apply raises_only_ret.
Qed.

(** X2.  The partitioner raises [OverflowError] when the total element
    count of a non-empty input is too large for a float.  Otherwise it
    returns exactly when every parameter that the prefix-sum rule
    sends to the host is device-resident, and the only exception it
    raises is the [AssertionError] of [assert param.is_cuda]. *)
Theorem split_outcome (pin : bool) (params : ParamsT) (f : spec_float)
    (h : Heap) :
  match offload_threshold (total_numel (flatten_params params)) f with
  | inr thr =>
      ((exists r h',
          _split_parameters_updated_on_the_cpu_and_gpu pin params f h
          = (inr r, h')) <->
       (forall i p, flatten_params params !! i = Some p ->
          host_at thr (flatten_params params) i = true -> is_cuda p = true)) /\
      (forall e h',
         _split_parameters_updated_on_the_cpu_and_gpu pin params f h
         = (inl e, h') -> e = AssertionError "")
  | inl _ =>
      if (params_len params =? 0)%nat then
        exists r, _split_parameters_updated_on_the_cpu_and_gpu pin params f h
                  = (inr r, h)
      else
        _split_parameters_updated_on_the_cpu_and_gpu pin params f h
        = (inl OverflowError, h)
  end.
Proof.
  destruct (offload_threshold _ f) as [e|thr] eqn:Hthr.
  - unfold _split_parameters_updated_on_the_cpu_and_gpu.
    destruct (params_len params =? 0)%nat; [by eexists|].
    unfold bind. rewrite Hthr. simpl.
    unfold offload_threshold in Hthr.
    destruct (PyFloat.of_int _); [done|]. by injection Hthr as <-.
  - split; [split|].
    + intros (r & h' & Hrun).
      apply split_inr in Hrun as [(Hlen & _ & _)|(_ & thr' & w & Hthr' & Hwalk & _)].
      * assert (flatten_params params = []) as ->; [|done].
        destruct params as [[|? ?]|[|? ?]]; done.
      * rewrite Hthr in Hthr'. injection Hthr' as <-.
        by apply walk_shadows in Hwalk as (_ & _ & _ & Hcuda).
    + intros Hcuda.
      destruct (walk_total pin thr (flatten_params params) h Hcuda)
        as (w & h' & Hwalk).
      unfold _split_parameters_updated_on_the_cpu_and_gpu.
      destruct (params_len params =? 0)%nat; [by eexists _, _|].
      unfold bind at 1. rewrite Hthr. simpl.
      rewrite (bind_run _ _ _ _ _ Hwalk).
      destruct params; by eexists _, _.
    + intros e h' Hrun. revert Hrun.
      unfold _split_parameters_updated_on_the_cpu_and_gpu.
      destruct (params_len params =? 0)%nat; [done|].
      unfold bind at 1. rewrite Hthr. simpl. intros Hrun.
      assert (Hr : raises_only (fun e => e = AssertionError "")
                (walk pin thr (flatten_params params))).
      { apply raises_only_foldM. intros w p. apply visit_raises. }
      unfold bind in Hrun.
      destruct (walk pin thr (flatten_params params) h) as [[e'|w] h1] eqn:Hwalk.
      * injection Hrun as <- <-. by eapply Hr.
      * by destruct params.
Qed.

(** The host tensors of a partition, and what the partitioning leaves
    alone. *)
Lemma split_host_tensors (pin : bool) (params : ParamsT) (f : spec_float)
    (h h' : Heap) (r : SplitResult) :
  _split_parameters_updated_on_the_cpu_and_gpu pin params f h = (inr r, h') ->
  (forall c, c ∈ host_set r ->
     is_cuda c = false /\ pinned c = pin /\
     (next_tid h <= tid c < next_tid h')%positive /\
     requires_grad h' !! tid c = Some true /\
     exists p, p ∈ flatten_params params /\
       r_cpu_copys_map_gpu_param r !! tid c = Some p /\
       numel c = numel p /\ is_cuda p = true) /\
  grad h' = grad h /\ n_optimizers h' = n_optimizers h /\
  (forall k, (k < next_tid h)%positive ->
     requires_grad h' !! k = requires_grad h !! k).
Proof.
  intros Hrun.
  apply split_inr in Hrun
    as [(Hlen & -> & ->)
       |(_ & thr & w & Hthr & Hwalk & Hg2c & Hc2g & Hparams)].
  - split_and!; try done. intros c Hc. by apply elem_of_nil in Hc.
  - pose proof (walk_spec _ _ _ _ _ _ Hwalk)
      as (_ & Hgrad & Hn & _ & _ & _ & _ & _ & _ & I10 & _).
    destruct (walk_shadows _ _ _ _ _ _ Hwalk) as (_ & Hall & Hframe & _).
    split_and!; try done.
    intros c Hc. rewrite Hc2g.
    assert (Hin : c ∈ w_cpu_params w).
    { unfold host_set in Hc. destruct params as [ps|gs].
      - destruct Hparams as [Hcp _]. by rewrite Hcp in Hc.
      - destruct Hparams as [Hcp _]. rewrite Hcp in Hc. simpl in Hc.
        destruct (regroup_spec (w_gpu_params_map_cpu_copy w) gs) as [Heq _].
        rewrite Heq in Hc. apply list_elem_of_omap in Hc as (p & _ & Hp).
        by apply I10 in Hp as [Hp _]. }
    rewrite Forall_forall in Hall. by apply Hall.
Qed.

(** X3.  What the shadows are.  When the partitioning completes,
    every host tensor is a new tensor (its identity was not allocated
    before) on the host, pinned exactly when [pin_cpu_params] is set,
    that requires gradient; the host-to-device table sends it to an
    input parameter that is device-resident and has as many elements.
    The partitioning leaves every gradient, and the [requires_grad]
    of every tensor allocated before, as they were. *)
Theorem split_shadows (pin : bool) (params : ParamsT) (f : spec_float)
    (h h' : Heap) (r : SplitResult) :
  _split_parameters_updated_on_the_cpu_and_gpu pin params f h = (inr r, h') ->
  (forall c, c ∈ host_set r ->
     is_cuda c = false /\ pinned c = pin /\
     (next_tid h <= tid c < next_tid h')%positive /\
     requires_grad h' !! tid c = Some true /\
     exists p, p ∈ flatten_params params /\
       r_cpu_copys_map_gpu_param r !! tid c = Some p /\
       numel c = numel p /\ is_cuda p = true) /\
  grad h' = grad h /\ n_optimizers h' = n_optimizers h /\
  (forall k, (k < next_tid h)%positive ->
     requires_grad h' !! k = requires_grad h !! k).
Proof.
  intros Hrun. by apply (split_host_tensors pin params f).
Qed.


(** A run of [split_shadows] on the scenario at fraction 0.5. *)
Lemma split_shadows_witness :
  exists r h' c,
    _split_parameters_updated_on_the_cpu_and_gpu true (Flat scenario_params)
      PyFloat.f0_5 heap0 = (inr r, h') /\
    head (host_set r) = Some c /\
    is_cuda c = false /\ pinned c = true /\ numel c = 100%N /\
    grad h' = grad heap0.
Proof.
  destruct (returns_with_spec
              (_split_parameters_updated_on_the_cpu_and_gpu true
                 (Flat scenario_params) PyFloat.f0_5) heap0
              (fun r _ =>
                 match head (host_set r) with
                 | Some c => (numel c =? 100)%N
                 | None => false
                 end)
              ltac:(vm_compute; reflexivity))
    as (r & h' & Hrun & Hcheck).
  destruct (head (host_set r)) as [c|] eqn:Hc; [|discriminate Hcheck].
  apply N.eqb_eq in Hcheck.
  destruct (split_shadows true (Flat scenario_params) PyFloat.f0_5 heap0 h' r
              Hrun) as (Hall & Hgrad & _).
  destruct (Hall c) as (Hc1 & Hc2 & _).
  { destruct (host_set r); [discriminate Hc|]. injection Hc as ->. left. }
  exists r, h', c. split; [exact Hrun|]. split; [exact Hc|].
  split; [exact Hc1|]. split; [exact Hc2|]. split; [exact Hcheck|exact Hgrad].
Defined.

(** ** The groups of a grouped input *)

Lemma regroup_groups (g2c : gmap positive Tensor) (gs : list ParamGroup) :
  Forall (fun g =>
            g_params g <> [] /\
            exists g0, g0 ∈ gs /\
              g_hypers g = delete sub_optimizer_attrs_key (g_hypers g0) /\
              g_params g = omap (fun p => g2c !! tid p) (g_params g0))
         (regroup g2c gs).1 /\
  Forall (fun g =>
            g_params g <> [] /\
            exists g0, g0 ∈ gs /\
              g_hypers g = delete sub_optimizer_attrs_key (g_hypers g0) /\
              g_params g = filter (fun p => g2c !! tid p = None) (g_params g0))
         (regroup g2c gs).2.
Proof.
  induction gs as [|g gs IH] using rev_ind; [by split; constructor|].
  destruct IH as [IH1 IH2]. rewrite regroup_snoc. unfold regroup_step.
  rewrite regroup_params_spec. simpl. split.
  - assert (Hold : Forall (fun g' =>
              g_params g' <> [] /\
              exists g0, g0 ∈ gs ++ [g] /\
                g_hypers g' = delete sub_optimizer_attrs_key (g_hypers g0) /\
                g_params g' = omap (fun p => g2c !! tid p) (g_params g0))
             (regroup g2c gs).1).
    { eapply Forall_impl; [exact IH1|]. simpl.
      intros g' (Hne & g0 & Hg0 & Hhy & Hps). split; [done|].
      exists g0. split_and!; [set_solver|done|done]. }
    destruct (Nat.ltb_spec 0 (length (omap (fun p => g2c !! tid p) (g_params g))))
      as [Hlen|Hlen]; [|done].
    apply Forall_app. split; [done|]. constructor; [|done]. simpl. split.
    + intros Hnil. rewrite Hnil in Hlen. simpl in Hlen. lia.
    + exists g. split_and!; [set_solver|done|done].
  - assert (Hold : Forall (fun g' =>
              g_params g' <> [] /\
              exists g0, g0 ∈ gs ++ [g] /\
                g_hypers g' = delete sub_optimizer_attrs_key (g_hypers g0) /\
                g_params g'
                = filter (fun p => g2c !! tid p = None) (g_params g0))
             (regroup g2c gs).2).
    { eapply Forall_impl; [exact IH2|]. simpl.
      intros g' (Hne & g0 & Hg0 & Hhy & Hps). split; [done|].
      exists g0. split_and!; [set_solver|done|done]. }
    destruct (Nat.ltb_spec 0
                (length (filter (fun p => g2c !! tid p = None) (g_params g))))
      as [Hlen|Hlen]; [|done].
    apply Forall_app. split; [done|]. constructor; [|done]. simpl. split.
    + intros Hnil. rewrite Hnil in Hlen. simpl in Hlen. lia.
    + exists g. split_and!; [set_solver|done|done].
Qed.

(** X4.  The groups the partitioner returns for a non-empty list of
    groups.  Every host group and every device group is cut from one
    input group: it has that group's hyperparameters, without the key
    ["_param_sub_optimizer_attrs"], and holds the shadows of that
    group's offloaded parameters, respectively its parameters that are
    not offloaded, in order.  No group without parameters is
    returned. *)
Theorem split_groups (pin : bool) (gs : list ParamGroup) (f : spec_float)
    (h h' : Heap) (r : SplitResult) :
  _split_parameters_updated_on_the_cpu_and_gpu pin (Grouped gs) f h
  = (inr r, h') ->
  gs <> [] ->
  exists cg gg,
    r_cpu_params r = Grouped cg /\ r_gpu_params r = Grouped gg /\
    Forall (fun g =>
              g_params g <> [] /\
              g_hypers g !! sub_optimizer_attrs_key = None /\
              exists g0, g0 ∈ gs /\
                g_hypers g = delete sub_optimizer_attrs_key (g_hypers g0) /\
                g_params g
                = omap (fun p => r_gpu_params_map_cpu_copy r !! tid p)
                       (g_params g0)) cg /\
    Forall (fun g =>
              g_params g <> [] /\
              g_hypers g !! sub_optimizer_attrs_key = None /\
              exists g0, g0 ∈ gs /\
                g_hypers g = delete sub_optimizer_attrs_key (g_hypers g0) /\
                g_params g
                = filter (fun p => r_gpu_params_map_cpu_copy r !! tid p = None)
                         (g_params g0)) gg.
Proof.
  intros Hrun Hne.
  apply split_inr in Hrun
    as [(Hlen & _)|(_ & thr & w & _ & _ & Hg2c & _ & Hcg & Hgg)].
  { destruct gs; [done|]. simpl in Hlen. lia. }
  destruct (regroup_groups (w_gpu_params_map_cpu_copy w) gs) as [H1 H2].
  eexists _, _. split; [exact Hcg|]. split; [exact Hgg|]. rewrite Hg2c.
  split.
  - eapply Forall_impl; [exact H1|]. simpl.
    intros g (Hn & g0 & Hg0 & Hhy & Hps). split_and!; [done| |by eauto].
    rewrite Hhy. apply lookup_delete_eq.
  - eapply Forall_impl; [exact H2|]. simpl.
    intros g (Hn & g0 & Hg0 & Hhy & Hps). split_and!; [done| |by eauto].
    rewrite Hhy. apply lookup_delete_eq.
Qed.

(** A run of [split_groups]: the two groups of the scenario at
    fraction 0.5; the first group goes to the host as a whole and the
    second stays on the device. *)
Lemma split_groups_witness :
  exists r h' cg gg,
    _split_parameters_updated_on_the_cpu_and_gpu true (Grouped scenario_groups)
      PyFloat.f0_5 heap0 = (inr r, h') /\
    scenario_groups <> [] /\
    r_cpu_params r = Grouped cg /\ r_gpu_params r = Grouped gg /\
    Forall (fun g => g_params g <> []) (cg ++ gg) /\
    length cg = 1%nat /\ length gg = 1%nat.
Proof.
  destruct (returns_with_spec
              (_split_parameters_updated_on_the_cpu_and_gpu true
                 (Grouped scenario_groups) PyFloat.f0_5) heap0
              (fun r _ => (params_len (r_cpu_params r) =? 1)%nat
                          && (params_len (r_gpu_params r) =? 1)%nat)
              ltac:(vm_compute; reflexivity))
    as (r & h' & Hrun & Hcheck).
  apply andb_prop in Hcheck as [Hc%Nat.eqb_eq Hg%Nat.eqb_eq].
  assert (Hne : scenario_groups <> []) by discriminate.
  destruct (split_groups true scenario_groups PyFloat.f0_5 heap0 h' r Hrun Hne)
    as (cg & gg & Hcg & Hgg & Hall1 & Hall2).
  rewrite Hcg in Hc. rewrite Hgg in Hg.
  exists r, h', cg, gg.
  split; [exact Hrun|]. split; [exact Hne|]. split; [exact Hcg|].
  split; [exact Hgg|]. split; [|split; [exact Hc|exact Hg]].
  apply Forall_app. split.
  - eapply Forall_impl; [exact Hall1|]. intros g Hg'. exact (proj1 Hg').
  - eapply Forall_impl; [exact Hall2|]. intros g Hg'. exact (proj1 Hg').
Defined.

(** ** More on the construction of the sub-optimizers *)

Lemma build_entries_last (cls : OptimizerCls) (kw : gmap string PyVal)
    (E : list (Tensor * gmap string PyVal)) :
  forall h os m n h',
    foldM (build_entry cls kw) ([], ∅, []) E h = (inr (os, m, n), h') ->
    length os = length E /\
    forall i e, E !! i = Some e ->
      (forall j e', E !! j = Some e' -> tid e'.1 = tid e.1 -> (j <= i)%nat) ->
      m !! tid e.1 = Some i.
Proof.
  induction E as [|e0 E IH] using rev_ind; intros h os m n h' Hrun.
  - injection Hrun as <- <- <- <-. split; [done|]. intros i e Hi. done.
  - apply foldM_snoc_inr in Hrun as ([[os1 m1] n1] & h1 & Hrun & Hlast).
    rewrite build_entry_run in Hlast. simpl in Hlast.
    injection Hlast as <- <- <- <-.
    destruct (IH _ _ _ _ _ Hrun) as [Hlen Hroute].
    split; [rewrite !length_app, Hlen; done|].
    intros i e Hi Hmax.
    destruct (decide (i = length E)) as [->|Hne].
    + rewrite list_lookup_middle in Hi by done. injection Hi as <-.
      by rewrite lookup_insert_eq, Hlen.
    + assert (Hlt : (i < length E)%nat).
      { apply lookup_lt_Some in Hi. rewrite length_app in Hi. simpl in Hi. lia. }
      rewrite lookup_app_l in Hi by done.
      rewrite lookup_insert_ne.
      * apply Hroute; [done|]. intros j e' Hj Htid.
        apply (Hmax j e'); [|done]. by apply lookup_app_l_Some.
      * intros Heq. specialize (Hmax (length E) e0).
        rewrite list_lookup_middle in Hmax by done.
        specialize (Hmax eq_refl Heq). lia.
Qed.

(** The run of [build_cpu_optimizer_list]. *)
Lemma build_cpu_optimizer_list_run (cls : OptimizerCls)
    (cpu_params : ParamsT) (kw : gmap string PyVal) (h : Heap) :
  exists os m h',
    build_cpu_optimizer_list cls cpu_params kw h
    = (inr (os, m, replicate (length (flatten_params cpu_params)) 1%nat), h') /\
    length os = length (flatten_params cpu_params) /\
    (forall i c hy, host_entries cpu_params !! i = Some (c, hy) ->
       os !! i
       = Some (single_param_optimizer cls kw (n_optimizers h + i) c hy)) /\
    (forall k i, m !! k = Some i ->
       exists c, flatten_params cpu_params !! i = Some c /\ tid c = k) /\
    (forall i c, flatten_params cpu_params !! i = Some c ->
       (forall j c', flatten_params cpu_params !! j = Some c' ->
          tid c' = tid c -> (j <= i)%nat) ->
       m !! tid c = Some i) /\
    n_optimizers h' = (n_optimizers h + length (flatten_params cpu_params))%nat /\
    next_tid h' = next_tid h /\ grad h' = grad h /\
    requires_grad h' = requires_grad h.
Proof.
  rewrite build_cpu_optimizer_list_entries.
  destruct (build_entries_spec cls kw (host_entries cpu_params) h)
    as (os & m & h' & Hrun & Hos & Hm & _ & Hn & Ht & Hg & Hr).
  destruct (build_entries_last _ _ _ _ _ _ _ _ Hrun) as [Hlen Hlast].
  rewrite host_entries_length in Hrun, Hlen, Hn.
  exists os, m, h'. split_and!; try done.
  - intros i c hy Hi. by rewrite Hos, list_lookup_imap, Hi.
  - intros k i Hk. destruct (Hm _ _ Hk) as (e & He & Htid).
    exists e.1. split; [|done].
    by rewrite <- host_entries_fst, list_lookup_fmap, He.
  - intros i c Hi Hmax.
    rewrite <- host_entries_fst, list_lookup_fmap in Hi.
    destruct (host_entries cpu_params !! i) as [e|] eqn:He; [|done].
    injection Hi as <-. apply Hlast; [done|].
    intros j e' Hj Htid. apply (Hmax j e'.1); [|done].
    by rewrite <- host_entries_fst, list_lookup_fmap, Hj.
Qed.



(** ** The shape of a constructed optimizer *)

Lemma new_optimizer_inr (cls : OptimizerCls) (params : ParamsT)
    (kw : gmap string PyVal) (h h' : Heap) (o : SubOptimizer) :
  new_optimizer cls params kw h = (inr o, h') ->
  opt_id o = n_optimizers h /\ opt_cls o = cls /\ opt_state o = [] /\
  Optimizer_init params (kw ∪ cls_defaults cls) = inr (opt_param_groups o) /\
  h' = bump_optimizers h.
Proof.
  unfold new_optimizer. intros Hrun.
  apply bind_inr in Hrun as (gs & h1 & Hgs & Hrun).
  apply bind_inr in Hrun as (i & h2 & Hi & [= <- <-]).
  destruct (Optimizer_init params _) as [e|gs'] eqn:Hinit; [done|].
  injection Hgs as -> <-. injection Hi as <- <-. by split_and!.
Qed.

Lemma params_len_nonempty (p : ParamsT) :
  nonempty_groups p ->
  ((0 <? params_len p)%nat = true <-> flatten_params p <> []).
Proof.
  intros Hne. rewrite Nat.ltb_lt. destruct p as [ps|gs]; simpl.
  - destruct ps; simpl; [split; [lia|done]|split; [done|lia]].
  - destruct gs as [|g gs]; simpl; [split; [lia|done]|].
    split; [|lia]. intros _. rewrite group_params_cons.
    apply Forall_cons in Hne as [Hg _]. by destruct (g_params g).
Qed.

Lemma Optimizer_init_groups_nonempty (params : ParamsT)
    (df : gmap string PyVal) (gs : list ParamGroup) :
  Optimizer_init params df = inr gs -> nonempty_groups params ->
  Forall (fun g => g_params g <> []) gs.
Proof.
  intros Hinit Hne. apply Optimizer_init_inr in Hinit as [Hlen ->].
  destruct params as [ps|gs0]; simpl in *.
  - constructor; [|done]. simpl. by destruct ps.
  - by apply Forall_fmap.
Qed.

Lemma split_nonempty_groups (pin : bool) (params : ParamsT) (f : spec_float)
    (h h' : Heap) (r : SplitResult) :
  _split_parameters_updated_on_the_cpu_and_gpu pin params f h = (inr r, h') ->
  nonempty_groups (r_cpu_params r) /\ nonempty_groups (r_gpu_params r).
Proof.
  intros Hrun.
  apply split_inr in Hrun as [(_ & _ & ->)|(_ & thr & w & _ & _ & _ & _ & Hp)].
  - done.
  - destruct params as [ps|gs]; destruct Hp as [-> ->]; [done|].
    apply regroup_nonempty.
Qed.

Lemma single_param_optimizers_params (cls : OptimizerCls)
    (kw : gmap string PyVal) (E : list (Tensor * gmap string PyVal)) (n : nat) :
  concat ((fun o => group_params (opt_param_groups o))
            <$> imap (fun i e => single_param_optimizer cls kw (n + i) e.1 e.2) E)
  = E.*1.
Proof.
  revert n. induction E as [|e E IH] using rev_ind; intros n; [done|].
  rewrite imap_app, !fmap_app, concat_app, IH. simpl. reflexivity.
Qed.

(** What [_init_sub_optimizers] builds from the partition. *)
Lemma init_sub_optimizers_shape (d : Defaults) (groups : list ParamGroup)
    (st : gmap positive (gmap string PyVal)) (params : ParamsT) (h h' : Heap)
    (s : HDO) :
  _init_sub_optimizers d groups st params h = (inr s, h') ->
  exists r h1,
    _split_parameters_updated_on_the_cpu_and_gpu (pin_cpu_params d) params
      (offload_fraction d) h = (inr r, h1) /\
    cpu_params s = r_cpu_params r /\ gpu_params s = r_gpu_params r /\
    gpu_params_map_cpu_copy s = r_gpu_params_map_cpu_copy r /\
    cpu_copys_map_gpu_param s = r_cpu_copys_map_gpu_param r /\
    host_optimizer_params s = host_set r /\
    match gpu_optimizer s with
    | Some o => group_params (opt_param_groups o) = device_set r /\
                device_set r <> []
    | None => device_set r = []
    end /\
    (forall o, o ∈ sub_optimizers s ->
       opt_state o = [] /\
       Forall (fun g => g_params g <> []) (opt_param_groups o)) /\
    opt_id <$> sub_optimizers s
    = seq (n_optimizers h) (length (sub_optimizers s)) /\
    grad h' = grad h1 /\ next_tid h' = next_tid h1 /\
    requires_grad h' = requires_grad h1.
Proof.
  intros Hinit.
  apply init_sub_optimizers_inr in Hinit
    as (r & h1 & h2 & Hsplit & _ & _ & _ & Hcpu & Hgpu & Hg2c & Hc2g & _
        & Hhost & Hdev).
  destruct (split_nonempty_groups _ _ _ _ _ _ Hsplit) as [Hnc Hng].
  pose proof (params_len_nonempty _ Hnc) as Hlc.
  pose proof (params_len_nonempty _ Hng) as Hlg.
  destruct (split_host_tensors _ _ _ _ _ _ Hsplit) as (_ & _ & Hn1 & _).
  (* the host side *)
  assert (Hc : host_optimizer_params s = host_set r /\
               (forall o, o ∈ cpu_optimizers s ->
                  opt_state o = [] /\
                  Forall (fun g => g_params g <> []) (opt_param_groups o)) /\
               opt_id <$> cpu_optimizers s
               = seq (n_optimizers h) (length (cpu_optimizers s)) /\
               n_optimizers h2 = (n_optimizers h + length (cpu_optimizers s))%nat /\
               grad h2 = grad h1 /\ next_tid h2 = next_tid h1 /\
               requires_grad h2 = requires_grad h1).
  { unfold host_optimizer_params, host_set.
    destruct (overlap d && (0 <? params_len (r_cpu_params r))%nat).
    - destruct Hhost as (b & Hb & Hos & _).
      destruct (build_cpu_optimizer_list_run (cpu_optimizer_cls d)
                  (r_cpu_params r) (kwargs d) h1)
        as (os & m & h3 & Hrun & Hlen & Hith & _ & _ & Hn & Ht & Hg & Hr).
      rewrite Hrun in Hb. injection Hb as <- <-. simpl in Hos.
      rewrite Hos.
      assert (Hos' : os = imap (fun i e =>
                 single_param_optimizer (cpu_optimizer_cls d) (kwargs d)
                   (n_optimizers h1 + i) e.1 e.2) (host_entries (r_cpu_params r))).
      { apply list_eq. intros i. rewrite list_lookup_imap.
        destruct (host_entries (r_cpu_params r) !! i) as [[c hy]|] eqn:He.
        - by rewrite (Hith _ _ _ He).
        - apply lookup_ge_None. apply lookup_ge_None in He.
          rewrite host_entries_length in He. lia. }
      split_and!; try done.
      + rewrite <- host_entries_fst, Hos'. apply single_param_optimizers_params.
      + intros o Ho. rewrite Hos' in Ho.
        apply list_elem_of_lookup in Ho as [i Hi].
        rewrite list_lookup_imap in Hi.
        destruct (host_entries (r_cpu_params r) !! i) as [e|]; [|done].
        injection Hi as <-. simpl. split; [done|].
        constructor; [done|constructor].
      + rewrite Hos', length_imap, Hn1. apply list_eq. intros i.
        rewrite list_lookup_fmap, list_lookup_imap.
        destruct (host_entries (r_cpu_params r) !! i) as [e|] eqn:He; simpl.
        * symmetry. apply lookup_seq. split; [done|].
          by apply lookup_lt_Some in He.
        * symmetry. apply lookup_ge_None. rewrite length_seq.
          by apply lookup_ge_None in He.
      + rewrite Hn, Hlen, Hn1. done.
    - destruct Hhost as (_ & _ & Hos).
      destruct (0 <? params_len (r_cpu_params r))%nat eqn:Hlen.
      + destruct Hos as (o & Hnew & ->).
        apply new_optimizer_inr in Hnew as (Hid & _ & Hst & Hinit & ->).
        simpl. rewrite app_nil_r.
        split_and!; try done.
        * by eapply Optimizer_init_params.
        * intros o' ->%list_elem_of_singleton. split; [done|].
          by eapply Optimizer_init_groups_nonempty.
        * by rewrite Hid, Hn1.
        * rewrite Hn1. lia.
      + destruct Hos as [-> ->]. simpl.
        split_and!; try done.
        * symmetry. destruct (flatten_params (r_cpu_params r)) eqn:Hfl; [done|].
          assert (false = true) by (by apply Hlc). done.
        * intros o Ho. by apply elem_of_nil in Ho.
        * lia. }
  destruct Hc as (Hc1 & Hc2 & Hc3 & Hc4 & Hc5 & Hc6 & Hc7).
  (* the device side *)
  exists r, h1. unfold sub_optimizers, device_set.
  destruct (0 <? params_len (r_gpu_params r))%nat eqn:Hlen.
  - destruct Hdev as (o & Hnew & ->).
    apply new_optimizer_inr in Hnew as (Hid & _ & Hst & Hinit & ->). simpl.
    split_and!; try done.
    + by eapply Optimizer_init_params.
    + by apply Hlg.
    + intros o' [Ho'| ->%list_elem_of_singleton]%elem_of_app; [by apply Hc2|].
      split; [done|]. by eapply Optimizer_init_groups_nonempty.
    + rewrite fmap_app, length_app, seq_app, Hc3. simpl. by rewrite Hid, Hc4.
  - destruct Hdev as [-> ->]. split_and!; try done.
    destruct (flatten_params (r_gpu_params r)) eqn:Hfl; [done|].
    assert (false = true) by (by apply Hlg). done.
Qed.

(** The two tables of a partition of parameters that are all
    different. *)
Lemma split_tables (pin : bool) (params : ParamsT) (f : spec_float)
    (h h' : Heap) (r : SplitResult) :
  _split_parameters_updated_on_the_cpu_and_gpu pin params f h = (inr r, h') ->
  NoDup (tid <$> flatten_params params) ->
  (forall c, c ∈ host_set r ->
     exists p, p ∈ flatten_params params /\
       r_cpu_copys_map_gpu_param r !! tid c = Some p /\
       r_gpu_params_map_cpu_copy r !! tid p = Some c) /\
  (forall q, q ∈ device_set r ->
     q ∈ flatten_params params /\ r_gpu_params_map_cpu_copy r !! tid q = None) /\
  (forall k p, r_cpu_copys_map_gpu_param r !! k = Some p ->
     (next_tid h <= k)%positive /\ p ∈ flatten_params params) /\
  exists origs,
    host_origins r = Some <$> origs /\
    origs ++ device_set r ≡ₚ flatten_params params.
Proof.
  intros Hrun Hnd.
  assert (Hnd' : forall gs, params = Grouped gs -> NoDup (tid <$> group_params gs)).
  { by intros gs ->. }
  destruct (split_sides _ _ _ _ _ _ Hrun Hnd') as (thr & Hthr & Hhost & Hdev).
  destruct (split_host_tensors _ _ _ _ _ _ Hrun) as (Hsh & _).
  pose proof Hrun as
    [(Hlen & -> & ->)|(Hlen & thr' & w & Hthr' & Hwalk & Hg & Hc & Hr)]%split_inr.
  { split_and!.
    - intros c Hc. by apply elem_of_nil in Hc.
    - intros q Hq. by apply elem_of_nil in Hq.
    - intros k p Hk. simpl in Hk. by rewrite lookup_empty in Hk.
    - exists []. split; [done|].
      assert (flatten_params params = []) as ->; [|done].
      destruct params as [[|? ?]|[|? ?]]; done. }
  rewrite Hthr in Hthr'. injection Hthr' as <-.
  pose proof (walk_spec _ _ _ _ _ _ Hwalk) as Hinv.
  pose proof Hinv as (_ & _ & _ & I4 & _ & I6 & _ & _ & I9 & I10 & _ & I12).
  assert (Hin : forall c, c ∈ host_set r -> c ∈ w_cpu_params w).
  { intros c Hcin. unfold host_set in Hcin. destruct params as [ps|gs].
    - destruct Hr as [Hcp _]. by rewrite Hcp in Hcin.
    - destruct Hr as [Hcp _]. rewrite Hcp in Hcin. simpl in Hcin.
      destruct (regroup_spec (w_gpu_params_map_cpu_copy w) gs) as [Heq _].
      rewrite Heq in Hcin. apply list_elem_of_omap in Hcin as (p & _ & Hp).
      by apply I10 in Hp as [Hp _]. }
  split_and!.
  - intros c Hcin. destruct (Hsh c Hcin) as (_ & _ & _ & _ & p & Hp & Hmap & _).
    exists p. split_and!; [done|done|]. rewrite Hg. apply I12; [done|by apply Hin|].
    by rewrite <- Hc.
  - intros q Hq. rewrite Hdev in Hq. split; [by eapply assigned_subseteq|].
    rewrite Hg.
    destruct (w_gpu_params_map_cpu_copy w !! tid q) as [c|] eqn:Hgq; [|done].
    exfalso. eapply (assigned_disjoint thr (flatten_params params));
      [by apply NoDup_tid| |exact Hq].
    eapply walk_inv_mapped; [exact Hinv|done| |exact Hgq].
    by eapply assigned_subseteq.
  - intros k p Hk. rewrite Hc in Hk.
    destruct (I9 _ _ Hk) as (c & Hcin & <-).
    rewrite Forall_forall in I4. split; [by apply I4|].
    eapply assigned_subseteq. by eapply walk_inv_origin.
  - exists (assigned true thr (flatten_params params)). split; [done|].
    rewrite Hdev. apply assigned_perm.
Qed.

Lemma sub_optimizer_params_split (s : HDO) :
  sub_optimizer_params s
  = host_optimizer_params s
    ++ match gpu_optimizer s with
       | Some o => group_params (opt_param_groups o)
       | None => []
       end.
Proof.
  unfold sub_optimizer_params, host_optimizer_params, sub_optimizers.
  destruct (gpu_optimizer s) as [o|].
  - rewrite fmap_app, concat_app. simpl. by rewrite app_nil_r.
  - by rewrite app_nil_r.
Qed.

(** What the sync needs holds of the sub-optimizers built from
    parameters that are all different and were allocated before. *)
Lemma init_sub_optimizers_ready (d : Defaults) (groups : list ParamGroup)
    (st : gmap positive (gmap string PyVal)) (params : ParamsT) (h h' : Heap)
    (s : HDO) :
  _init_sub_optimizers d groups st params h = (inr s, h') ->
  group_params groups = flatten_params params ->
  NoDup (tid <$> flatten_params params) ->
  Forall (fun p => (tid p < next_tid h)%positive) (flatten_params params) ->
  sync_ready s /\ shadows_apart s.
Proof.
  intros Hinit Hgroups Hnd Hold.
  pose proof Hinit as (_ & _ & _ & _ & _ & Hpg & _)%init_sub_optimizers_inr.
  apply init_sub_optimizers_shape in Hinit
    as (r & h1 & Hsplit & _ & _ & Hg2c & Hc2g & Hhost & Hdev & Hsub & _).
  destruct (split_tables _ _ _ _ _ _ Hsplit Hnd) as (Ha & Hb & Hc & _).
  rewrite Forall_forall in Hold.
  split; [split_and!|].
  - intros o Ho. by apply Hsub.
  - intros q Hq. rewrite sub_optimizer_params_split in Hq.
    rewrite Hpg, Hgroups, Hg2c. unfold remap_to_cpu_copy.
    apply elem_of_app in Hq as [Hq|Hq].
    + rewrite Hhost in Hq. destruct (Ha q Hq) as (p & Hp & _ & Hgp).
      exists p. split; [done|]. by rewrite Hgp.
    + destruct (gpu_optimizer s) as [o|]; [|by apply elem_of_nil in Hq].
      destruct Hdev as [Hdev _]. rewrite Hdev in Hq.
      destruct (Hb q Hq) as [Hin Hnone].
      exists q. split; [done|]. by rewrite Hnone.
  - intros c Hcin. rewrite Hhost in Hcin. rewrite Hc2g, Hpg, Hgroups.
    destruct (Ha c Hcin) as (p & Hin & Hp & _). eauto.
  - intros k gpu Hk. rewrite Hc2g in Hk |- *.
    destruct (Hc _ _ Hk) as [_ Hin]. apply Hold in Hin.
    destruct (r_cpu_copys_map_gpu_param r !! tid gpu) as [p|] eqn:Hgpu; [|done].
    destruct (Hc _ _ Hgpu) as [Hge _]. lia.
Qed.

(** X6.  After construction the sub-optimizers hold the partition: the
    unified groups hold the input parameters in order; the host
    sub-optimizers hold the host tensors in order; the device
    sub-optimizer exists exactly when the device set is not empty, and
    holds the device set.  Every sub-optimizer starts without state
    and has no group without parameters; the instances are pairwise
    different.  The unified state, the gradient buffers and the
    pending events are empty. *)
Theorem init_holds_partition (params : ParamsT) (d : Defaults) (h h' : Heap)
    (s : HDO) :
  HybridDeviceOptimizer_init params d h = (inr s, h') ->
  group_params (param_groups s) = flatten_params params /\
  host_optimizer_params s = flatten_params (cpu_params s) /\
  match gpu_optimizer s with
  | Some o => group_params (opt_param_groups o) = flatten_params (gpu_params s)
              /\ flatten_params (gpu_params s) <> []
  | None => flatten_params (gpu_params s) = []
  end /\
  sub_optimizer_params s
  = flatten_params (cpu_params s) ++ flatten_params (gpu_params s) /\
  (forall o, o ∈ sub_optimizers s ->
     opt_state o = [] /\
     Forall (fun g => g_params g <> []) (opt_param_groups o)) /\
  NoDup (opt_id <$> sub_optimizers s) /\
  state s = ∅ /\ cpu_copy_map_grad s = ∅ /\
  _cpu_optimizer_map_data_event s = ∅.
Proof.
  intros (groups & Hbase & _ & Hinit)%HybridDeviceOptimizer_init_inr.
  pose proof Hinit as
    (_ & _ & _ & _ & _ & Hpg & Hst & _ & _ & _ & _ & Hbufs & _)
      %init_sub_optimizers_inr.
  assert (Hev : _cpu_optimizer_map_data_event s = ∅).
  { unfold _init_sub_optimizers in Hinit.
    apply bind_inr in Hinit as (r & h1 & _ & Hinit).
    apply bind_inr in Hinit as (cpu & h2 & _ & Hinit).
    by apply bind_inr in Hinit as (gpu & h3 & _ & [= <- _]). }
  apply init_sub_optimizers_shape in Hinit
    as (r & h1 & _ & Hcpu & Hgpu & _ & _ & Hhost & Hdev & Hsub & Hids & _).
  unfold host_set in Hhost. unfold device_set in Hdev.
  rewrite <- Hcpu in Hhost. rewrite <- Hgpu in Hdev.
  split_and!; try done.
  - rewrite Hpg. by eapply Optimizer_init_params.
  - rewrite sub_optimizer_params_split, Hhost.
    destruct (gpu_optimizer s) as [o|].
    + by destruct Hdev as [-> _].
    + by rewrite Hdev.
  - rewrite Hids. apply NoDup_seq.
Qed.

(** A run of [init_holds_partition]: the scenario at fraction 0.5 with
    overlap; two host sub-optimizers and the device sub-optimizer. *)
Lemma init_holds_partition_witness :
  exists s h',
    HybridDeviceOptimizer_init (Flat scenario_params)
      (scenario_defaults PyFloat.f0_5 true true) heap0 = (inr s, h') /\
    length (sub_optimizers s) = 3%nat /\
    sub_optimizer_params s
    = flatten_params (cpu_params s) ++ flatten_params (gpu_params s) /\
    NoDup (opt_id <$> sub_optimizers s).
Proof.
  destruct (returns_with_spec
              (HybridDeviceOptimizer_init (Flat scenario_params)
                 (scenario_defaults PyFloat.f0_5 true true)) heap0
              (fun s _ => (length (sub_optimizers s) =? 3)%nat)
              ltac:(vm_compute; reflexivity))
    as (s & h' & Hrun & Hlen%Nat.eqb_eq).
  destruct (init_holds_partition _ _ _ _ _ Hrun)
    as (_ & _ & _ & Hparams & _ & Hids & _).
  exists s, h'. split; [exact Hrun|]. split; [exact Hlen|].
  split; [exact Hparams|exact Hids].
Defined.

Lemma origins_device_identity (c2g : gmap positive Tensor)
    (cs origs : list Tensor) :
  origins c2g cs = Some <$> origs -> device_identity c2g <$> cs = origs.
Proof.
  revert origs. induction cs as [|c cs IH]; intros [|p origs] Heq; try done.
  rewrite !fmap_cons in Heq. unfold origins in Heq. rewrite fmap_cons in Heq.
  injection Heq as Hp Hrest. rewrite fmap_cons. unfold device_identity at 1.
  rewrite Hp. simpl. f_equal. by apply IH.
Qed.

(** X7.  After the construction over parameters that are all
    different and were allocated before, every input parameter is
    held by exactly one sub-optimizer, as itself or through its
    shadow: the sub-optimizers' parameters, read back through the
    host-to-device table, are a rearrangement of the unified
    parameters. *)
Theorem init_covers_parameters (params : ParamsT) (d : Defaults) (h h' : Heap)
    (s : HDO) :
  HybridDeviceOptimizer_init params d h = (inr s, h') ->
  NoDup (tid <$> flatten_params params) ->
  Forall (fun p => (tid p < next_tid h)%positive) (flatten_params params) ->
  device_identity (cpu_copys_map_gpu_param s) <$> sub_optimizer_params s
  ≡ₚ group_params (param_groups s).
Proof.
  intros Hrun Hnd Hold.
  apply HybridDeviceOptimizer_init_inr in Hrun as (groups & Hbase & _ & Hinit).
  pose proof (Optimizer_init_params _ _ _ Hbase) as Hgroups.
  pose proof Hinit as (_ & _ & _ & _ & _ & Hpg' & _)%init_sub_optimizers_inr.
  assert (Hpg : group_params (param_groups s) = flatten_params params)
    by by rewrite Hpg'.
  assert (Hsub : sub_optimizer_params s
                 = flatten_params (cpu_params s) ++ flatten_params (gpu_params s)).
  { pose proof Hinit as
      (r0 & h0 & _ & Hcpu0 & Hgpu0 & _ & _ & Hhost0 & Hdev0 & _)
        %init_sub_optimizers_shape.
    rewrite sub_optimizer_params_split, Hhost0, Hcpu0, Hgpu0.
    unfold host_set, device_set in *.
    destruct (gpu_optimizer s) as [o|].
    - by destruct Hdev0 as [-> _].
    - by rewrite Hdev0. }
  set (params' := match params with
                  | Flat ps => Flat ps
                  | Grouped _ => Grouped groups
                  end) in *.
  assert (Hfl : flatten_params params' = flatten_params params).
  { subst params'. by destruct params. }
  apply init_sub_optimizers_shape in Hinit
    as (r & h1 & Hsplit & Hcpu & Hgpu & _ & Hc2g & _).
  rewrite <- Hfl in Hnd, Hold.
  destruct (split_tables _ _ _ _ _ _ Hsplit Hnd)
    as (_ & Hb & Hc & origs & Horigs & Hperm).
  rewrite Hsub, Hpg, <- Hfl, <- Hperm, Hcpu, Hgpu, Hc2g, fmap_app.
  rewrite Forall_forall in Hold.
  change (flatten_params (r_cpu_params r)) with (host_set r).
  rewrite (origins_device_identity _ _ _ Horigs).
  assert (Hdev : device_identity (r_cpu_copys_map_gpu_param r)
                   <$> flatten_params (r_gpu_params r) = device_set r).
  { unfold device_set.
    rewrite <- (list_fmap_id (flatten_params (r_gpu_params r))) at 2.
    apply list_fmap_ext. intros i q Hi. unfold device_identity.
    assert (Hq : q ∈ device_set r) by by eapply list_elem_of_lookup_2.
    destruct (Hb q Hq) as [Hin _]. apply Hold in Hin.
    destruct (r_cpu_copys_map_gpu_param r !! tid q) as [p|] eqn:Hq'; [|done].
    destruct (Hc _ _ Hq') as [Hge _]. lia. }
  by rewrite Hdev.
Qed.

(** A run of [init_covers_parameters] on the scenario at fraction
    0.5. *)
Lemma init_covers_parameters_witness :
  exists s h',
    HybridDeviceOptimizer_init (Flat scenario_params)
      (scenario_defaults PyFloat.f0_5 false true) heap0 = (inr s, h') /\
    NoDup (tid <$> flatten_params (Flat scenario_params)) /\
    Forall (fun p => (tid p < next_tid heap0)%positive)
           (flatten_params (Flat scenario_params)) /\
    device_identity (cpu_copys_map_gpu_param s) <$> sub_optimizer_params s
    ≡ₚ group_params (param_groups s).
Proof.
  destruct (returns_with_spec
              (HybridDeviceOptimizer_init (Flat scenario_params)
                 (scenario_defaults PyFloat.f0_5 false true)) heap0
              (fun _ _ => true) ltac:(vm_compute; reflexivity))
    as (s & h' & Hrun & _).
  assert (Hnd : NoDup (tid <$> flatten_params (Flat scenario_params))).
  { apply (bool_decide_unpack _). vm_compute. exact I. }
  assert (Hold : Forall (fun p => (tid p < next_tid heap0)%positive)
                   (flatten_params (Flat scenario_params))).
  { repeat constructor. }
  exists s, h'. split; [exact Hrun|]. split; [exact Hnd|]. split; [exact Hold|].
  exact (init_covers_parameters _ _ _ _ _ Hrun Hnd Hold).
Defined.

(** ** The sub-optimizer constructors do not fail *)







(** ** The index of the hyperparameter sync *)

Lemma index_group_spec (g2c : gmap positive Tensor) (i : nat) (ps : list Tensor)
    (idx0 : gmap positive (nat * nat)) :
  let idx := foldl (fun idx' (ip : nat * Tensor) =>
                      <[tid (remap_to_cpu_copy g2c ip.2) := (i, ip.1)]> idx')
                   idx0 (imap pair ps) in
  (forall t gp, idx !! t = Some gp ->
     idx0 !! t = Some gp \/
     exists j p, gp = (i, j) /\ ps !! j = Some p /\
                 tid (remap_to_cpu_copy g2c p) = t) /\
  (forall t, is_Some (idx0 !! t) -> is_Some (idx !! t)) /\
  (forall p, p ∈ ps -> is_Some (idx !! tid (remap_to_cpu_copy g2c p))).
Proof.
  induction ps as [|q ps IH] using rev_ind; simpl.
  - split_and!; [by left|done|]. intros p Hp. by apply elem_of_nil in Hp.
  - rewrite imap_app, foldl_app. simpl. rewrite Nat.add_0_r.
    destruct IH as (IH1 & IH2 & IH3). split_and!.
    + intros t gp Ht.
      destruct (decide (tid (remap_to_cpu_copy g2c q) = t)) as [<-|Hne].
      * rewrite lookup_insert_eq in Ht. injection Ht as <-. right.
        exists (length ps), q. by rewrite list_lookup_middle.
      * rewrite lookup_insert_ne in Ht by done.
        destruct (IH1 _ _ Ht) as [?|(j & p & -> & Hj & Hp)]; [by left|right].
        exists j, p. split_and!; [done| |done]. by apply lookup_app_l_Some.
    + intros t Ht.
      destruct (decide (tid (remap_to_cpu_copy g2c q) = t)) as [<-|Hne].
      * rewrite lookup_insert_eq. eauto.
      * rewrite lookup_insert_ne by done. by apply IH2.
    + intros p [Hp| ->%list_elem_of_singleton]%elem_of_app.
      * destruct (decide (tid (remap_to_cpu_copy g2c q)
                          = tid (remap_to_cpu_copy g2c p))) as [<-|Hne].
        -- rewrite lookup_insert_eq. eauto.
        -- rewrite lookup_insert_ne by done. by apply IH3.
      * rewrite lookup_insert_eq. eauto.
Qed.

(** The index sends an identity to a position at which a unified
    group holds a parameter with that identity, after remapping; and
    it knows every unified parameter. *)
Lemma build_param_index_spec (g2c : gmap positive Tensor) (gs : list ParamGroup) :
  (forall t gp, build_param_index g2c gs !! t = Some gp ->
     exists g p, gs !! gp.1 = Some g /\ g_params g !! gp.2 = Some p /\
                 tid (remap_to_cpu_copy g2c p) = t) /\
  (forall p, p ∈ group_params gs ->
     is_Some (build_param_index g2c gs !! tid (remap_to_cpu_copy g2c p))).
Proof.
  unfold build_param_index.
  induction gs as [|g gs IH] using rev_ind.
  - split; [intros t gp Ht; simpl in Ht; by rewrite lookup_empty in Ht|].
    intros p Hp. by apply elem_of_nil in Hp.
  - rewrite imap_app, foldl_app. simpl. rewrite Nat.add_0_r.
    destruct IH as [IH1 IH2].
    match goal with
    | |- context [foldl ?f ?idx0 (imap pair (g_params g))] =>
        destruct (index_group_spec g2c (length gs) (g_params g) idx0)
          as (H1 & H2 & H3)
    end.
    split.
    + intros t gp Ht. destruct (H1 _ _ Ht) as [Hold|(j & p & -> & Hj & Hp)].
      * destruct (IH1 _ _ Hold) as (g0 & p & Hg0 & Hp & Htid).
        exists g0, p. split_and!; [|done|done]. by apply lookup_app_l_Some.
      * exists g, p. simpl. by rewrite list_lookup_middle.
    + intros p Hp. rewrite group_params_snoc in Hp.
      apply elem_of_app in Hp as [Hp|Hp]; [|by apply H3].
      by apply H2, IH2.
Qed.

Lemma governing_group_spec (g2c : gmap positive Tensor) (U : list ParamGroup)
    (g ug : ParamGroup) :
  governing_group U (build_param_index g2c U) g = Some ug ->
  exists first p,
    head (g_params g) = Some first /\ ug ∈ U /\ p ∈ g_params ug /\
    tid (remap_to_cpu_copy g2c p) = tid first.
Proof.
  unfold governing_group. intros Hg.
  destruct (head (g_params g)) as [first|]; [|done]. simpl in Hg.
  destruct (build_param_index g2c U !! tid first) as [gp|] eqn:Hidx; [|done].
  simpl in Hg.
  destruct (build_param_index_spec g2c U) as [Hspec _].
  destruct (Hspec _ _ Hidx) as (g0 & p & Hg0 & Hp & Htid).
  rewrite Hg0 in Hg. injection Hg as <-.
  exists first, p. split_and!; [done| | |done].
  - by eapply list_elem_of_lookup_2.
  - by eapply list_elem_of_lookup_2.
Qed.

Lemma governing_group_covered (g2c : gmap positive Tensor) (U : list ParamGroup)
    (g : ParamGroup) (first p : Tensor) :
  head (g_params g) = Some first -> p ∈ group_params U ->
  tid (remap_to_cpu_copy g2c p) = tid first ->
  is_Some (governing_group U (build_param_index g2c U) g).
Proof.
  intros Hhead Hp Htid. unfold governing_group. rewrite Hhead. simpl.
  destruct (build_param_index_spec g2c U) as [Hspec Hknown].
  destruct (Hknown p Hp) as [gp Hgp]. rewrite Htid in Hgp. rewrite Hgp. simpl.
  destruct (Hspec _ _ Hgp) as (g0 & _ & Hg0 & _). eauto.
Qed.

Lemma sync_ready_governed (s : HDO) : sync_ready s -> governed s.
Proof.
  intros (Hne & Hcov & _) o Ho. specialize (Hne o Ho).
  apply Forall_forall. intros g Hg.
  rewrite Forall_forall in Hne. specialize (Hne g Hg).
  destruct (g_params g) as [|first ps] eqn:Hps; [done|].
  destruct (Hcov first) as (p & Hp & Htid).
  { unfold sub_optimizer_params. apply elem_of_concat.
    exists (group_params (opt_param_groups o)). split.
    - by apply (list_elem_of_fmap_2
                  (fun o => group_params (opt_param_groups o))).
    - rewrite group_params_concat. apply elem_of_concat.
      exists (g_params g). split; [|rewrite Hps; left].
      by apply list_elem_of_fmap_2. }
  eapply governing_group_covered; [|exact Hp|exact Htid]. by rewrite Hps.
Qed.

(** ** What the sync writes *)

Lemma sync_cpu_optimizers_rel (s : HDO) (idx : gmap positive (nat * nat))
    (os : list SubOptimizer) :
  forall acc h acc' h',
    foldM (sync_cpu_optimizer s idx) acc os h = (inr acc', h') ->
    exists os', acc'.1.1 = acc.1.1 ++ os' /\
      Forall2 (fun o o' =>
                 exists gs', o' = set_opt_param_groups o gs' /\
                   Forall2 (fun g g' =>
                              exists ug,
                                governing_group (param_groups s) idx g = Some ug /\
                                g' = synced_group ug g)
                           (opt_param_groups o) gs') os os'.
Proof.
  induction os as [|o os IH]; intros acc h acc' h' Hrun; simpl in Hrun.
  - injection Hrun as <- <-. exists []. by rewrite app_nil_r.
  - apply bind_inr in Hrun as (acc1 & h1 & Ho & Hrest).
    apply sync_cpu_optimizer_inr in Ho as (gs' & Hgs & _ & _ & Hos & _).
    apply sync_groups_inr in Hgs as (_ & gs'' & Heq & Hall).
    simpl in Heq. subst gs''.
    apply IH in Hrest as (os' & Hos' & Hrel).
    exists (set_opt_param_groups o gs' :: os').
    rewrite Hos', Hos, <- (assoc_L (++)). split; [done|].
    constructor; [|done]. eauto.
Qed.

(** X9.  What a hyperparameter sync that returns has written.  The
    sub-optimizers are the same instances in the same order, with
    their state; every group keeps its parameters, and its
    hyperparameters are those of a unified group that holds its first
    parameter (or the device parameter its first parameter shadows),
    without the key ["_param_sub_optimizer_attrs"], written over its
    own: a key of the unified group takes the unified value, any other
    key keeps its value. *)
Theorem sync_hyperparameters (s s1 : HDO) (h h1 : Heap) :
  _sync_hdo_param_groups_to_sub_optimizers s h = (inr s1, h1) ->
  Forall2 (fun o o1 =>
             opt_id o1 = opt_id o /\ opt_cls o1 = opt_cls o /\
             opt_state o1 = opt_state o /\
             Forall2 (fun g g1 =>
                        g_params g1 = g_params g /\
                        exists ug first p,
                          ug ∈ param_groups s /\ p ∈ g_params ug /\
                          head (g_params g) = Some first /\
                          tid (remap_to_cpu_copy (gpu_params_map_cpu_copy s) p)
                          = tid first /\
                          g_hypers g1
                          = delete sub_optimizer_attrs_key (g_hypers ug)
                            ∪ g_hypers g)
                     (opt_param_groups o) (opt_param_groups o1))
          (sub_optimizers s) (sub_optimizers s1).
Proof.
  unfold _sync_hdo_param_groups_to_sub_optimizers. intros Hrun.
  set (idx := build_param_index _ _) in *.
  assert (Hgroups : forall gs gs',
            Forall2 (fun g g' =>
                       exists ug,
                         governing_group (param_groups s) idx g = Some ug /\
                         g' = synced_group ug g) gs gs' ->
            Forall2 (fun g g1 =>
                       g_params g1 = g_params g /\
                       exists ug first p,
                         ug ∈ param_groups s /\ p ∈ g_params ug /\
                         head (g_params g) = Some first /\
                         tid (remap_to_cpu_copy (gpu_params_map_cpu_copy s) p)
                         = tid first /\
                         g_hypers g1
                         = delete sub_optimizer_attrs_key (g_hypers ug)
                           ∪ g_hypers g) gs gs').
  { intros gs gs' Hall. eapply Forall2_impl; [exact Hall|]. simpl.
    intros g g' (ug & Hug & ->). split; [done|].
    apply governing_group_spec in Hug as (first & p & Hhead & Hin & Hp & Htid).
    exists ug, first, p. by split_and!. }
  apply bind_inr in Hrun as (acc & h2 & Hcpus & Hrun).
  apply bind_inr in Hrun as (gpu & h3 & Hgpu & [= <- <-]).
  apply sync_cpu_optimizers_rel in Hcpus as (os' & Hos & Hrel). simpl in Hos.
  assert (Hcpu : Forall2 (fun o o1 =>
             opt_id o1 = opt_id o /\ opt_cls o1 = opt_cls o /\
             opt_state o1 = opt_state o /\
             Forall2 (fun g g1 =>
                        g_params g1 = g_params g /\
                        exists ug first p,
                          ug ∈ param_groups s /\ p ∈ g_params ug /\
                          head (g_params g) = Some first /\
                          tid (remap_to_cpu_copy (gpu_params_map_cpu_copy s) p)
                          = tid first /\
                          g_hypers g1
                          = delete sub_optimizer_attrs_key (g_hypers ug)
                            ∪ g_hypers g)
                     (opt_param_groups o) (opt_param_groups o1))
          (cpu_optimizers s) acc.1.1).
  { rewrite Hos. eapply Forall2_impl; [exact Hrel|]. simpl.
    intros o o' (gs' & -> & Hall). split_and!; try done. by apply Hgroups. }
  unfold sub_optimizers. simpl.
  destruct (gpu_optimizer s) as [o|].
  - apply bind_inr in Hgpu as (o' & h4 & Ho & [= <- <-]).
    apply Forall2_app; [done|]. constructor; [|done].
    unfold sync_gpu_optimizer in Ho.
    apply bind_inr in Ho as (gs' & h5 & Hgs & [= <- <-]).
    apply sync_groups_inr in Hgs as (_ & gs'' & Heq & Hall).
    simpl in Heq. subst gs''. split_and!; try done. by apply Hgroups.
  - by injection Hgpu as <- <-.
Qed.

(** A run of [sync_hyperparameters]: the scenario with gradients; the
    sync returns the sub-optimizers in the same number. *)
Lemma sync_hyperparameters_witness :
  exists s h s1 h1,
    scenario_with_grads (scenario_defaults PyFloat.f0_5 true true) heap0
      = (inr s, h) /\
    _sync_hdo_param_groups_to_sub_optimizers s h = (inr s1, h1) /\
    length (sub_optimizers s1) = length (sub_optimizers s).
Proof.
  destruct (returns_with_spec
              (let* s := scenario_with_grads
                           (scenario_defaults PyFloat.f0_5 true true) in
               _sync_hdo_param_groups_to_sub_optimizers s)
              heap0 (fun _ _ => true) ltac:(vm_compute; reflexivity))
    as (s1 & h1 & Hrun & _).
  apply bind_inr in Hrun as (s & h & Hprep & Hsync).
  exists s, h, s1, h1. split; [exact Hprep|]. split; [exact Hsync|].
  symmetry. eapply Forall2_length. exact (sync_hyperparameters s s1 h h1 Hsync).
Defined.

(** ** When the sync returns *)

Lemma sync_groups_returns (U : list ParamGroup) (idx : gmap positive (nat * nat))
    (gs : list ParamGroup) :
  Forall (fun g => is_Some (governing_group U idx g)) gs ->
  forall acc h, exists gs',
    foldM (sync_group U idx) acc gs h = (inr (acc ++ gs'), h).
Proof.
  induction 1 as [|g gs [ug Hug] _ IH]; intros acc h; simpl.
  - exists []. by rewrite app_nil_r.
  - rewrite (bind_run _ _ _ _ _ (sync_group_run U idx acc g ug h Hug)).
    destruct (IH (acc ++ [synced_group ug g]) h) as [gs' ->].
    exists (synced_group ug g :: gs'). by rewrite <- (assoc_L (++)).
Qed.

Lemma stage_params_returns (c2g : gmap positive Tensor) (pin : bool)
    (ps : list Tensor) :
  forall bufs h,
    Forall (fun p => exists gpu, c2g !! tid p = Some gpu /\
                                 is_Some (grad h !! tid gpu)) ps ->
    exists bufs' h',
      foldM (stage_param c2g pin) bufs ps h = (inr bufs', h') /\
      grads_kept h h'.
Proof.
  induction ps as [|p ps IH]; intros bufs h Hall; simpl.
  - exists bufs, h. split; [done|apply grads_kept_refl].
  - apply Forall_cons in Hall as [(gpu & Hgpu & [g Hg]) Hps].
    destruct (stage_param_with_grad c2g pin bufs p gpu g h Hgpu Hg)
      as (bufs1 & h1 & buf & Hrun & _).
    pose proof Hrun as (gpu' & g' & buf' & _ & _ & _ & _ & Hgr)%stage_param_inr.
    assert (Hkept : grads_kept h h1) by by eapply grads_kept_insert.
    destruct (IH bufs1 h1) as (bufs' & h' & Hrest & Hkept').
    { eapply Forall_impl; [exact Hps|]. simpl.
      intros q (gq & Hgq & Hq). exists gq. split; [done|]. by apply Hkept. }
    exists bufs', h'. rewrite (bind_run _ _ _ _ _ Hrun).
    split; [done|]. by eapply grads_kept_trans.
Qed.

Lemma sync_cpu_optimizers_returns (s : HDO) (idx : gmap positive (nat * nat))
    (os : list SubOptimizer) :
  forall acc h,
    Forall (fun o =>
              Forall (fun g => is_Some (governing_group (param_groups s) idx g))
                     (opt_param_groups o) /\
              Forall (fun p => exists gpu,
                          cpu_copys_map_gpu_param s !! tid p = Some gpu /\
                          is_Some (grad h !! tid gpu))
                     (group_params (opt_param_groups o))) os ->
    exists acc' h', foldM (sync_cpu_optimizer s idx) acc os h = (inr acc', h').
Proof.
  induction os as [|o os IH]; intros acc h Hall; simpl; [by eexists _, _|].
  apply Forall_cons in Hall as [[Hgov Hgr] Hos].
  destruct (sync_groups_returns _ _ _ Hgov [] h) as [gs' Hgs].
  destruct (stage_params_returns (cpu_copys_map_gpu_param s)
              (pin_cpu_grads (defaults s)) _ acc.1.2 h Hgr)
    as (bufs' & h1 & Hst & Hkept).
  unfold sync_cpu_optimizer at 1.
  unfold bind at 1. rewrite (bind_run _ _ _ _ _ Hgs).
  rewrite (bind_run _ _ _ _ _ Hst). unfold ret at 1.
  apply IH. eapply Forall_impl; [exact Hos|]. simpl.
  intros o' [Hg' Hp']. split; [done|].
  eapply Forall_impl; [exact Hp'|]. simpl.
  intros q (gq & Hgq & Hq). exists gq. split; [done|]. by apply Hkept.
Qed.

(** A staging loop that returns found a gradient on every device
    parameter it looked up. *)
Lemma stage_params_needed (c2g : gmap positive Tensor) (pin : bool)
    (ps : list Tensor) :
  (forall k gpu, c2g !! k = Some gpu -> c2g !! tid gpu = None) ->
  forall bufs h bufs' h',
    foldM (stage_param c2g pin) bufs ps h = (inr bufs', h') ->
    Forall (fun p => exists gpu, c2g !! tid p = Some gpu /\
                                 is_Some (grad h !! tid gpu)) ps.
Proof.
  intros Hapart.
  induction ps as [|p ps IH]; intros bufs h bufs' h' Hrun; [done|].
  simpl in Hrun. apply bind_inr in Hrun as (bufs1 & h1 & Hp & Hrest).
  apply stage_param_inr in Hp as (gpu & g & buf & Hgpu & Hg & _ & _ & Hgr).
  constructor; [by eauto|].
  eapply Forall_impl; [exact (IH _ _ _ _ Hrest)|]. simpl.
  intros q (gq & Hgq & Hq). exists gq. split; [done|].
  rewrite Hgr, lookup_insert_ne in Hq; [done|].
  intros Heq. rewrite Heq in Hgpu.
  by rewrite (Hapart _ _ Hgq) in Hgpu.
Qed.

Lemma lookup_keep_none (c2g : gmap positive Tensor) (pin : bool)
    (ps : list Tensor) (k : positive) (bufs bufs' : gmap positive Tensor)
    (h h' : Heap) :
  c2g !! k = None ->
  foldM (stage_param c2g pin) bufs ps h = (inr bufs', h') ->
  is_Some (grad h' !! k) -> is_Some (grad h !! k).
Proof.
  intros Hk Hrun Hsome. destruct (grad h !! k) eqn:Hg; [by eauto|].
  rewrite (stage_params_keep_none _ _ _ _ Hk _ _ _ _ Hg Hrun) in Hsome.
  by destruct Hsome.
Qed.

Lemma sync_cpu_optimizers_needed (s : HDO) (idx : gmap positive (nat * nat))
    (os : list SubOptimizer) :
  shadows_apart s ->
  forall acc h acc' h',
    foldM (sync_cpu_optimizer s idx) acc os h = (inr acc', h') ->
    Forall (fun o =>
              Forall (fun g => is_Some (governing_group (param_groups s) idx g))
                     (opt_param_groups o) /\
              Forall (fun p => exists gpu,
                          cpu_copys_map_gpu_param s !! tid p = Some gpu /\
                          is_Some (grad h !! tid gpu))
                     (group_params (opt_param_groups o))) os.
Proof.
  intros Hapart.
  induction os as [|o os IH]; intros acc h acc' h' Hrun; [done|].
  simpl in Hrun. apply bind_inr in Hrun as (acc1 & h1 & Ho & Hrest).
  unfold sync_cpu_optimizer in Ho.
  apply bind_inr in Ho as (gs' & h2 & Hgs & Ho).
  apply bind_inr in Ho as (bufs & h3 & Hst & [= <- <-]).
  apply sync_groups_inr in Hgs as (-> & gs'' & _ & Hall).
  constructor.
  - split.
    + clear -Hall. induction Hall as [|g g' gs gs2 (ug & Hug & _) _ IH2];
        constructor; eauto.
    + by eapply stage_params_needed.
  - eapply Forall_impl; [exact (IH _ _ _ _ Hrest)|]. simpl.
    intros o' [Hg' Hp']. split; [done|].
    eapply Forall_impl; [exact Hp'|]. simpl.
    intros q (gq & Hgq & Hq). exists gq. split; [done|].
    eapply lookup_keep_none; [|exact Hst|exact Hq]. by eapply Hapart.
Qed.

(** The sync returns exactly when its lookups succeed. *)
Lemma sync_returns_when (s : HDO) (h : Heap) :
  shadows_apart s ->
  ((exists s1 h1, _sync_hdo_param_groups_to_sub_optimizers s h = (inr s1, h1))
   <->
   governed s /\
   forall c, c ∈ host_optimizer_params s ->
     exists gpu, cpu_copys_map_gpu_param s !! tid c = Some gpu /\
                 is_Some (grad h !! tid gpu)).
Proof.
  intros Hapart. unfold _sync_hdo_param_groups_to_sub_optimizers, governed.
  set (idx := build_param_index _ _). split.
  - intros (s1 & h1 & Hrun).
    apply bind_inr in Hrun as (acc & h2 & Hcpus & Hrun).
    apply bind_inr in Hrun as (gpu & h3 & Hgpu & _).
    apply (sync_cpu_optimizers_needed s idx _ Hapart) in Hcpus.
    rewrite Forall_forall in Hcpus. split.
    + intros o Ho. unfold sub_optimizers in Ho.
      destruct (gpu_optimizer s) as [og|]; [|by apply Hcpus].
      apply elem_of_app in Ho as [Ho| ->%list_elem_of_singleton];
        [by apply Hcpus|].
      apply bind_inr in Hgpu as (o' & h4 & Ho' & _).
      unfold sync_gpu_optimizer in Ho'.
      apply bind_inr in Ho' as (gs' & h5 & Hgs & _).
      apply sync_groups_inr in Hgs as (_ & gs'' & _ & Hall).
      clear -Hall. induction Hall as [|g g' gs gs2 (ug & Hug & _) _ IH2];
        constructor; eauto.
    + intros c (ps & (o & -> & Ho)%list_elem_of_fmap & Hc)%elem_of_concat.
      destruct (Hcpus o Ho) as [_ Hp]. rewrite Forall_forall in Hp.
      by apply Hp.
  - intros [Hgov Hgrads].
    destruct (sync_cpu_optimizers_returns s idx (cpu_optimizers s)
                ([], cpu_copy_map_grad s, _cpu_optimizer_map_data_event s) h)
      as (acc & h1 & Hcpus).
    { apply Forall_forall. intros o Ho. split.
      - apply Hgov. unfold sub_optimizers.
        destruct (gpu_optimizer s); [|done]. apply elem_of_app. by left.
      - apply Forall_forall. intros p Hp. apply Hgrads.
        apply elem_of_concat. exists (group_params (opt_param_groups o)).
        split; [|done].
        by apply (list_elem_of_fmap_2
                    (fun o => group_params (opt_param_groups o))). }
    rewrite (bind_run _ _ _ _ _ Hcpus).
    destruct (gpu_optimizer s) as [og|] eqn:Hog; [|by eexists _, _].
    destruct (sync_groups_returns (param_groups s) idx (opt_param_groups og))
      with (acc := @nil ParamGroup) (h := h1) as [gs' Hgs].
    { apply Hgov. unfold sub_optimizers. rewrite Hog.
      apply elem_of_app. right. by left. }
    unfold bind at 1. unfold sync_gpu_optimizer. unfold bind at 1.
    rewrite (bind_run _ _ _ _ _ Hgs). by eexists _, _.
Qed.

(** X10.  When the hyperparameter sync returns, for an optimizer in
    which no device parameter is itself a shadow: exactly when every
    sub-optimizer group has a first parameter that the index of the
    unified groups knows, and every parameter of a host sub-optimizer
    has a device parameter, in the host-to-device table, that has a
    gradient. *)
Theorem sync_returns_iff (s : HDO) (h : Heap) :
  shadows_apart s ->
  ((exists s1 h1, _sync_hdo_param_groups_to_sub_optimizers s h = (inr s1, h1))
   <->
   governed s /\
   forall c, c ∈ host_optimizer_params s ->
     exists gpu, cpu_copys_map_gpu_param s !! tid c = Some gpu /\
                 is_Some (grad h !! tid gpu)).
Proof. apply sync_returns_when. Qed.


(** A run of [sync_returns_iff]: on the scenario, freshly constructed,
    the sync returns once every parameter has a gradient, so every
    sub-optimizer group is governed. *)
Lemma sync_returns_iff_witness :
  exists s h,
    scenario_with_grads (scenario_defaults PyFloat.f0_5 false true) heap0
      = (inr s, h) /\
    shadows_apart s /\
    (exists s1 h1,
       _sync_hdo_param_groups_to_sub_optimizers s h = (inr s1, h1)) /\
    governed s.
Proof.
  destruct (returns_with_spec
              (let* s := HybridDeviceOptimizer_init (Flat scenario_params)
                           (scenario_defaults PyFloat.f0_5 false true) in
               let* _ := assign_dummy_grads s in
               let* s1 := _sync_hdo_param_groups_to_sub_optimizers s in
               ret s)
              heap0 (fun _ _ => true) ltac:(vm_compute; reflexivity))
    as (s0 & h1 & Hrun & _).
  apply bind_inr in Hrun as (s & h0 & Hinit & Hrun).
  apply bind_inr in Hrun as ([] & h & Hgrads & Hrun).
  apply bind_inr in Hrun as (s1 & h2 & Hsync & _).
  assert (Hapart : shadows_apart s).
  { apply HybridDeviceOptimizer_init_inr in Hinit as (groups & Hbase & _ & Hinit).
    eapply (init_sub_optimizers_ready _ _ _ _ _ _ _ Hinit).
    - by eapply Optimizer_init_params.
    - apply (bool_decide_unpack _). vm_compute. exact I.
    - repeat constructor. }
  exists s, h. split.
  - unfold scenario_with_grads. rewrite (bind_run _ _ _ _ _ Hinit).
    by rewrite (bind_run _ _ _ _ _ Hgrads).
  - split; [exact Hapart|].
    assert (Hret : exists s1 h1,
              _sync_hdo_param_groups_to_sub_optimizers s h = (inr s1, h1)).
    { exists s1, h2. exact Hsync. }
    split; [exact Hret|].
    exact (proj1 (proj1 (sync_returns_iff s h Hapart) Hret)).
Defined.

(** ** The shape of the sub-optimizers *)

Lemma shapes_params (os : list SubOptimizer) :
  concat ((fun o => group_params (opt_param_groups o)) <$> os)
  = concat (@concat Tensor <$> group_shapes os).
Proof.
  unfold group_shapes. f_equal. rewrite <- list_fmap_compose.
  apply list_fmap_ext. intros i o _. simpl. apply group_params_concat.
Qed.

Lemma shapes_nonempty (os : list SubOptimizer) :
  (forall o, o ∈ os -> Forall (fun g => g_params g <> []) (opt_param_groups o))
  <-> Forall (Forall (fun ps => ps <> [])) (group_shapes os).
Proof.
  unfold group_shapes. rewrite Forall_fmap, Forall_forall.
  split; intros H o Ho; specialize (H o Ho); simpl in *.
  - by rewrite Forall_fmap.
  - by rewrite Forall_fmap in H.
Qed.

(** [sync_ready] and [shadows_apart] only depend on the unified
    groups, the two tables and the shape of the sub-optimizers. *)
Lemma sync_ready_ext (s s' : HDO) :
  param_groups s' = param_groups s ->
  gpu_params_map_cpu_copy s' = gpu_params_map_cpu_copy s ->
  cpu_copys_map_gpu_param s' = cpu_copys_map_gpu_param s ->
  group_shapes (cpu_optimizers s') = group_shapes (cpu_optimizers s) ->
  group_shapes (sub_optimizers s') = group_shapes (sub_optimizers s) ->
  sync_ready s -> sync_ready s'.
Proof.
  intros Hpg Hg2c Hc2g Hcpu Hsub (H1 & H2 & H3).
  unfold sync_ready, sub_optimizer_params, host_optimizer_params.
  rewrite !shapes_params, shapes_nonempty, Hpg, Hg2c, Hc2g, Hcpu, Hsub.
  rewrite <- !shapes_params, <- shapes_nonempty. done.
Qed.

Lemma sync_groups_shape (U : list ParamGroup) (idx : gmap positive (nat * nat))
    (gs gs' : list ParamGroup) :
  Forall2 (fun g g' => exists ug, governing_group U idx g = Some ug /\
                                  g' = synced_group ug g) gs gs' ->
  g_params <$> gs' = g_params <$> gs.
Proof.
  induction 1 as [|g g' gs gs' (ug & _ & ->) _ IH]; [done|].
  by rewrite !fmap_cons, IH.
Qed.

Lemma sync_shapes (s s1 : HDO) (h h1 : Heap) :
  _sync_hdo_param_groups_to_sub_optimizers s h = (inr s1, h1) ->
  group_shapes (cpu_optimizers s1) = group_shapes (cpu_optimizers s) /\
  group_shapes (sub_optimizers s1) = group_shapes (sub_optimizers s) /\
  opt_id <$> cpu_optimizers s1 = opt_id <$> cpu_optimizers s.
Proof.
  unfold _sync_hdo_param_groups_to_sub_optimizers. intros Hrun.
  set (idx := build_param_index _ _) in *.
  apply bind_inr in Hrun as (acc & h2 & Hcpus & Hrun).
  apply bind_inr in Hrun as (gpu & h3 & Hgpu & [= <- <-]).
  apply sync_cpu_optimizers_rel in Hcpus as (os' & Hos & Hrel). simpl in Hos.
  assert (Hc : group_shapes acc.1.1 = group_shapes (cpu_optimizers s) /\
               opt_id <$> acc.1.1 = opt_id <$> cpu_optimizers s).
  { rewrite Hos. clear -Hrel. unfold group_shapes.
    induction Hrel as [|o o' os os' (gs' & -> & Hall) _ IH]; [done|].
    destruct IH as [IH1 IH2]. rewrite !fmap_cons, IH1, IH2. simpl.
    by rewrite (sync_groups_shape _ _ _ _ Hall). }
  destruct Hc as [Hc1 Hc2]. unfold sub_optimizers. simpl.
  split_and!; [done| |done].
  destruct (gpu_optimizer s) as [o|].
  - apply bind_inr in Hgpu as (o' & h4 & Ho & [= <- <-]).
    unfold sync_gpu_optimizer in Ho.
    apply bind_inr in Ho as (gs' & h5 & Hgs & [= <- <-]).
    apply sync_groups_inr in Hgs as (_ & gs'' & Heq & Hall).
    simpl in Heq. subst gs''. unfold group_shapes in *.
    rewrite !fmap_app, Hc1. simpl.
    by rewrite (sync_groups_shape _ _ _ _ Hall).
  - by injection Hgpu as <- <-.
Qed.

(** ** [step] *)

Lemma step_cpu_optimizers_map (rule : StepRule) (h : Heap)
    (os : list SubOptimizer) :
  forall acc : list SubOptimizer * gmap nat Event,
    foldM (fun (acc : list SubOptimizer * gmap nat Event) cpu_optimizer =>
             let evs := delete (opt_id cpu_optimizer) acc.2 in
             let* o' := opt_step rule cpu_optimizer in
             ret (acc.1 ++ [o'], evs)) acc os h
    = (inr (acc.1 ++ ((fun o => set_opt_state o
                                  (rule (opt_cls o) (opt_param_groups o) (grad h)
                                     (opt_state o))) <$> os),
            foldl (fun evs o => delete (opt_id o) evs) acc.2 os), h).
Proof.
  induction os as [|o os IH]; intros acc; simpl.
  - rewrite app_nil_r. by destruct acc.
  - unfold bind at 1. unfold bind at 1. rewrite opt_step_run. unfold ret at 1.
    rewrite IH. simpl. by rewrite <- (assoc_L (++)).
Qed.

Lemma foldl_delete_lookup (os : list SubOptimizer) (evs : gmap nat Event)
    (k : nat) :
  foldl (fun evs o => delete (opt_id o) evs) evs os !! k
  = if bool_decide (k ∈ opt_id <$> os) then None else evs !! k.
Proof.
  revert evs. induction os as [|o os IH]; intros evs; simpl; [done|].
  rewrite IH. destruct (decide (k = opt_id o)) as [->|Hne].
  - rewrite lookup_delete_eq. rewrite (bool_decide_eq_true_2 (_ ∈ _ :: _)).
    + by case_bool_decide.
    + by left.
  - rewrite lookup_delete_ne by done.
    case_bool_decide as H1; case_bool_decide as H2; try done.
    + exfalso. apply H2. by right.
    + exfalso. apply elem_of_cons in H2 as [?|?]; done.
Qed.

Lemma step_closed (rule : StepRule) (s : HDO) (h : Heap) :
  step rule s h
  = (inr (set_sub_optimizers s
            ((fun o => set_opt_state o
                         (rule (opt_cls o) (opt_param_groups o) (grad h)
                            (opt_state o))) <$> cpu_optimizers s)
            ((fun o => set_opt_state o
                         (rule (opt_cls o) (opt_param_groups o) (grad h)
                            (opt_state o))) <$> gpu_optimizer s)
            (cpu_copy_map_grad s)
            (foldl (fun evs o => delete (opt_id o) evs)
                   (_cpu_optimizer_map_data_event s) (cpu_optimizers s))), h).
Proof.
  unfold step. destruct (gpu_optimizer s) as [o|]; simpl.
  - unfold bind at 1. unfold bind at 1. rewrite opt_step_run. unfold ret at 1.
    by rewrite (bind_run _ _ _ _ _ (step_cpu_optimizers_map rule h _ _)).
  - unfold bind at 1. unfold ret at 1.
    by rewrite (bind_run _ _ _ _ _ (step_cpu_optimizers_map rule h _ _)).
Qed.

Lemma step_shapes (rule : StepRule) (s s' : HDO) (h h' : Heap) :
  step rule s h = (inr s', h') ->
  h' = h /\
  group_shapes (cpu_optimizers s') = group_shapes (cpu_optimizers s) /\
  group_shapes (sub_optimizers s') = group_shapes (sub_optimizers s) /\
  opt_id <$> cpu_optimizers s' = opt_id <$> cpu_optimizers s.
Proof.
  rewrite step_closed. intros [= <- <-]. unfold sub_optimizers, group_shapes.
  simpl. split; [done|].
  assert (Hc : (fun o => g_params <$> opt_param_groups o)
               <$> ((fun o => set_opt_state o
                                (rule (opt_cls o) (opt_param_groups o) (grad h)
                                   (opt_state o))) <$> cpu_optimizers s)
               = (fun o => g_params <$> opt_param_groups o) <$> cpu_optimizers s).
  { rewrite <- list_fmap_compose. by apply list_fmap_ext. }
  split_and!; [done| |].
  - destruct (gpu_optimizer s) as [o|]; simpl; [|done].
    by rewrite !fmap_app, Hc.
  - rewrite <- list_fmap_compose. by apply list_fmap_ext.
Qed.

(** ** The copy-back hooks *)

Lemma foldM_ext_in {A B} (f g : B -> A -> M B) (l : list A) :
  (forall b a h, a ∈ l -> f b a h = g b a h) ->
  forall b h, foldM f b l h = foldM g b l h.
Proof.
  induction l as [|a l IH]; intros Hfg b h; simpl; [done|].
  unfold bind. rewrite Hfg by left.
  destruct (g b a h) as [[e|b'] h1]; [done|].
  apply IH. intros b0 a0 h0 Ha0. apply Hfg. by right.
Qed.

Lemma copy_back_returns (s : HDO) (o : SubOptimizer) (h : Heap) :
  (forall p, p ∈ group_params (opt_param_groups o) ->
     is_Some (cpu_copys_map_gpu_param s !! tid p)) ->
  param_copy_back_gpu_hook s o h = (inr tt, h).
Proof.
  unfold param_copy_back_gpu_hook.
  induction (group_params (opt_param_groups o)) as [|p ps IH]; intros Hall;
    simpl; [done|].
  destruct (Hall p) as [gpu Hgpu]; [by left|].
  unfold bind at 1. unfold bind at 1. rewrite Hgpu. simpl.
  apply IH. intros q Hq. apply Hall. by right.
Qed.

Lemma copy_back_raises (s : HDO) (o : SubOptimizer) (h : Heap) (p : Tensor) :
  p ∈ group_params (opt_param_groups o) ->
  cpu_copys_map_gpu_param s !! tid p = None ->
  param_copy_back_gpu_hook s o h = (inl KeyError, h).
Proof.
  unfold param_copy_back_gpu_hook.
  induction (group_params (opt_param_groups o)) as [|q ps IH]; intros Hp Hnone.
  - by apply elem_of_nil in Hp.
  - simpl. unfold bind at 1. unfold bind at 1.
    destruct (cpu_copys_map_gpu_param s !! tid q) as [gpu|] eqn:Hq; simpl.
    + apply IH; [|done]. apply elem_of_cons in Hp as [->|Hp]; [congruence|done].
    + done.
Qed.

Lemma host_params_elem (s : HDO) (o : SubOptimizer) (p : Tensor) :
  o ∈ cpu_optimizers s -> p ∈ group_params (opt_param_groups o) ->
  p ∈ host_optimizer_params s.
Proof.
  intros Ho Hp. unfold host_optimizer_params. apply elem_of_concat.
  exists (group_params (opt_param_groups o)). split; [|done].
  by apply (list_elem_of_fmap_2 (fun o => group_params (opt_param_groups o))).
Qed.

Lemma bind_ext {A B} (m : M A) (k1 k2 : A -> M B) (h : Heap) :
  (forall a h1, k1 a h1 = k2 a h1) -> bind m k1 h = bind m k2 h.
Proof.
  intros Hk. unfold bind. destruct (m h) as [[e|a] h1]; [done|]. apply Hk.
Qed.

Lemma bind_ext_l {A B} (m1 m2 : M A) (k : A -> M B) (h : Heap) :
  m1 h = m2 h -> bind m1 k h = bind m2 k h.
Proof. unfold bind. by intros ->. Qed.

Lemma copy_back_cases (s : HDO) (o : SubOptimizer) (h : Heap) :
  param_copy_back_gpu_hook s o h = (inr tt, h) \/
  param_copy_back_gpu_hook s o h = (inl KeyError, h).
Proof.
  unfold param_copy_back_gpu_hook.
  induction (group_params (opt_param_groups o)) as [|q ps IH]; simpl;
    [by left|].
  unfold bind at 1 3. unfold bind at 1 3.
  destruct (cpu_copys_map_gpu_param s !! tid q); simpl; [exact IH|by right].
Qed.

Lemma step_with_copy_back_step (rule : StepRule) (s : HDO) (h : Heap) :
  (forall c, c ∈ host_optimizer_params s ->
     is_Some (cpu_copys_map_gpu_param s !! tid c)) ->
  step_with_copy_back rule s h = step rule s h.
Proof.
  intros Hmapped. unfold step_with_copy_back, step.
  apply bind_ext. intros gpu h1. apply bind_ext_l. apply foldM_ext_in.
  intros acc o h0 Ho. simpl. unfold cpu_optimizer_step.
  unfold bind. rewrite opt_step_run.
  rewrite copy_back_returns; [done|].
  intros p Hp. simpl in Hp. apply Hmapped. by eapply host_params_elem.
Qed.

(** X11.  The step with the copy-back hooks of the host
    sub-optimizers.  When every parameter of a host sub-optimizer is in
    the host-to-device table the step returns: each sub-optimizer has
    had its update applied once, with the gradients of the moment and
    its groups untouched; the pending event of every host
    sub-optimizer is consumed and no other; the heap is as it was.
    When a host parameter is missing from the table, the step raises
    [KeyError]. *)
Theorem step_with_copy_back_outcome (rule : StepRule) (s : HDO) (h : Heap) :
  ((forall c, c ∈ host_optimizer_params s ->
      is_Some (cpu_copys_map_gpu_param s !! tid c)) ->
   exists s',
     step_with_copy_back rule s h = (inr s', h) /\
     cpu_optimizers s'
     = (fun o => set_opt_state o
                   (rule (opt_cls o) (opt_param_groups o) (grad h) (opt_state o)))
         <$> cpu_optimizers s /\
     gpu_optimizer s'
     = (fun o => set_opt_state o
                   (rule (opt_cls o) (opt_param_groups o) (grad h) (opt_state o)))
         <$> gpu_optimizer s /\
     (forall o, o ∈ cpu_optimizers s ->
        _cpu_optimizer_map_data_event s' !! opt_id o = None) /\
     (forall k, k ∉ opt_id <$> cpu_optimizers s ->
        _cpu_optimizer_map_data_event s' !! k
        = _cpu_optimizer_map_data_event s !! k) /\
     param_groups s' = param_groups s /\ state s' = state s /\
     cpu_copy_map_grad s' = cpu_copy_map_grad s) /\
  (forall c, c ∈ host_optimizer_params s ->
     cpu_copys_map_gpu_param s !! tid c = None ->
     exists h', step_with_copy_back rule s h = (inl KeyError, h')).
Proof.
  split.
  - intros Hmapped. rewrite (step_with_copy_back_step _ _ _ Hmapped), step_closed.
    eexists. split; [reflexivity|]. simpl. split_and!; try done.
    + intros o Ho. rewrite foldl_delete_lookup.
      rewrite bool_decide_eq_true_2; [done|]. by apply list_elem_of_fmap_2.
    + intros k Hk. rewrite foldl_delete_lookup.
      by rewrite bool_decide_eq_false_2.
  - intros c (ps & (o & -> & Ho)%list_elem_of_fmap & Hc)%elem_of_concat Hnone.
    unfold step_with_copy_back.
    assert (Hgpu : exists gpu,
              match gpu_optimizer s with
              | Some o => let* o' := opt_step rule o in ret (Some o')
              | None => ret None
              end h = (inr gpu, h)).
    { destruct (gpu_optimizer s) as [og|]; [|by eexists].
      unfold bind. rewrite opt_step_run. by eexists. }
    destruct Hgpu as [gpu Hgpu]. rewrite (bind_run _ _ _ _ _ Hgpu).
    assert (Hfold : forall os acc,
              o ∈ os ->
              exists h',
                foldM (fun (acc : list SubOptimizer * gmap nat Event)
                           cpu_optimizer =>
                         let evs := delete (opt_id cpu_optimizer) acc.2 in
                         let* o' := cpu_optimizer_step rule s cpu_optimizer in
                         ret (acc.1 ++ [o'], evs)) acc os h
                = (inl KeyError, h')).
    { induction os as [|o0 os IH]; intros acc Hin.
      - by apply elem_of_nil in Hin.
      - simpl. unfold bind at 1. unfold bind at 1. unfold cpu_optimizer_step.
        unfold bind at 1. rewrite opt_step_run. unfold bind at 1.
        apply elem_of_cons in Hin as [<-|Hin].
        + rewrite (copy_back_raises s _ h c); [by eexists|done|done].
        + destruct (copy_back_cases s
                      (set_opt_state o0
                         (rule (opt_cls o0) (opt_param_groups o0) (grad h)
                            (opt_state o0))) h) as [-> | ->];
            [|by eexists].
          unfold ret at 1. by apply IH. }
    destruct (Hfold (cpu_optimizers s) ([], _cpu_optimizer_map_data_event s) Ho)
      as [h' Hrun].
    exists h'. by rewrite (bind_raise _ _ _ _ _ Hrun).
Qed.

(** A run of [step_with_copy_back_outcome]: the scenario, freshly
    constructed; every host parameter is in the table, and the step
    leaves the heap as it is. *)
Lemma step_with_copy_back_outcome_witness :
  exists s h s',
    HybridDeviceOptimizer_init (Flat scenario_params)
      (scenario_defaults PyFloat.f0_5 true true) heap0 = (inr s, h) /\
    (forall c, c ∈ host_optimizer_params s ->
       is_Some (cpu_copys_map_gpu_param s !! tid c)) /\
    step_with_copy_back momentum_step s h = (inr s', h) /\
    param_groups s' = param_groups s.
Proof.
  destruct (returns_with_spec
              (HybridDeviceOptimizer_init (Flat scenario_params)
                 (scenario_defaults PyFloat.f0_5 true true)) heap0
              (fun _ _ => true) ltac:(vm_compute; reflexivity))
    as (s & h & Hrun & _).
  assert (Hmapped : forall c, c ∈ host_optimizer_params s ->
                      is_Some (cpu_copys_map_gpu_param s !! tid c)).
  { pose proof Hrun as (groups & Hbase & _ & Hinit)%HybridDeviceOptimizer_init_inr.
    destruct (init_sub_optimizers_ready _ _ _ _ _ _ _ Hinit)
      as [(_ & _ & Hm) _].
    - by eapply Optimizer_init_params.
    - apply (bool_decide_unpack _). vm_compute. exact I.
    - repeat constructor.
    - intros c Hc. destruct (Hm c Hc) as (gpu & Hgpu & _). eauto. }
  destruct (step_with_copy_back_outcome momentum_step s h) as [Hstep _].
  destruct (Hstep Hmapped) as (s' & Hs' & _ & _ & _ & _ & Hpg & _).
  exists s, h, s'. split; [exact Hrun|]. split; [exact Hmapped|].
  split; [exact Hs'|exact Hpg].
Defined.

(** ** What every hooked step keeps *)

Lemma sync_fields (s s1 : HDO) (h h1 : Heap) :
  _sync_hdo_param_groups_to_sub_optimizers s h = (inr s1, h1) ->
  param_groups s1 = param_groups s /\
  gpu_params_map_cpu_copy s1 = gpu_params_map_cpu_copy s /\
  cpu_copys_map_gpu_param s1 = cpu_copys_map_gpu_param s /\
  state s1 = state s.
Proof.
  unfold _sync_hdo_param_groups_to_sub_optimizers. intros Hrun.
  apply bind_inr in Hrun as (acc & h2 & _ & Hrun).
  by apply bind_inr in Hrun as (gpu & h3 & _ & [= <- <-]).
Qed.

Lemma step_with_hooks_inr (rule : StepRule) (s s' : HDO) (h h' : Heap) :
  step_with_hooks rule s h = (inr s', h') ->
  exists s1 s2,
    _sync_hdo_param_groups_to_sub_optimizers s h = (inr s1, h') /\
    step rule s1 h' = (inr s2, h') /\
    s' = _sync_sub_optimizers_state_to_hdo s2.
Proof.
  unfold step_with_hooks, pre_step_hook, post_step_hook. intros Hrun.
  apply bind_inr in Hrun as (s1 & h1 & Hsync & Hrun).
  apply bind_inr in Hrun as (s2 & h2 & Hstep & [= <- <-]).
  pose proof Hstep as (-> & _)%step_shapes. eauto.
Qed.

Lemma step_with_hooks_keeps (rule : StepRule) (s s' : HDO) (h h' : Heap) :
  step_with_hooks rule s h = (inr s', h') ->
  param_groups s' = param_groups s /\
  gpu_params_map_cpu_copy s' = gpu_params_map_cpu_copy s /\
  cpu_copys_map_gpu_param s' = cpu_copys_map_gpu_param s /\
  group_shapes (cpu_optimizers s') = group_shapes (cpu_optimizers s) /\
  group_shapes (sub_optimizers s') = group_shapes (sub_optimizers s) /\
  opt_id <$> cpu_optimizers s' = opt_id <$> cpu_optimizers s /\
  grads_kept h h'.
Proof.
  intros (s1 & s2 & Hsync & Hstep & ->)%step_with_hooks_inr.
  destruct (sync_fields _ _ _ _ Hsync) as (Hpg & Hg2c & Hc2g & _).
  destruct (sync_shapes _ _ _ _ Hsync) as (Hc1 & Hs1 & Hi1).
  destruct (sync_params _ _ _ _ Hsync) as [Hkept _].
  pose proof Hstep as (_ & Hc2 & Hs2 & Hi2)%step_shapes.
  assert (Hf : param_groups s2 = param_groups s1 /\
               gpu_params_map_cpu_copy s2 = gpu_params_map_cpu_copy s1 /\
               cpu_copys_map_gpu_param s2 = cpu_copys_map_gpu_param s1).
  { rewrite step_closed in Hstep. by injection Hstep as <-. }
  destruct Hf as (Hpg2 & Hg2c2 & Hc2g2).
  change (param_groups (_sync_sub_optimizers_state_to_hdo s2))
    with (param_groups s2).
  change (gpu_params_map_cpu_copy (_sync_sub_optimizers_state_to_hdo s2))
    with (gpu_params_map_cpu_copy s2).
  change (cpu_copys_map_gpu_param (_sync_sub_optimizers_state_to_hdo s2))
    with (cpu_copys_map_gpu_param s2).
  change (cpu_optimizers (_sync_sub_optimizers_state_to_hdo s2))
    with (cpu_optimizers s2).
  change (sub_optimizers (_sync_sub_optimizers_state_to_hdo s2))
    with (sub_optimizers s2).
  rewrite Hpg2, Hg2c2, Hc2g2, Hc2, Hs2, Hi2. by split_and!.
Qed.

(** X12.  After the construction over parameters that are all
    different and were allocated before, the optimizer is ready for
    the hyperparameter sync: no sub-optimizer group is empty; every
    parameter of a sub-optimizer is a unified parameter or the shadow
    of one; every host parameter has its device parameter, a unified
    parameter, in the host-to-device table; and no device parameter is
    itself a shadow. *)
Theorem init_ready (params : ParamsT) (d : Defaults) (h h' : Heap) (s : HDO) :
  HybridDeviceOptimizer_init params d h = (inr s, h') ->
  NoDup (tid <$> flatten_params params) ->
  Forall (fun p => (tid p < next_tid h)%positive) (flatten_params params) ->
  sync_ready s /\ shadows_apart s.
Proof.
  intros (groups & Hbase & _ & Hinit)%HybridDeviceOptimizer_init_inr Hnd Hold.
  pose proof (Optimizer_init_params _ _ _ Hbase) as Hgroups.
  assert (Hfl : flatten_params (match params with
                                | Flat ps => Flat ps
                                | Grouped _ => Grouped groups
                                end) = flatten_params params).
  { by destruct params. }
  eapply init_sub_optimizers_ready; [exact Hinit| | |]; by rewrite Hfl.
Qed.

(** A run of [init_ready] on the grouped scenario. *)
Lemma init_ready_witness :
  exists s h',
    HybridDeviceOptimizer_init (Grouped scenario_groups)
      (scenario_defaults PyFloat.f0_5 false true) heap0 = (inr s, h') /\
    NoDup (tid <$> flatten_params (Grouped scenario_groups)) /\
    Forall (fun p => (tid p < next_tid heap0)%positive)
           (flatten_params (Grouped scenario_groups)) /\
    sync_ready s /\ shadows_apart s.
Proof.
  destruct (returns_with_spec
              (HybridDeviceOptimizer_init (Grouped scenario_groups)
                 (scenario_defaults PyFloat.f0_5 false true)) heap0
              (fun _ _ => true) ltac:(vm_compute; reflexivity))
    as (s & h' & Hrun & _).
  assert (Hnd : NoDup (tid <$> flatten_params (Grouped scenario_groups))).
  { apply (bool_decide_unpack _). vm_compute. exact I. }
  assert (Hold : Forall (fun p => (tid p < next_tid heap0)%positive)
                   (flatten_params (Grouped scenario_groups))).
  { repeat constructor. }
  exists s, h'. split; [exact Hrun|]. split; [exact Hnd|]. split; [exact Hold|].
  exact (init_ready _ _ _ _ _ Hrun Hnd Hold).
Defined.

Lemma ready_grads (s : HDO) (h : Heap) :
  sync_ready s ->
  (grads_present s h <->
   forall c, c ∈ host_optimizer_params s ->
     exists gpu, cpu_copys_map_gpu_param s !! tid c = Some gpu /\
                 is_Some (grad h !! tid gpu)).
Proof.
  intros (_ & _ & Hm). split.
  - intros Hg c Hc. destruct (Hm c Hc) as (gpu & Hgpu & _).
    exists gpu. split; [done|]. by eapply Hg.
  - intros Hg c gpu Hc Hgpu. destruct (Hg c Hc) as (gpu' & Hgpu' & Hsome).
    congruence.
Qed.

(** X13.  A hooked step of an optimizer that is ready for the sync, in
    which no device parameter is itself a shadow.  It returns exactly
    when the device parameter of every host parameter has a gradient.
    When it returns, the optimizer is still ready, with the same
    unified groups, tables and parameters of every sub-optimizer; no
    gradient has been lost; and the copy-back hooks of the step did not
    raise. *)
Theorem step_with_hooks_outcome (rule : StepRule) (s : HDO) (h : Heap) :
  sync_ready s -> shadows_apart s ->
  ((exists s' h', step_with_hooks rule s h = (inr s', h')) <->
   grads_present s h) /\
  (forall s' h', step_with_hooks rule s h = (inr s', h') ->
     sync_ready s' /\ shadows_apart s' /\
     param_groups s' = param_groups s /\
     sub_optimizer_params s' = sub_optimizer_params s /\
     grads_kept h h') /\
  (forall s1 h1, pre_step_hook s h = (inr s1, h1) ->
     step_with_copy_back rule s1 h1 = step rule s1 h1).
Proof.
  intros Hready Hapart. split_and!.
  - rewrite (ready_grads s h Hready).
    pose proof (sync_returns_when s h Hapart) as Hiff. split.
    + intros (s' & h' & (s1 & s2 & Hsync & _)%step_with_hooks_inr).
      apply Hiff. eauto.
    + intros Hg.
      destruct (proj2 Hiff) as (s1 & h1 & Hsync).
      { split; [by apply sync_ready_governed|done]. }
      unfold step_with_hooks, pre_step_hook, post_step_hook.
      rewrite (bind_run _ _ _ _ _ Hsync).
      rewrite (bind_run _ _ _ _ _ (step_closed rule s1 h1)). by eexists _, _.
  - intros s' h' Hrun.
    destruct (step_with_hooks_keeps _ _ _ _ _ Hrun)
      as (Hpg & Hg2c & Hc2g & Hcpu & Hsub & _ & Hkept).
    split_and!; try done.
    + by eapply sync_ready_ext.
    + unfold shadows_apart. rewrite Hc2g. exact Hapart.
    + unfold sub_optimizer_params. by rewrite !shapes_params, Hsub.
  - intros s1 h1 Hsync. apply step_with_copy_back_step.
    unfold pre_step_hook in Hsync.
    destruct (sync_fields _ _ _ _ Hsync) as (_ & _ & Hc2g & _).
    destruct (sync_shapes _ _ _ _ Hsync) as (Hcpu & _).
    destruct Hready as (_ & _ & Hm).
    unfold host_optimizer_params. rewrite shapes_params, Hcpu, <- shapes_params.
    rewrite Hc2g. intros c Hc. destruct (Hm c Hc) as (gpu & Hgpu & _). eauto.
Qed.

(** A run of [step_with_hooks_outcome]: the scenario, constructed, with
    a gradient on every parameter; the hooked step returns and the
    optimizer stays ready. *)
Lemma step_with_hooks_outcome_witness :
  exists s h s' h',
    scenario_with_grads (scenario_defaults PyFloat.f0_5 true true) heap0
      = (inr s, h) /\
    sync_ready s /\ shadows_apart s /\
    step_with_hooks momentum_step s h = (inr s', h') /\
    grads_present s h /\ sync_ready s'.
Proof.
  destruct (returns_with_spec
              (let* s := HybridDeviceOptimizer_init (Flat scenario_params)
                           (scenario_defaults PyFloat.f0_5 true true) in
               let* _ := assign_dummy_grads s in
               let* s' := step_with_hooks momentum_step s in
               ret s)
              heap0 (fun _ _ => true) ltac:(vm_compute; reflexivity))
    as (s0 & h1 & Hrun & _).
  apply bind_inr in Hrun as (s & h0 & Hinit & Hrun).
  apply bind_inr in Hrun as ([] & h & Hgrads & Hrun).
  apply bind_inr in Hrun as (s' & h' & Hstep & _).
  assert (Hr : sync_ready s /\ shadows_apart s).
  { apply HybridDeviceOptimizer_init_inr in Hinit as (groups & Hbase & _ & Hinit).
    eapply (init_sub_optimizers_ready _ _ _ _ _ _ _ Hinit).
    - by eapply Optimizer_init_params.
    - apply (bool_decide_unpack _). vm_compute. exact I.
    - repeat constructor. }
  destruct Hr as [Hready Hapart].
  destruct (step_with_hooks_outcome momentum_step s h Hready Hapart)
    as (Hiff & Hkeeps & _).
  exists s, h, s', h'. split.
  { unfold scenario_with_grads. rewrite (bind_run _ _ _ _ _ Hinit).
    by rewrite (bind_run _ _ _ _ _ Hgrads). }
  split; [exact Hready|]. split; [exact Hapart|]. split; [exact Hstep|].
  split.
  - apply Hiff. exists s', h'. exact Hstep.
  - exact (proj1 (Hkeeps s' h' Hstep)).
Defined.

(** X14.  [dummy_step] does not raise on an optimizer that is ready
    for the sync and in which no device parameter is itself a shadow
    (as after construction), whatever the gradients were; and the
    optimizer is still ready afterwards. *)
Theorem dummy_step_returns (rule : StepRule) (s : HDO) (h : Heap) :
  sync_ready s -> shadows_apart s ->
  exists s' h',
    dummy_step rule s h = (inr s', h') /\
    sync_ready s' /\ shadows_apart s' /\
    param_groups s' = param_groups s.
Proof.
  intros Hready Hapart. unfold dummy_step.
  destruct (assign_grads_run (group_params (param_groups s)) h)
    as (h1 & Hassign & _ & Hgrads).
  unfold assign_dummy_grads at 1. rewrite (bind_run _ _ _ _ _ Hassign).
  assert (Hpresent : forall c, c ∈ host_optimizer_params s ->
            exists gpu, cpu_copys_map_gpu_param s !! tid c = Some gpu /\
                        is_Some (grad h1 !! tid gpu)).
  { destruct Hready as (_ & _ & Hm). intros c Hc.
    destruct (Hm c Hc) as (gpu & Hgpu & Hin). exists gpu.
    split; [done|]. by apply Hgrads. }
  destruct (proj2 (sync_returns_when s h1 Hapart)) as (s1 & h2 & Hsync).
  { split; [by apply sync_ready_governed|done]. }
  assert (Hstep : step_with_hooks rule s h1
                  = (inr (_sync_sub_optimizers_state_to_hdo
                            (set_sub_optimizers s1
                               ((fun o => set_opt_state o
                                   (rule (opt_cls o) (opt_param_groups o)
                                      (grad h2) (opt_state o)))
                                  <$> cpu_optimizers s1)
                               ((fun o => set_opt_state o
                                   (rule (opt_cls o) (opt_param_groups o)
                                      (grad h2) (opt_state o)))
                                  <$> gpu_optimizer s1)
                               (cpu_copy_map_grad s1)
                               (foldl (fun evs o => delete (opt_id o) evs)
                                  (_cpu_optimizer_map_data_event s1)
                                  (cpu_optimizers s1)))), h2)).
  { unfold step_with_hooks, pre_step_hook, post_step_hook.
    rewrite (bind_run _ _ _ _ _ Hsync).
    by rewrite (bind_run _ _ _ _ _ (step_closed rule s1 h2)). }
  rewrite (bind_run _ _ _ _ _ Hstep).
  match goal with
  | |- context [zero_grad true ?s2] =>
      destruct (zero_grad_run s2 h2) as (h3 & Hzero & _)
  end.
  rewrite (bind_run _ _ _ _ _ Hzero).
  eexists _, _. split; [reflexivity|].
  destruct (step_with_hooks_keeps _ _ _ _ _ Hstep)
    as (Hpg & Hg2c & Hc2g & Hcpu & Hsub & _).
  split_and!; [by eapply sync_ready_ext| |done].
  unfold shadows_apart. rewrite Hc2g. exact Hapart.
Qed.

(** A run of [dummy_step_returns] on the scenario, freshly
    constructed. *)
Lemma dummy_step_returns_witness :
  exists s h s' h',
    HybridDeviceOptimizer_init (Flat scenario_params)
      (scenario_defaults PyFloat.f0_5 true true) heap0 = (inr s, h) /\
    sync_ready s /\ shadows_apart s /\
    dummy_step momentum_step s h = (inr s', h').
Proof.
  destruct (returns_with_spec
              (HybridDeviceOptimizer_init (Flat scenario_params)
                 (scenario_defaults PyFloat.f0_5 true true)) heap0
              (fun _ _ => true) ltac:(vm_compute; reflexivity))
    as (s & h & Hrun & _).
  assert (Hr : sync_ready s /\ shadows_apart s).
  { pose proof Hrun as (groups & Hbase & _ & Hinit)%HybridDeviceOptimizer_init_inr.
    eapply (init_sub_optimizers_ready _ _ _ _ _ _ _ Hinit).
    - by eapply Optimizer_init_params.
    - apply (bool_decide_unpack _). vm_compute. exact I.
    - repeat constructor. }
  destruct Hr as [Hready Hapart].
  destruct (dummy_step_returns momentum_step s h Hready Hapart)
    as (s' & h' & Hdummy & _).
  exists s, h, s', h'. split; [exact Hrun|]. split; [exact Hready|].
  split; [exact Hapart|exact Hdummy].
Defined.

(** ** What the sync does to the gradients *)

Lemma stage_params_effect (c2g : gmap positive Tensor) (pin : bool)
    (ps : list Tensor) :
  forall bufs h bufs' h',
    foldM (stage_param c2g pin) bufs ps h = (inr bufs', h') ->
    bufs ⊆ bufs' /\
    (forall p, p ∈ ps ->
       exists buf, bufs' !! tid p = Some buf /\ grad h' !! tid p = Some buf) /\
    (forall k, k ∉ tid <$> ps -> grad h' !! k = grad h !! k) /\
    (forall k buf, bufs !! k = Some buf -> grad h !! k = Some buf ->
       grad h' !! k = Some buf).
Proof.
  induction ps as [|p ps IH]; intros bufs h bufs' h' Hrun; simpl in Hrun.
  - injection Hrun as <- <-. split_and!; try done.
    intros p Hp. by apply elem_of_nil in Hp.
  - apply bind_inr in Hrun as (bufs1 & h1 & Hp & Hrest).
    apply stage_param_inr in Hp as (gpu & g & buf & Hgpu & Hg & Hbuf & Hsub & Hgr).
    destruct (IH _ _ _ _ Hrest) as (Hsub' & Hin & Hout & Hkeep).
    assert (Hp1 : grad h1 !! tid p = Some buf)
      by by rewrite Hgr, lookup_insert_eq.
    split_and!.
    + by etrans.
    + intros q [->|Hq]%elem_of_cons; [|by apply Hin].
      exists buf. split; [exact (lookup_weaken _ _ _ _ Hbuf Hsub')|by apply Hkeep].
    + intros k Hk. rewrite fmap_cons in Hk.
      apply not_elem_of_cons in Hk as [Hne Hk].
      by rewrite (Hout k Hk), Hgr, lookup_insert_ne.
    + intros k b Hb Hgk.
      pose proof (lookup_weaken _ _ _ _ Hb Hsub) as Hb1.
      apply Hkeep; [exact Hb1|].
      rewrite Hgr. destruct (decide (tid p = k)) as [<-|Hne].
      * rewrite lookup_insert_eq. congruence.
      * by rewrite lookup_insert_ne.
Qed.

Lemma sync_cpu_optimizers_effect (s : HDO) (idx : gmap positive (nat * nat))
    (os : list SubOptimizer) :
  forall acc h acc' h',
    foldM (sync_cpu_optimizer s idx) acc os h = (inr acc', h') ->
    acc.1.2 ⊆ acc'.1.2 /\
    (forall p, p ∈ concat ((fun o => group_params (opt_param_groups o)) <$> os) ->
       exists buf, acc'.1.2 !! tid p = Some buf /\ grad h' !! tid p = Some buf) /\
    (forall k,
       k ∉ tid <$> concat ((fun o => group_params (opt_param_groups o)) <$> os) ->
       grad h' !! k = grad h !! k) /\
    (forall k buf, acc.1.2 !! k = Some buf -> grad h !! k = Some buf ->
       grad h' !! k = Some buf) /\
    (forall o, o ∈ os ->
       acc'.2 !! opt_id o = Some (record_event (_d2h_stream s))) /\
    (forall k, k ∉ opt_id <$> os -> acc'.2 !! k = acc.2 !! k).
Proof.
  induction os as [|o os IH]; intros acc h acc' h' Hrun; simpl in Hrun.
  - injection Hrun as <- <-. split_and!; try done.
    + intros p Hp. by apply elem_of_nil in Hp.
    + intros o Ho. by apply elem_of_nil in Ho.
  - apply bind_inr in Hrun as (acc1 & h1 & Ho & Hrest).
    unfold sync_cpu_optimizer in Ho.
    apply bind_inr in Ho as (gs' & h2 & Hgs & Ho).
    apply bind_inr in Ho as (bufs & h3 & Hst & [= <- <-]).
    apply sync_groups_inr in Hgs as (-> & _).
    apply stage_params_effect in Hst as (Hsub & Hin & Hout & Hkeep).
    destruct (IH _ _ _ _ Hrest) as (Hsub' & Hin' & Hout' & Hkeep' & Hev & Hev').
    simpl in *. split_and!.
    + by etrans.
    + intros p [Hp|Hp]%elem_of_app; [|by apply Hin'].
      destruct (Hin p Hp) as (buf & Hb & Hg). exists buf.
      split; [exact (lookup_weaken _ _ _ _ Hb Hsub')|by apply Hkeep'].
    + intros k Hk. rewrite fmap_app in Hk.
      apply not_elem_of_app in Hk as [Hk1 Hk2].
      by rewrite (Hout' k Hk2), (Hout k Hk1).
    + intros k b Hb Hg.
      apply Hkeep'; [exact (lookup_weaken _ _ _ _ Hb Hsub)|by apply Hkeep].
    + intros o' [->|Ho']%elem_of_cons; [|by apply Hev].
      destruct (decide (opt_id o ∈ opt_id <$> os)) as [Hin2|Hout2].
      * apply list_elem_of_fmap in Hin2 as (o2 & -> & Ho2). by apply Hev.
      * by rewrite (Hev' _ Hout2), lookup_insert_eq.
    + intros k Hk. apply not_elem_of_cons in Hk as [Hne Hk].
      by rewrite (Hev' _ Hk), lookup_insert_ne.
Qed.

(** The effect of a sync that returns, on the buffers, the gradients
    and the events. *)
Lemma sync_effect (s s1 : HDO) (h h1 : Heap) :
  _sync_hdo_param_groups_to_sub_optimizers s h = (inr s1, h1) ->
  cpu_copy_map_grad s ⊆ cpu_copy_map_grad s1 /\
  (forall c, c ∈ host_optimizer_params s ->
     exists buf, cpu_copy_map_grad s1 !! tid c = Some buf /\
                 grad h1 !! tid c = Some buf) /\
  (forall k, k ∉ tid <$> host_optimizer_params s -> grad h1 !! k = grad h !! k) /\
  (forall o, o ∈ cpu_optimizers s ->
     _cpu_optimizer_map_data_event s1 !! opt_id o
     = Some (record_event (_d2h_stream s))) /\
  (forall k, k ∉ opt_id <$> cpu_optimizers s ->
     _cpu_optimizer_map_data_event s1 !! k
     = _cpu_optimizer_map_data_event s !! k).
Proof.
  unfold _sync_hdo_param_groups_to_sub_optimizers. intros Hrun.
  apply bind_inr in Hrun as (acc & h2 & Hcpus & Hrun).
  apply bind_inr in Hrun as (gpu & h3 & Hgpu & [= <- <-]).
  assert (h3 = h2) as ->.
  { destruct (gpu_optimizer s) as [o|].
    - apply bind_inr in Hgpu as (o' & h4 & Ho & [= <- <-]).
      by apply sync_gpu_optimizer_inr in Ho as [-> _].
    - by injection Hgpu as <- <-. }
  apply sync_cpu_optimizers_effect in Hcpus
    as (Hsub & Hin & Hout & _ & Hev & Hev'). simpl in *.
  by split_and!.
Qed.

(** X15.  What a hyperparameter sync that returns does to the
    gradients.  Every parameter of a host sub-optimizer has a gradient
    buffer, and that buffer is its gradient; a buffer that existed
    before is the one in use, none is replaced.  The gradient of no
    other tensor changes: the device parameters keep theirs.  An event
    is pending for every host sub-optimizer. *)
Theorem sync_stages_gradients (s s1 : HDO) (h h1 : Heap) :
  _sync_hdo_param_groups_to_sub_optimizers s h = (inr s1, h1) ->
  cpu_copy_map_grad s ⊆ cpu_copy_map_grad s1 /\
  (forall c, c ∈ host_optimizer_params s ->
     exists buf, cpu_copy_map_grad s1 !! tid c = Some buf /\
                 grad h1 !! tid c = Some buf) /\
  (forall k, k ∉ tid <$> host_optimizer_params s -> grad h1 !! k = grad h !! k) /\
  (forall o, o ∈ cpu_optimizers s ->
     is_Some (_cpu_optimizer_map_data_event s1 !! opt_id o)).
Proof.
  intros Hrun.
  destruct (sync_effect _ _ _ _ Hrun) as (Hsub & Hin & Hout & Hev & _).
  split_and!; [done|done|done|]. intros o Ho. rewrite (Hev o Ho). eauto.
Qed.

(** A run of [sync_stages_gradients] on the scenario with gradients. *)
Lemma sync_stages_gradients_witness :
  exists s h s1 h1,
    scenario_with_grads (scenario_defaults PyFloat.f0_5 false true) heap0
      = (inr s, h) /\
    _sync_hdo_param_groups_to_sub_optimizers s h = (inr s1, h1) /\
    cpu_copy_map_grad s ⊆ cpu_copy_map_grad s1 /\
    grad h1 !! tid (cuda_param 3 200) = grad h !! tid (cuda_param 3 200).
Proof.
  destruct (returns_with_spec
              (let* s := scenario_with_grads
                           (scenario_defaults PyFloat.f0_5 false true) in
               let* _ := _sync_hdo_param_groups_to_sub_optimizers s in
               ret s)
              heap0
              (fun s _ => outside_host_optimizers 3 s)
              ltac:(vm_compute; reflexivity))
    as (s0 & h0 & Hrun & Hcheck).
  apply bind_inr in Hrun as (s & h & Hprep & Hrun).
  apply bind_inr in Hrun as (s1 & h1 & Hsync & Hret).
  injection Hret as <- <-.
  apply bool_decide_eq_true_1 in Hcheck.
  change (tid (cuda_param 3 200)) with 3%positive.
  destruct (sync_stages_gradients s s1 h h1 Hsync) as (Hsub & _ & Hout & _).
  exists s, h, s1, h1. split; [exact Hprep|]. split; [exact Hsync|].
  split; [exact Hsub|]. exact (Hout _ Hcheck).
Defined.

(** ** A second sync right after a sync *)






(** ** The state sync, sub-optimizers to unified state: the values *)







(** ** The state sync, unified state to sub-optimizers *)










(** ** The two state syncs, one after the other *)



(** ** The hook after [load_state_dict] *)

Lemma stage_params_no_grads (c2g : gmap positive Tensor) (pin : bool)
    (ps : list Tensor) (h : Heap) :
  (forall c, c ∈ ps ->
     exists gpu, c2g !! tid c = Some gpu /\ grad h !! tid gpu = None) ->
  ps <> [] ->
  foldM (stage_param c2g pin) ∅ ps h = (inl AttributeError, h).
Proof.
  destruct ps as [|p ps]; [done|]. intros Hall _.
  destruct (Hall p) as (gpu & Hgpu & Hg); [by left|].
  simpl. apply bind_raise.
  rewrite (stage_param_without_grad _ _ _ _ _ _ Hgpu Hg).
  by rewrite lookup_empty.
Qed.

(** Without gradient buffers and without gradients, the first host
    parameter stops the sync. *)
Lemma sync_cpu_optimizers_no_grads (s : HDO) (idx : gmap positive (nat * nat))
    (os : list SubOptimizer) :
  (forall o, o ∈ os ->
     Forall (fun g => is_Some (governing_group (param_groups s) idx g))
            (opt_param_groups o)) ->
  forall (acc : SyncAcc) h,
    acc.1.2 = ∅ ->
    (forall c, c ∈ concat ((fun o => group_params (opt_param_groups o)) <$> os) ->
       exists gpu, cpu_copys_map_gpu_param s !! tid c = Some gpu /\
                   grad h !! tid gpu = None) ->
    concat ((fun o => group_params (opt_param_groups o)) <$> os) <> [] ->
    foldM (sync_cpu_optimizer s idx) acc os h = (inl AttributeError, h).
Proof.
  induction os as [|o os IH]; intros Hgov acc h Hbufs Hall Hne; [done|].
  rewrite fmap_cons, concat_cons in Hall, Hne. simpl.
  destruct (sync_groups_returns _ idx (opt_param_groups o)
              (Hgov o ltac:(left)) [] h) as [gs' Hgs].
  destruct (group_params (opt_param_groups o)) as [|p ps] eqn:Hps.
  - erewrite bind_run.
    2:{ unfold sync_cpu_optimizer. rewrite (bind_run _ _ _ _ _ Hgs), Hps.
        simpl. reflexivity. }
    apply IH; [|done|done|done].
    intros o' Ho'. apply Hgov. by right.
  - apply bind_raise. unfold sync_cpu_optimizer.
    rewrite (bind_run _ _ _ _ _ Hgs), Hps, Hbufs.
    apply bind_raise. apply stage_params_no_grads; [|done].
    intros c Hc. apply Hall. apply elem_of_app. by left.
Qed.

(** X20.  The hook that runs after [load_state_dict], on an optimizer
    whose unified parameters are all different and none of which has a
    gradient (as before the first backward pass), when the
    sub-optimizers can be built anew from the unified groups.  If that
    offloads a parameter, the hook raises [AttributeError]: the sync
    asks for the shape of a gradient that is not there.  If nothing is
    offloaded the hook returns, and the unified groups are as they
    were. *)
Theorem post_load_without_gradients (s s1 : HDO) (h h1 : Heap) :
  NoDup (tid <$> group_params (param_groups s)) ->
  Forall (fun p => (tid p < next_tid h)%positive)
         (group_params (param_groups s)) ->
  (forall p, p ∈ group_params (param_groups s) -> grad h !! tid p = None) ->
  _init_sub_optimizers (defaults s) (param_groups s) (state s)
    (Grouped (param_groups s)) h = (inr s1, h1) ->
  match host_optimizer_params s1 with
  | [] => exists s' h', post_load_state_dict_hook s h = (inr s', h') /\
                        param_groups s' = param_groups s
  | _ :: _ => post_load_state_dict_hook s h = (inl AttributeError, h1)
  end.
Proof.
  intros Hnd Hold Hnone Hinit.
  destruct (init_sub_optimizers_ready _ _ _ _ _ _ _ Hinit eq_refl Hnd Hold)
    as [Hready Hapart].
  pose proof Hinit as (r & h2 & h3 & Hsplit & _ & Hpg & _ & _ & _ & _ & _
                       & Hbufs & _)%init_sub_optimizers_inr.
  assert (Hgrad : grad h1 = grad h).
  { pose proof Hinit as (r' & h' & Hsplit' & _ & _ & _ & _ & _ & _ & _ & _
                         & Hg & _)%init_sub_optimizers_shape.
    destruct (split_host_tensors _ _ _ _ _ _ Hsplit') as (_ & Hg' & _).
    by rewrite Hg. }
  unfold post_load_state_dict_hook. rewrite (bind_run _ _ _ _ _ Hinit).
  destruct (host_optimizer_params s1) as [|c cs] eqn:Hhost.
  - destruct (proj2 (sync_returns_when s1 h1 Hapart)) as (s2 & h2' & Hsync).
    { split; [by apply sync_ready_governed|].
      intros c Hc. rewrite Hhost in Hc. by apply elem_of_nil in Hc. }
    rewrite (bind_run _ _ _ _ _ Hsync). eexists _, _. split; [done|].
    apply sync_inr in Hsync as (? & ? & ? & ? & -> & _). by rewrite <- Hpg.
  - apply bind_raise. unfold _sync_hdo_param_groups_to_sub_optimizers.
    apply bind_raise. apply sync_cpu_optimizers_no_grads.
    + intros o Ho. apply (sync_ready_governed s1 Hready).
      unfold sub_optimizers. destruct (gpu_optimizer s1); [|done].
      apply elem_of_app. by left.
    + done.
    + intros c' Hc'. destruct Hready as (_ & _ & H3).
      destruct (H3 c' Hc') as (gpu & Hgpu & Hin).
      exists gpu. split; [done|]. rewrite Hgrad. apply Hnone. by rewrite <- Hpg.
    + unfold host_optimizer_params in Hhost. by rewrite Hhost.
Qed.

(** A run of [post_load_without_gradients]: the scenario at fraction
    0.5, freshly constructed. *)
Lemma post_load_without_gradients_witness :
  exists s h h1,
    HybridDeviceOptimizer_init (Flat scenario_params)
      (scenario_defaults PyFloat.f0_5 false true) heap0 = (inr s, h) /\
    post_load_state_dict_hook s h = (inl AttributeError, h1).
Proof.
  destruct (returns_with_spec
              (HybridDeviceOptimizer_init (Flat scenario_params)
                 (scenario_defaults PyFloat.f0_5 false true)) heap0
              post_load_check ltac:(vm_compute; reflexivity))
    as (s & h & Hrun & Hcheck).
  unfold post_load_check in Hcheck.
  apply andb_prop in Hcheck as [Hcheck Hre].
  apply andb_prop in Hcheck as [Hnd Hall].
  apply bool_decide_eq_true_1 in Hnd.
  assert (Hps : forall p, p ∈ group_params (param_groups s) ->
                  (tid p < next_tid h)%positive /\ grad h !! tid p = None).
  { intros p Hp%list_elem_of_In.
    apply (proj1 (forallb_forall _ _) Hall) in Hp.
    apply andb_prop in Hp as [Hlt Hg].
    split; [exact (bool_decide_eq_true_1 _ Hlt)|exact (bool_decide_eq_true_1 _ Hg)]. }
  destruct (_init_sub_optimizers (defaults s) (param_groups s) (state s)
              (Grouped (param_groups s)) h) as [[e|s1] h1] eqn:Hinit;
    [discriminate Hre|].
  exists s, h, h1. split; [exact Hrun|].
  assert (Hold : Forall (fun p => (tid p < next_tid h)%positive)
                        (group_params (param_groups s))).
  { apply Forall_forall. intros p Hp. exact (proj1 (Hps p Hp)). }
  pose proof (post_load_without_gradients s s1 h h1 Hnd Hold
                (fun p Hp => proj2 (Hps p Hp)) Hinit) as Hout.
  destruct (host_optimizer_params s1) as [|c cs]; [discriminate Hre|exact Hout].
Defined.

(** ** [zero_grad] *)

Lemma zero_params_keep (ps : list Tensor) :
  forall h,
  exists h',
    foldM (fun (_ : unit) p =>
             let* g := get_grad p in
             match g with
             | None => ret tt
             | Some g' => set_requires_grad g' false
             end) tt ps h = (inr tt, h') /\
    grad h' = grad h /\ next_tid h' = next_tid h.
Proof.
  induction ps as [|p ps IH]; intros h; simpl; [by exists h|].
  unfold bind at 1. unfold get_grad at 1. unfold bind at 1.
  destruct (grad h !! tid p) as [g|].
  - unfold set_requires_grad at 1.
    match goal with |- context [foldM _ tt ps ?h1] => destruct (IH h1) as (h' & Hrun & Hg & Hn) end.
    exists h'. by split_and!.
  - unfold ret at 1. destruct (IH h) as (h' & Hrun & Hg & Hn).
    exists h'. by split_and!.
Qed.

Lemma zero_grad_keep (s : HDO) (h : Heap) :
  exists h', zero_grad false s h = (inr tt, h') /\
             grad h' = grad h /\ next_tid h' = next_tid h.
Proof.
  unfold zero_grad. generalize (sub_optimizers s) as os. intros os. revert h.
  induction os as [|o os IH]; intros h; simpl; [by exists h|].
  destruct (zero_params_keep (group_params (opt_param_groups o)) h)
    as (h1 & Hrun & Hg & Hn).
  unfold opt_zero_grad at 1. erewrite bind_run; [|exact Hrun].
  destruct (IH h1) as (h' & Hrest & Hg' & Hn').
  exists h'. split_and!; [exact Hrest|congruence..].
Qed.

(** X21.  [zero_grad] never raises.  With [set_to_none] it clears the
    gradient of the parameters of the sub-optimizers, the shadows and
    the device parameters that are not offloaded, and changes no other
    gradient: an offloaded device parameter keeps its own.  Without
    [set_to_none] no gradient is removed. *)
Theorem zero_grad_effect (s : HDO) (h : Heap) :
  (exists h',
     zero_grad true s h = (inr tt, h') /\
     (forall k, k ∈ tid <$> sub_optimizer_params s -> grad h' !! k = None) /\
     (forall k, k ∉ tid <$> sub_optimizer_params s ->
        grad h' !! k = grad h !! k)) /\
  (exists h', zero_grad false s h = (inr tt, h') /\ grad h' = grad h).
Proof.
  split; [apply zero_grad_run|].
  destruct (zero_grad_keep s h) as (h' & Hrun & Hg & _). eauto.
Qed.
